(** * Zotero sync runner: a shallow embedding of [syncRunner.js]

    The runner ([Zotero.Sync.Runner_Module]) is embedded as functions in a
    state-and-exception monad over the runner's closure variables
    ([_errors], [_syncInProgress], ...), a store of JavaScript error
    objects (they are shared and mutated in place, so they are referenced
    by address), and a trace of the calls made to external collaborators.
    The collaborators themselves (engines, API client, local store, prompts)
    are an interface: a type class over an abstract world. *)

From stdpp Require Import base option list strings gmap pretty.
From Stdlib Require Import ZArith Lia.

Local Open Scope Z_scope.

(** ** Data model *)

(** Library and group IDs are JavaScript integers. *)
Abbreviation LibraryID := Z (only parsing).
Abbreviation GroupID := Z (only parsing).

(** Address of an error object in the store. *)
Abbreviation loc := nat (only parsing).

(** [e.errorType]; the table of [getPrimaryErrorType] names exactly these. *)
Inductive ErrorType := TInfo | TWarning | TError | TUpgrade | TAnimate.

Global Instance ErrorType_eq_dec : EqDecision ErrorType.
Proof. solve_decision. Defined.

(** The class of a thrown object, with the properties the runner inspects
    ([instanceof], [e.name], [e.advanceToNextLibrary], [e.status],
    [e.error]; for an upload error [e.code] and whether [e.data.tag] is
    defined). *)
Inductive ErrClass :=
| GenericError
| ZoteroError (code : Z)
| UserCancelledException (advanceToNextLibrary : bool)
| BrowserOfflineException
| UnexpectedStatusException (status : Z)
| ZoteroObjectUploadError (code : Z) (tag : bool).

Global Instance ErrClass_eq_dec : EqDecision ErrClass.
Proof. solve_decision. Defined.

(** The functions that [checkError] attaches to an error as its
    [dialogButtonCallback]: the one that opens the sync preferences, and
    the fixer of tags that are too long. *)
Inductive ButtonCallback := OpenSyncPreferences | LongTagFixer.

Global Instance ButtonCallback_eq_dec : EqDecision ButtonCallback.
Proof. solve_decision. Defined.

(** An error object. [fatal], [added], [parsed] hold the truthiness of the
    JavaScript property; [errorType] and [libraryID] are [None] when the
    property is [undefined]; [dialogButtonText] and [dialogButtonCallback]
    are [None] as long as the runner has not assigned the property. *)
Record ErrObj := mkErr {
  class : ErrClass;
  message : string;
  fatal : bool;
  added : bool;
  parsed : bool;
  errorType : option ErrorType;
  libraryID : option Z;
  dialogButtonText : option string;
  dialogButtonCallback : option ButtonCallback
}.

Global Instance ErrObj_eq_dec : EqDecision ErrObj.
Proof. solve_decision. Defined.

Definition set_added (b : bool) (o : ErrObj) : ErrObj :=
  mkErr (class o) (message o) (fatal o) b (parsed o) (errorType o) (libraryID o)
    (dialogButtonText o) (dialogButtonCallback o).
Definition set_parsed (b : bool) (o : ErrObj) : ErrObj :=
  mkErr (class o) (message o) (fatal o) (added o) b (errorType o) (libraryID o)
    (dialogButtonText o) (dialogButtonCallback o).
Definition set_errorType (t : option ErrorType) (o : ErrObj) : ErrObj :=
  mkErr (class o) (message o) (fatal o) (added o) (parsed o) t (libraryID o)
    (dialogButtonText o) (dialogButtonCallback o).
Definition set_libraryID (l : option Z) (o : ErrObj) : ErrObj :=
  mkErr (class o) (message o) (fatal o) (added o) (parsed o) (errorType o) l
    (dialogButtonText o) (dialogButtonCallback o).
Definition set_message (msg : string) (o : ErrObj) : ErrObj :=
  mkErr (class o) msg (fatal o) (added o) (parsed o) (errorType o) (libraryID o)
    (dialogButtonText o) (dialogButtonCallback o).
Definition set_dialogButtonText (t : option string) (o : ErrObj) : ErrObj :=
  mkErr (class o) (message o) (fatal o) (added o) (parsed o) (errorType o)
    (libraryID o) t (dialogButtonCallback o).
Definition set_dialogButtonCallback (c : option ButtonCallback) (o : ErrObj)
  : ErrObj :=
  mkErr (class o) (message o) (fatal o) (added o) (parsed o) (errorType o)
    (libraryID o) (dialogButtonText o) c.

(** [new Error(msg)] *)
Definition newError (msg : string) : ErrObj :=
  mkErr GenericError msg false false false None None None None.

(** [new Zotero.Error(msg, code, data)]; what the constructor makes of
    [data] is not the runner's doing. *)
Definition newZoteroError (msg : string) (code : Z) : ErrObj :=
  mkErr (ZoteroError code) msg false false false None None None None.

(** An object with no property set: what reading through a dangling address
    yields.  Addresses handed out by [alloc] are never dangling. *)
Global Instance ErrObj_inhabited : Inhabited ErrObj :=
  populate (newError "").

(** Truthiness of a JavaScript number-or-undefined. *)
Definition truthy (v : option Z) : bool :=
  match v with
  | Some n => negb (n =? 0)
  | None => false
  end.

(** The state shown by the sync icon: a severity, or [false]. *)
Definition IconState := option ErrorType.

(** ** Trace of calls to the outside *)

Inductive Phase := DataPhase | FilePhase | FullTextPhase.

Global Instance Phase_eq_dec : EqDecision Phase.
Proof. solve_decision. Defined.

Inductive Event :=
| EvLogError (e : loc)                       (* Zotero.logError(e) *)
| EvCheckError (e : loc)                     (* this.checkError(e) *)
| EvSinkError (e : loc)                      (* options.onError(e), caller's *)
| EvCallerStop                               (* options.caller.stop() *)
| EvUpdateLastSyncTime                       (* Local.updateLastSyncTime() *)
| EvEngineStart (p : Phase) (l : LibraryID)  (* engine.start() *)
| EvEngineEnd (p : Phase) (l : LibraryID) (rejection : option (loc * ErrObj))
| EvPhaseDone (p : Phase) (input output : list LibraryID)
| EvUpdateIcons (state : IconState) (errors : list ErrObj)
| EvPurgeDataObjects
| EvWaitForDataLoad (l : LibraryID)
| EvGroupErase (g : GroupID)
| EvGroupSave (g : GroupID)
| EvNotifyFinish (libs : list LibraryID).

Global Instance Event_eq_dec : EqDecision Event.
Proof. solve_decision. Defined.

(** ** External collaborators

    Everything the runner calls but does not define: the three engines, the
    preference store and the storage-mode lookup.  A call may change the
    world (an engine run touches the local store and the server), so every
    method that is a run takes and returns it. *)

Inductive EngineOutcome (A : Type) :=
| Resolved (a : A)
| Rejected (e : ErrObj).
Arguments Resolved {A} a.
Arguments Rejected {A} e.

(** What [Zotero.Sync.Storage.Engine#start] resolves to. *)
Record StorageResults := mkResults {
  syncRequired : bool;
  fileSyncRequired : bool
}.

(** The object cached per storage mode; it is built from the options of the
    library that first asked for the mode. *)
Record Controller := mkController {
  ctl_mode : string;
  ctl_libraryID : LibraryID
}.

Global Instance Controller_eq_dec : EqDecision Controller.
Proof. solve_decision. Defined.

(** Session options, the object the caller passes to [sync]. [onError]
    records whether the caller supplied an error sink. *)
Record Options := mkOptions {
  background : bool;
  libraries : option (list LibraryID);
  onError : bool;
  firstInSession : bool;
  restartSync : bool
}.

Global Instance Options_eq_dec : EqDecision Options.
Proof. solve_decision. Defined.

Definition set_libraries (l : option (list LibraryID)) (o : Options) : Options :=
  mkOptions (background o) l (onError o) (firstInSession o) (restartSync o).
Definition set_firstInSession (b : bool) (o : Options) : Options :=
  mkOptions (background o) (libraries o) (onError o) b (restartSync o).
Definition set_restartSync (b : bool) (o : Options) : Options :=
  mkOptions (background o) (libraries o) (onError o) (firstInSession o) b.

(** [engineOptions] as built in [sync]: its [onError] closes over the
    session options, so only the presence of the caller's sink matters. *)
Record EngineOptions := mkEngineOptions {
  eo_background : bool;
  eo_firstInSession : bool;
  eo_sink : bool
}.

(** A local group record ([Zotero.Group]). *)
Record Group := mkGroup {
  group_id : GroupID;
  group_libraryID : LibraryID;
  group_version : Z;
  group_name : string
}.

Inductive LibraryType := LTUser | LTPublications | LTGroup | LTOther.

Global Instance LibraryType_eq_dec : EqDecision LibraryType.
Proof. solve_decision. Defined.

(** [keyInfo.access]: [access.user.library] and the [access.groups] object,
    whose keys are ["all"] and group IDs. [ga_all] is [None] when the key is
    absent and otherwise the truthiness of its value. *)
Record GroupsAccess := mkGroupsAccess {
  ga_all : option bool;
  ga_ids : list GroupID
}.

Record Access := mkAccess {
  access_user_library : bool;
  access_groups : option GroupsAccess
}.

Record KeyInfo := mkKeyInfo {
  userID : Z;
  username : string;
  access : Access
}.

(** What [client.getGroup] resolves to, with the permissions
    [Zotero.Groups.getPermissionsFromJSON] reads off its data. *)
Record GroupInfo := mkGroupInfo {
  gi_version : Z;
  gi_name : string;
  gi_editable : bool;
  gi_filesEditable : bool
}.

(** The JSON that [client.getKeyInfo] resolves to, before [checkAccess]
    has looked at it: any of the three properties may be missing. *)
Record KeyInfoJSON := mkKeyInfoJSON {
  json_userID : option Z;
  json_username : option string;
  json_access : option Access
}.

Class Collaborators (World : Type) := {
  (* engine.start() of Zotero.Sync.Data.Engine, Zotero.Sync.Storage.Engine
     and Zotero.Sync.Data.FullTextEngine *)
  dataEngine_start : LibraryID -> World -> EngineOutcome unit * World;
  storageEngine_start : LibraryID -> World -> EngineOutcome StorageResults * World;
  fullTextEngine_start : LibraryID -> World -> EngineOutcome unit * World;
  (* Zotero.Prefs.get("sync.fulltext.enabled") *)
  fulltext_enabled : World -> bool;
  (* Zotero.Sync.Storage.Local.getModeForLibrary *)
  getModeForLibrary : LibraryID -> World -> string;
  (* e.dialogButtonCallback() of an upload error with a tag that is too
     long, the fixer that checkError(e, options) attaches to e: whether it
     ran to its end and set options.restartSync *)
  checkError_restart : ErrObj -> Options -> World -> bool * World;
  (* _getAPIKey(): a key is set; and the codes of Zotero.Error for a key
     that is not set or not valid *)
  getAPIKey : World -> bool;
  ERROR_API_KEY_NOT_SET : Z;
  ERROR_API_KEY_INVALID : Z;
  (* client.getKeyInfo(options); None for a falsy answer *)
  getKeyInfo : World -> EngineOutcome (option KeyInfoJSON) * World;
  (* checkEmptyLibrary: Zotero.Users.getCurrentUserID() is truthy,
     library.hasItems(), Zotero.Feeds.getAll().length, Zotero.resetDataDir,
     and the button chosen in the empty-library dialog *)
  hasCurrentUserID : World -> bool;
  userLibrary_hasItems : World -> bool * World;
  feeds_length : World -> Z;
  resetDataDir : World -> bool;
  confirmEmptyLibrary : KeyInfo -> World -> Z * World;
  (* Zotero.Sync.Data.Local.checkUser *)
  checkUser : Z -> string -> World -> bool * World;
  (* Zotero.Libraries *)
  userLibraryID : World -> LibraryID;
  publicationsLibraryID : World -> LibraryID;
  libraryType : LibraryID -> World -> LibraryType;
  getDataLoaded : LibraryID -> World -> bool;
  (* Zotero.Sync.Data.Local *)
  getSkippedLibraries : World -> list LibraryID;
  getSkippedGroups : World -> list GroupID;
  (* Zotero.Groups and Zotero.Group *)
  groups_get : GroupID -> World -> option Group;
  groups_getAll : World -> list Group;
  getGroupIDFromLibraryID : LibraryID -> World -> GroupID;
  group_erase : Group -> World -> World;
  group_save : GroupID -> GroupInfo -> World -> Group * World;
  (* API client *)
  getGroupVersions : Z -> World -> EngineOutcome (list (GroupID * Z)) * World;
  getGroup : GroupID -> World -> EngineOutcome (option GroupInfo) * World;
  (* prompts: the button chosen in the missing-group dialog, and the answer
     of Local.checkLibraryForAccess *)
  confirmMissingGroup : option Group -> World -> Z * World;
  checkLibraryForAccess : LibraryID -> bool -> bool -> World -> bool * World
}.

(** ** Runner state and the monad *)

(** A computation either returns or throws an error object. *)
Inductive Outcome (A : Type) :=
| Normal (a : A)
| Thrown (e : loc).
Arguments Normal {A} a.
Arguments Thrown {A} e.

Section Runner.

Context {World : Type} `{Collaborators World}.

(** The closure variables of [Runner_Module], the object store, the trace
    and the world. *)
Record Runner := mkRunner {
  _syncInProgress : bool;
  _firstInSession : bool;
  _errors : list loc;
  _lastSyncStatus : option string;
  _storageControllers : gmap string Controller;
  heap : list ErrObj;
  trace : list Event;
  world : World
}.

Definition set_syncInProgress (b : bool) (s : Runner) : Runner :=
  mkRunner b (_firstInSession s) (_errors s) (_lastSyncStatus s)
    (_storageControllers s) (heap s) (trace s) (world s).
Definition set_firstInSessionFlag (b : bool) (s : Runner) : Runner :=
  mkRunner (_syncInProgress s) b (_errors s) (_lastSyncStatus s)
    (_storageControllers s) (heap s) (trace s) (world s).
Definition set_errors (l : list loc) (s : Runner) : Runner :=
  mkRunner (_syncInProgress s) (_firstInSession s) l (_lastSyncStatus s)
    (_storageControllers s) (heap s) (trace s) (world s).
Definition set_lastSyncStatus (m : option string) (s : Runner) : Runner :=
  mkRunner (_syncInProgress s) (_firstInSession s) (_errors s) m
    (_storageControllers s) (heap s) (trace s) (world s).
Definition set_storageControllers (c : gmap string Controller) (s : Runner) : Runner :=
  mkRunner (_syncInProgress s) (_firstInSession s) (_errors s) (_lastSyncStatus s)
    c (heap s) (trace s) (world s).
Definition set_heap (h : list ErrObj) (s : Runner) : Runner :=
  mkRunner (_syncInProgress s) (_firstInSession s) (_errors s) (_lastSyncStatus s)
    (_storageControllers s) h (trace s) (world s).
Definition set_trace (t : list Event) (s : Runner) : Runner :=
  mkRunner (_syncInProgress s) (_firstInSession s) (_errors s) (_lastSyncStatus s)
    (_storageControllers s) (heap s) t (world s).
Definition set_world (w : World) (s : Runner) : Runner :=
  mkRunner (_syncInProgress s) (_firstInSession s) (_errors s) (_lastSyncStatus s)
    (_storageControllers s) (heap s) (trace s) w.

Definition M (A : Type) : Type := Runner -> Outcome A * Runner.

Definition ret {A} (a : A) : M A := fun s => (Normal a, s).

Definition bind {A B} (m : M A) (k : A -> M B) : M B := fun s =>
  match m s with
  | (Normal a, s') => k a s'
  | (Thrown e, s') => (Thrown e, s')
  end.

Definition throw {A} (e : loc) : M A := fun s => (Thrown e, s).

(** [try { body } catch (e) { handler e }] *)
Definition tryCatch {A} (body : M A) (handler : loc -> M A) : M A := fun s =>
  match body s with
  | (Normal a, s') => (Normal a, s')
  | (Thrown e, s') => handler e s'
  end.

Definition get : M Runner := fun s => (Normal s, s).
Definition modify (f : Runner -> Runner) : M unit := fun s => (Normal tt, f s).

Definition emit (ev : Event) : M unit :=
  modify (fun s => set_trace (trace s ++ [ev]) s).

(** Allocate an object at the next free address. *)
Definition alloc (o : ErrObj) : M loc := fun s =>
  (Normal (length (heap s)), set_heap (heap s ++ [o]) s).

Definition readObj (e : loc) : M ErrObj := fun s => (Normal (heap s !!! e), s).

Definition updateObj (e : loc) (f : ErrObj -> ErrObj) : M unit :=
  modify (fun s => set_heap (<[e := f (heap s !!! e)]> (heap s)) s).

(** [throw new Error(msg)] *)
Definition throwNew {A} (o : ErrObj) : M A :=
  bind (alloc o) (fun e => throw e).

(** Read the world, or run a collaborator that changes it. *)
Definition ask {A} (f : World -> A) : M A := fun s => (Normal (f (world s)), s).
Definition call {A} (f : World -> A * World) : M A := fun s =>
  let '(a, w) := f (world s) in (Normal a, set_world w s).
Definition act (f : World -> World) : M unit :=
  modify (fun s => set_world (f (world s)) s).

(** Await a promise: a rejection is thrown, as a fresh object. *)
Definition await {A} (f : World -> EngineOutcome A * World) : M A :=
  bind (call f) (fun r =>
    match r with
    | Resolved a => ret a
    | Rejected o => throwNew o
    end).

End Runner.

Arguments Runner World : clear implicits.
Arguments M World A : clear implicits.

Declare Scope runner_scope.
Delimit Scope runner_scope with runner.
Notation "x <- m ;; k" := (bind m (fun x => k))
  (at level 100, m at next level, right associativity) : runner_scope.
Notation "m ;;; k" := (bind m (fun _ => k))
  (at level 100, right associativity) : runner_scope.
Local Open Scope runner_scope.

(** ** Helpers of [Zotero.Utilities] and JavaScript built-ins *)

(** Modelled from the spec: [Zotero.Utilities.arrayDiff] lives in
    utilities.js, which is not part of the sources at hand.  The spec uses
    it as "any library dropped between input and dataSurvivors": the
    elements of the first array that are absent from the second, in the
    order of the first. *)
Definition arrayDiff (array1 array2 : list Z) : list Z :=
  filter (fun x => x ∉ array2) array1.

(** Modelled from the spec: [Zotero.Utilities.isEmpty] (utilities.js, not
    at hand) tells whether an object has no enumerable key; an absent
    [access.groups] has none either ("group access mode none"). *)
Definition isEmpty (g : option GroupsAccess) : bool :=
  match g with
  | None => true
  | Some g => match ga_all g, ga_ids g with
              | None, [] => true
              | _, _ => false
              end
  end.

(** [new Set(array)] keeps the first occurrence of each element, in
    insertion order; [set.delete(x)]; [[...set]] is the list itself. *)
Definition newSet (l : list Z) : list Z :=
  foldl (fun acc x => if decide (x ∈ acc) then acc else acc ++ [x]) [] l.
Definition setDelete (x : Z) (s : list Z) : list Z :=
  filter (fun y => y ≠ x) s.

Definition nonEmpty {A} (l : list A) : bool :=
  match l with [] => false | _ => true end.

(** ** Error aggregation *)

(** The [errorTypes] table of [getPrimaryErrorType]. *)
Definition errorTypes (t : ErrorType) : Z :=
  match t with
  | TInfo => 1
  | TWarning => 2
  | TError => 3
  | TUpgrade => 4
  | TAnimate => -1
  end.

(** The [for] loop of [getPrimaryErrorType]; [state] is [None] for [false]. *)
Fixpoint primaryErrorLoop (errors : list ErrObj) (state : option ErrorType)
  : option ErrorType :=
  match errors with
  | [] => state
  | e :: rest =>
      if fatal e then Some TError
      else
        match errorType e with
        | None => primaryErrorLoop rest state
        | Some t =>
            if errorTypes t <? 0 then primaryErrorLoop rest state
            else
              match state with
              | None => primaryErrorLoop rest (Some t)
              | Some st =>
                  if errorTypes t >? errorTypes st
                  then primaryErrorLoop rest (Some t)
                  else primaryErrorLoop rest state
              end
        end
  end.

Definition getPrimaryErrorType (errors : list ErrObj) : option ErrorType :=
  primaryErrorLoop errors None.

Section Aggregator.

Context {World : Type} `{Collaborators World}.

(** [parseError(e)]; [None] stands for a falsy argument. *)
Definition parseError (e : option loc) : M World loc :=
  match e with
  | None => alloc (set_parsed true (newError ""))
  | Some e =>
      o <- readObj e ;;
      if parsed o then ret e
      else
        updateObj e (set_parsed true) ;;;
        updateObj e (fun o =>
          set_errorType (Some (default TError (errorType o))) o) ;;;
        ret e
  end.

Definition push_error (e : loc) : M World unit :=
  modify (fun s => set_errors (_errors s ++ [e]) s).

(** [this.addError(e, libraryID)] *)
Definition addError (e : loc) (libraryID : option Z) : M World unit :=
  o <- readObj e ;;
  if added o then ret tt
  else
    updateObj e (set_added true) ;;;
    (if truthy libraryID then updateObj e (set_libraryID libraryID)
     else ret tt) ;;;
    emit (EvLogError e) ;;;
    p <- parseError (Some e) ;;
    push_error p.

(** What the fixer of long tags fails with when it is called with options
    that have no [libraries]: the [TypeError] of [options.libraries.filter]
    (the wording of the message is the engine's). *)
Definition librariesUndefined : ErrObj :=
  newError "options.libraries is undefined".

(** [this.checkError(e, options)] classifies an error and attaches its
    remediation to the object, a dialog button and its callback.

    For a [Zotero.Error] that says that the API key is not set or not valid
    the message is replaced as well; the dialog that a sync that is not a
    background one shows for it is put off with [setTimeout], so it is not
    part of the call.

    For an upload error with status 413 and a tag, the callback is the
    fixer of long tags, which a sync that is not a background one runs at
    once.  The fixer reads [options.libraries] first, so without them it
    fails before it has done anything.  With them it goes through their
    tags with the user; this part is outside, and what the orchestration
    sees of it is whether [options.restartSync] got set.

    Without [options] (the phase runners call [checkError(e)] and do not
    wait for its result) the fixer gets a throw-away object that has no
    [libraries]: it fails at once, and since nobody waits for the call the
    failure is lost.  Nothing but the classification is left of it. *)
Definition checkError (e : loc) (options : option Options)
  : M World (option Options) :=
  emit (EvCheckError e) ;;;
  o <- readObj e ;;
  match class o with
  | ZoteroError code =>
      if (code =? ERROR_API_KEY_NOT_SET) || (code =? ERROR_API_KEY_INVALID)
      then
        updateObj e (set_message "sync.error.invalidLogin.text") ;;;
        updateObj e
          (set_dialogButtonText (Some "sync.openSyncPreferences")) ;;;
        updateObj e (set_dialogButtonCallback (Some OpenSyncPreferences)) ;;;
        ret options
      else ret options
  | ZoteroObjectUploadError code tag =>
      if (code =? 413) && tag then
        updateObj e (set_dialogButtonText (Some "general.fix")) ;;;
        updateObj e (set_dialogButtonCallback (Some LongTagFixer)) ;;;
        match options with
        | None => ret None
        | Some options =>
            if negb (background options) then
              match libraries options with
              | None => throwNew librariesUndefined
              | Some _ =>
                  o <- readObj e ;;
                  restart <- call (checkError_restart o options) ;;
                  ret (Some (if restart then set_restartSync true options
                             else options))
              end
            else ret (Some options)
        end
      else ret options
  | _ => ret options
  end.

(** [this.checkErrors(errors, options)]; [checkError] never answers
    "handled", so every error is looked at. *)
Fixpoint checkErrors (errors : list loc) (options : Options)
  : M World Options :=
  match errors with
  | [] => ret options
  | e :: rest =>
      r <- checkError e (Some options) ;;
      checkErrors rest (default options r)
  end.

(** [this.getErrorsByLibrary(libraryID)]: [===] on the property. *)
Definition getErrorsByLibrary (libID : option Z) (s : Runner World)
  : list loc :=
  filter (fun e => libraryID (heap s !!! e) = libID) (_errors s).

(** [this.setSyncStatus(msg)]; no tooltip label is registered. *)
Definition setSyncStatus (msg : option string) : M World unit :=
  modify (set_lastSyncStatus msg).

(** [this.updateIcons(errors)]: the argument is a state name or a list of
    error objects (a single error is wrapped into a list by the caller
    here).  The windows are outside; the call is recorded. *)
Definition updateIcons (arg : ErrorType + list ErrObj) : M World unit :=
  let '(state, errors) :=
    match arg with
    | inl st => (Some st, [])
    | inr errors => (getPrimaryErrorType errors, errors)
    end in
  emit (EvUpdateIcons state errors) ;;;
  setSyncStatus None.

End Aggregator.

(** ** Phase runners *)

(** [const stopOnError = false] *)
Definition stopOnError : bool := false.

(** How one turn of a [for] loop over libraries ends: on to the next
    library, or [break]. *)
Inductive LoopCtl := Next | Stop.

Section Phases.

Context {World : Type} `{Collaborators World}.

(** [engineOptions.onError]: the caller's sink if there is one, else the
    runner's own queue. *)
Definition engine_onError (options : EngineOptions) (e : loc) : M World unit :=
  if eo_sink options then emit (EvSinkError e) else addError e None.

(** [yield engine.start()]: the run and how it ended are recorded (for a
    rejection, the address of the object and the object as it is thrown); a
    rejection is thrown as a fresh object. *)
Definition startEngine {A} (p : Phase) (libraryID : LibraryID)
    (run : World -> EngineOutcome A * World) : M World A :=
  emit (EvEngineStart p libraryID) ;;;
  r <- call run ;;
  match r with
  | Resolved a =>
      emit (EvEngineEnd p libraryID None) ;;;
      ret a
  | Rejected o =>
      e <- alloc o ;;
      emit (EvEngineEnd p libraryID (Some (e, o))) ;;;
      throw e
  end.

Definition startDataEngine (libraryID : LibraryID) : M World unit :=
  startEngine DataPhase libraryID (dataEngine_start libraryID).

Definition startStorageEngine (libraryID : LibraryID) : M World StorageResults :=
  startEngine FilePhase libraryID (storageEngine_start libraryID).

Definition startFullTextEngine (libraryID : LibraryID) : M World unit :=
  startEngine FullTextPhase libraryID (fullTextEngine_start libraryID).

(** The part of the three [catch] blocks that is the same: log, classify,
    hand to the sink, and stop the caller on a fatal error. *)
Definition reportAndDecide {A} (options : EngineOptions) (e : loc) (acc : A)
  : M World (LoopCtl * A) :=
  emit (EvLogError e) ;;;
  checkError e None ;;;
  engine_onError options e ;;;
  o <- readObj e ;;
  if stopOnError || fatal o then
    emit EvCallerStop ;;;
    ret (Stop, acc)
  else ret (Next, acc).

(** *** Data phase *)

Definition dataSyncCatch (options : EngineOptions)
    (successfulLibraries : list LibraryID) (e : loc)
  : M World (LoopCtl * list LibraryID) :=
  o <- readObj e ;;
  match class o with
  | UserCancelledException advanceToNextLibrary =>
      if advanceToNextLibrary then ret (Next, successfulLibraries)
      else throw e
  | _ => reportAndDecide options e successfulLibraries
  end.

(** One turn of the [for] loop: the [try] and its [catch]. *)
Definition dataSyncStep (options : EngineOptions) (libraryID : LibraryID)
    (successfulLibraries : list LibraryID)
  : M World (LoopCtl * list LibraryID) :=
  tryCatch
    (startDataEngine libraryID ;;;
     ret (Next, successfulLibraries ++ [libraryID]))
    (dataSyncCatch options successfulLibraries).

Fixpoint dataSyncLoop (options : EngineOptions) (libs : list LibraryID)
    (successfulLibraries : list LibraryID) : M World (list LibraryID) :=
  match libs with
  | [] => ret successfulLibraries
  | libraryID :: rest =>
      r <- dataSyncStep options libraryID successfulLibraries ;;
      match r with
      | (Next, successfulLibraries) =>
          dataSyncLoop options rest successfulLibraries
      | (Stop, successfulLibraries) => ret successfulLibraries
      end
  end.

(** [_doDataSync(libraries, options)]: the libraries that completed. *)
Definition _doDataSync (libs : list LibraryID) (options : EngineOptions)
  : M World (list LibraryID) :=
  successfulLibraries <- dataSyncLoop options libs [] ;;
  (if negb (nonEmpty libs) || nonEmpty successfulLibraries
   then emit EvUpdateLastSyncTime else ret tt) ;;;
  emit (EvPhaseDone DataPhase libs successfulLibraries) ;;;
  ret successfulLibraries.

(** *** File phase *)

(** [this.getStorageController(mode, options)] *)
Definition getStorageController (mode : string) (libraryID : LibraryID)
  : M World Controller :=
  s <- get ;;
  match _storageControllers s !! mode with
  | Some c => ret c
  | None =>
      let c := mkController mode libraryID in
      modify (fun s => set_storageControllers (<[mode := c]> (_storageControllers s)) s) ;;;
      ret c
  end.

(** [this.resetStorageController(mode)] *)
Definition resetStorageController (mode : string) : M World unit :=
  modify (fun s =>
    set_storageControllers (delete mode (_storageControllers s)) s).

(** The [while (true)] loop of [_doFileSync]; [tries] is the local budget. *)
Fixpoint storageAttempts (tries : nat) (libraryID : LibraryID)
    (resyncLibraries : list LibraryID) : M World (list LibraryID) :=
  match tries with
  | O =>
      throwNew (newError
        ("Too many file sync attempts for library " +:+ pretty libraryID))
  | S tries =>
      results <- startStorageEngine libraryID ;;
      if syncRequired results then ret (resyncLibraries ++ [libraryID])
      else if fileSyncRequired results then
        storageAttempts tries libraryID resyncLibraries
      else ret resyncLibraries
  end.

(** One turn of the [for] loop: the [try] and its [catch]. *)
Definition fileSyncStep (options : EngineOptions) (libraryID : LibraryID)
    (resyncLibraries : list LibraryID)
  : M World (LoopCtl * list LibraryID) :=
  tryCatch
    (mode <- ask (getModeForLibrary libraryID) ;;
     getStorageController mode libraryID ;;;
     resync <- storageAttempts 3 libraryID resyncLibraries ;;
     ret (Next, resync))
    (fun e => reportAndDecide options e resyncLibraries).

Fixpoint fileSyncLoop (options : EngineOptions) (libs : list LibraryID)
    (resyncLibraries : list LibraryID) : M World (list LibraryID) :=
  match libs with
  | [] => ret resyncLibraries
  | libraryID :: rest =>
      r <- fileSyncStep options libraryID resyncLibraries ;;
      match r with
      | (Next, resyncLibraries) => fileSyncLoop options rest resyncLibraries
      | (Stop, resyncLibraries) => ret resyncLibraries
      end
  end.

(** [_doFileSync(libraries, options)]: the libraries that need another
    data sync. *)
Definition _doFileSync (libs : list LibraryID) (options : EngineOptions)
  : M World (list LibraryID) :=
  setSyncStatus (Some "sync.status.syncingFiles") ;;;
  resyncLibraries <- fileSyncLoop options libs [] ;;
  emit (EvPhaseDone FilePhase libs resyncLibraries) ;;;
  ret resyncLibraries.

(** *** Full-text phase *)

Definition fullTextCatch (options : EngineOptions) (libraryID : LibraryID)
    (resyncLibraries : list LibraryID) (e : loc)
  : M World (LoopCtl * list LibraryID) :=
  o <- readObj e ;;
  match class o with
  | UnexpectedStatusException status =>
      if status =? 412 then ret (Next, resyncLibraries ++ [libraryID])
      else reportAndDecide options e resyncLibraries
  | _ => reportAndDecide options e resyncLibraries
  end.

(** One turn of the [for] loop: the [try] and its [catch]. *)
Definition fullTextStep (options : EngineOptions) (libraryID : LibraryID)
    (resyncLibraries : list LibraryID)
  : M World (LoopCtl * list LibraryID) :=
  tryCatch
    (startFullTextEngine libraryID ;;;
     ret (Next, resyncLibraries))
    (fullTextCatch options libraryID resyncLibraries).

Fixpoint fullTextLoop (options : EngineOptions) (libs : list LibraryID)
    (resyncLibraries : list LibraryID) : M World (list LibraryID) :=
  match libs with
  | [] => ret resyncLibraries
  | libraryID :: rest =>
      r <- fullTextStep options libraryID resyncLibraries ;;
      match r with
      | (Next, resyncLibraries) => fullTextLoop options rest resyncLibraries
      | (Stop, resyncLibraries) => ret resyncLibraries
      end
  end.

(** [_doFullTextSync(libraries, options)] *)
Definition _doFullTextSync (libs : list LibraryID) (options : EngineOptions)
  : M World (list LibraryID) :=
  enabled <- ask fulltext_enabled ;;
  resyncLibraries <-
    (if negb enabled then ret []
     else
       setSyncStatus (Some "sync.status.syncingFullText") ;;;
       fullTextLoop options libs []) ;;
  emit (EvPhaseDone FullTextPhase libs resyncLibraries) ;;;
  ret resyncLibraries.

(** ** The retry loop of [sync] *)

(** The variables of the loop. *)
Record LoopState := mkLoopState {
  attempt : Z;
  librariesToSync : list LibraryID;
  successfulLibraries : list LibraryID
}.

(** How one pass ends: [continue] (a resync signal) or [break]. *)
Inductive PassResult :=
| Continue (st : LoopState)
| Break (st : LoopState).

(** The three phases of one pass, after the check of the attempt counter. *)
Definition syncPass (options : EngineOptions) (st : LoopState)
  : M World PassResult :=
  nextLibraries <- _doDataSync (librariesToSync st) options ;;
  (* Remove failed libraries from the successful set *)
  let successful :=
    foldl (fun set libraryID => setDelete libraryID set)
      (successfulLibraries st)
      (arrayDiff (librariesToSync st) nextLibraries) in
  (* Run file sync on all libraries that passed the last data sync *)
  resync <- _doFileSync nextLibraries options ;;
  if nonEmpty resync then
    ret (Continue (mkLoopState (attempt st + 1) resync successful))
  else
    (* Run full-text sync on all libraries that haven't failed a data sync *)
    resync <- _doFullTextSync successful options ;;
    if nonEmpty resync then
      ret (Continue (mkLoopState (attempt st + 1) resync successful))
    else ret (Break (mkLoopState (attempt st) resync successful)).

Definition tooManySyncAttempts : ErrObj :=
  newError "Too many sync attempts -- stopping".

(** The body of [while (librariesToSync.length)]. *)
Definition loopBody (options : EngineOptions) (st : LoopState)
  : M World PassResult :=
  if attempt st >? 3 then throwNew tooManySyncAttempts
  else syncPass options st.

(** How the loop is left: normally, by an exception (kept together with the
    loop variables as they are when it is thrown: [sync] reads
    [librariesToSync] in its [finally]), or, in this embedding only, because
    [fuel] turns did not suffice. *)
Inductive LoopEnd :=
| Finished (st : LoopState)
| Aborted (e : loc) (st : LoopState)
| OutOfFuel.

(** The loop.  Four turns always suffice (see [retryLoop_total]). *)
Fixpoint retryLoop (fuel : nat) (options : EngineOptions) (st : LoopState)
  : M World LoopEnd :=
  if nonEmpty (librariesToSync st) then
    match fuel with
    | O => ret OutOfFuel
    | S fuel =>
        r <- tryCatch (r <- loopBody options st ;; ret (inl r))
                      (fun e => ret (inr e)) ;;
        match r with
        | inl (Continue st') => retryLoop fuel options st'
        | inl (Break st') => ret (Finished st')
        | inr e => ret (Aborted e st)
        end
    end
  else ret (Finished st).

End Phases.

(** ** Library-set resolution: [checkLibraries] *)

Section Libraries.

Context {World : Type} `{Collaborators World}.

(** [access.groups.all] is truthy. *)
Definition groups_all (a : Access) : bool :=
  match access_groups a with
  | Some g => default false (ga_all g)
  | None => false
  end.

(** The loop over the libraries that were asked for. *)
Fixpoint checkLibraryAccess (a : Access) (libs : list LibraryID)
  : M World unit :=
  match libs with
  | [] => ret tt
  | libraryID :: rest =>
      type <- ask (libraryType libraryID) ;;
      (match type with
       | LTUser | LTPublications =>
           if negb (access_user_library a) then
             throwNew (newError
               ("Key does not have access to library " +:+ pretty libraryID))
           else ret tt
       | _ => ret tt
       end) ;;;
      checkLibraryAccess a rest
  end.

(** [for (let id in remoteGroupVersions)] *)
Fixpoint remoteGroupsLoop (syncAllLibraries : bool)
    (remoteGroupVersions : list (GroupID * Z))
    (libs : list LibraryID) (groupsToDownload : list GroupID)
  : M World (list LibraryID * list GroupID) :=
  match remoteGroupVersions with
  | [] => ret (libs, groupsToDownload)
  | (id, version) :: rest =>
      group <- ask (groups_get id) ;;
      if syncAllLibraries then
        match group with
        | Some g =>
            if group_version g <? version then
              remoteGroupsLoop syncAllLibraries rest libs (groupsToDownload ++ [id])
            else
              remoteGroupsLoop syncAllLibraries rest
                (libs ++ [group_libraryID g]) groupsToDownload
        | None =>
            remoteGroupsLoop syncAllLibraries rest libs (groupsToDownload ++ [id])
        end
      else
        match group with
        | Some g =>
            if decide (group_libraryID g ∈ libs) then
              if group_version g <? version then
                remoteGroupsLoop syncAllLibraries rest libs (groupsToDownload ++ [id])
              else remoteGroupsLoop syncAllLibraries rest libs groupsToDownload
            else remoteGroupsLoop syncAllLibraries rest libs groupsToDownload
        | None => remoteGroupsLoop syncAllLibraries rest libs groupsToDownload
        end
  end.

(** The prompt for each remotely missing group; [None] is "Cancel Sync". *)
Fixpoint missingGroupsLoop (groups removedGroups : list (option Group))
  : M World (option (list (option Group))) :=
  match groups with
  | [] => ret (Some removedGroups)
  | group :: rest =>
      index <- call (confirmMissingGroup group) ;;
      if index =? 0 then missingGroupsLoop rest (removedGroups ++ [group])
      else if index =? 1 then ret None
      else missingGroupsLoop rest removedGroups
  end.

(** Erasing the groups the user chose to remove.  A group that
    [Zotero.Groups.get] did not find is [false], which has no [erase]. *)
Fixpoint eraseGroupsLoop (removedGroups : list (option Group))
    (removedLibraryIDs : list LibraryID) : M World (list LibraryID) :=
  match removedGroups with
  | [] => ret removedLibraryIDs
  | None :: _ => throwNew (newError "group.erase is not a function")
  | Some g :: rest =>
      emit (EvGroupErase (group_id g)) ;;;
      act (group_erase g) ;;;
      eraseGroupsLoop rest (removedLibraryIDs ++ [group_libraryID g])
  end.

(** Updating the groups that are missing or outdated locally. *)
Fixpoint downloadGroupsLoop (groupsToDownload : list GroupID)
    (libs : list LibraryID) : M World (list LibraryID) :=
  match groupsToDownload with
  | [] => ret libs
  | groupID :: rest =>
      info <- await (getGroup groupID) ;;
      match info with
      | None =>
          throwNew (newError ("Group " +:+ pretty groupID +:+ " not found"))
      | Some info =>
          group <- ask (groups_get groupID) ;;
          keepGoing <-
            match group with
            | Some g =>
                call (checkLibraryForAccess (group_libraryID g)
                        (gi_editable info) (gi_filesEditable info))
            | None => ret true
            end ;;
          if negb keepGoing then downloadGroupsLoop rest libs
          else
            emit (EvGroupSave groupID) ;;;
            saved <- call (group_save groupID info) ;;
            downloadGroupsLoop rest (libs ++ [group_libraryID saved])
      end
  end.

(** [this.checkLibraries(client, options, keyInfo, libraries)] *)
Definition checkLibraries (keyInfo : KeyInfo) (libs : list LibraryID)
  : M World (list LibraryID) :=
  let a := access keyInfo in
  let syncAllLibraries := negb (nonEmpty libs) in
  libs <-
    (if syncAllLibraries then
       if access_user_library a then
         w <- ask id ;;
         ret (arrayDiff [userLibraryID w; publicationsLibraryID w]
                (getSkippedLibraries w))
       else ret libs
     else checkLibraryAccess a libs ;;; ret libs) ;;
  (* Check group access *)
  r <-
    (if negb (isEmpty (access_groups a)) then
       (if groups_all a then ret tt
        else throwNew (newError "Full group access is currently required")) ;;;
       remoteGroupVersions <- await (getGroupVersions (userID keyInfo)) ;;
       let remoteGroupIDs := remoteGroupVersions.*1 in
       skippedGroups <- ask getSkippedGroups ;;
       let newGroups := arrayDiff remoteGroupIDs skippedGroups in
       let remoteGroupVersions :=
         if syncAllLibraries then
           filter (fun p => p.1 ∉ arrayDiff remoteGroupIDs newGroups)
             remoteGroupVersions
         else remoteGroupVersions in
       let remoteGroupIDs :=
         if syncAllLibraries then newGroups else remoteGroupIDs in
       r <- remoteGroupsLoop syncAllLibraries remoteGroupVersions libs [] ;;
       w <- ask id ;;
       let localGroups :=
         if syncAllLibraries then
           filter (fun g => g ∉ skippedGroups) (group_id <$> groups_getAll w)
         else
           (fun l => getGroupIDFromLibraryID l w) <$>
             filter (fun l => libraryType l w = LTGroup) r.1 in
       ret (r.1, r.2,
            (fun g => groups_get g w) <$> arrayDiff localGroups remoteGroupIDs)
     else
       all <- ask groups_getAll ;;
       ret (libs, [], Some <$> all)) ;;
  let '(libs, groupsToDownload, remotelyMissingGroups) := r in
  r <-
    (if nonEmpty remotelyMissingGroups then
       removedGroups <- missingGroupsLoop remotelyMissingGroups [] ;;
       match removedGroups with
       | None => ret None
       | Some removedGroups =>
           removedLibraryIDs <- eraseGroupsLoop removedGroups [] ;;
           ret (Some (arrayDiff libs removedLibraryIDs))
       end
     else ret (Some libs)) ;;
  match r with
  | None => ret []
  | Some libs =>
      libs <- downloadGroupsLoop groupsToDownload libs ;;
      ret (newSet libs)
  end.

End Libraries.

(** ** The session: [sync] and [end] *)

(** What a call of [sync] resolves to. *)
Inductive SyncReturn := ReturnFalse | ReturnUndefined.

(** Where the [try] block of [sync] stands when the libraries are known,
    or how it ended before. *)
Inductive Bootstrap :=
| Ready (libs : list LibraryID)
| Declined
| Failed (e : loc).

Section Session.

Context {World : Type} `{Collaborators World}.

(** [this.checkAccess(client, options)] *)
Definition checkAccess : M World KeyInfo :=
  json <- await getKeyInfo ;;
  match json with
  | None => throwNew (newZoteroError "API key not set" ERROR_API_KEY_NOT_SET)
  | Some json =>
      if negb (truthy (json_userID json)) then
        throwNew (newError "userID not found in key response")
      else
        match json_username json with
        | None | Some EmptyString =>
            throwNew (newError "username not found in key response")
        | Some name =>
            match json_access json with
            | None => throwNew (newError "'access' not found in key response")
            | Some a => ret (mkKeyInfo (default 0 (json_userID json)) name a)
            end
        end
  end.

(** [this.checkEmptyLibrary(keyInfo)] *)
Definition checkEmptyLibrary (keyInfo : KeyInfo) : M World bool :=
  hasUserID <- ask hasCurrentUserID ;;
  if negb hasUserID then
    hasItems <- call userLibrary_hasItems ;;
    feeds <- ask feeds_length ;;
    reset <- ask resetDataDir ;;
    if negb hasItems && (feeds <=? 0) && negb reset then
      index <- call (confirmEmptyLibrary keyInfo) ;;
      if index =? 1 then ret false
      else if index =? 2 then ret false
      else ret true
    else ret true
  else ret true.

(** [this.end(options)] *)
Definition end_ (options : Options) : M World Options :=
  s <- get ;;
  options <- checkErrors (_errors s) options ;;
  (if negb (restartSync options) then
     s <- get ;;
     updateIcons (inr ((fun e => heap s !!! e) <$> _errors s))
   else ret tt) ;;;
  modify (set_errors []) ;;;
  modify (set_syncInProgress false) ;;;
  ret options.

(** The [catch] block of [sync]. *)
Definition sessionCatch (options : Options) (e : loc) : M World unit :=
  o <- readObj e ;;
  e <-
    (match class o with
     | BrowserOfflineException =>
         e <- alloc (newZoteroError "general.browserIsOffline" 0) ;;
         emit (EvLogError e) ;;;
         modify (set_errors []) ;;;
         ret e
     | _ => ret e
     end) ;;
  o <- readObj e ;;
  match class o with
  | UserCancelledException _ => ret tt
  | _ => if onError options then emit (EvSinkError e) else addError e None
  end.

(** The [try] block up to the point where the libraries are known. *)
Definition bootstrap (options : Options) : M World Bootstrap :=
  tryCatch
    (keyInfo <- checkAccess ;;
     emptyLibraryContinue <- checkEmptyLibrary keyInfo ;;
     if negb emptyLibraryContinue then ret Declined
     else
       sameUser <- call (checkUser (userID keyInfo) (username keyInfo)) ;;
       if negb sameUser then ret Declined
       else
         libs <- checkLibraries keyInfo (default [] (libraries options)) ;;
         ret (Ready libs))
    (fun e => ret (Failed e)).

(** Loading the items of the libraries that do not have them yet. *)
Fixpoint loadLibraries (libs : list LibraryID) : M World unit :=
  match libs with
  | [] => ret tt
  | libraryID :: rest =>
      loaded <- ask (getDataLoaded libraryID) ;;
      (if negb loaded then emit (EvWaitForDataLoad libraryID) else ret tt) ;;;
      loadLibraries rest
  end.

(** The [try] and [catch] of [sync]: what the call is about to return, the
    options object and the variable [librariesToSync] as the [finally]
    block finds them.  [None] only if the retry loop ran out of fuel. *)
Definition session (options : Options)
  : M World (option (SyncReturn * Options * option (list LibraryID))) :=
  apiKey <- ask getAPIKey ;;
  if negb apiKey then
    e <- alloc (newZoteroError "API key not set" ERROR_API_KEY_NOT_SET) ;;
    sessionCatch options e ;;;
    ret (Some (ReturnUndefined, options, None))
  else
    s <- get ;;
    options <-
      (if _firstInSession s then
         modify (set_firstInSessionFlag false) ;;;
         ret (set_firstInSession true options)
       else ret options) ;;
    updateIcons (inl TAnimate) ;;;
    b <- bootstrap options ;;
    match b with
    | Failed e =>
        sessionCatch options e ;;;
        ret (Some (ReturnUndefined, options, None))
    | Declined =>
        (* [yield this.end(options)] is inside the [try] too *)
        r <- tryCatch (options <- end_ options ;; ret (inl options))
                      (fun e => ret (inr e)) ;;
        match r with
        | inl options => ret (Some (ReturnFalse, options, None))
        | inr e =>
            sessionCatch options e ;;;
            ret (Some (ReturnUndefined, options, None))
        end
    | Ready libs =>
        s <- get ;;
        let engineOptions :=
          mkEngineOptions (background options) (_firstInSession s)
            (onError options) in
        let options := set_libraries (Some libs) options in
        loadLibraries libs ;;;
        r <- retryLoop 4 engineOptions (mkLoopState 1 libs (newSet libs)) ;;
        match r with
        | Finished st =>
            ret (Some (ReturnUndefined, options, Some (librariesToSync st)))
        | Aborted e st =>
            sessionCatch options e ;;;
            ret (Some (ReturnUndefined, options, Some (librariesToSync st)))
        | OutOfFuel => ret None
        end
    end.

(** [this.sync(options)].  A restart re-enters [sync] from the [finally]
    block; [fuel] bounds the number of restarts, and the result is [None]
    when it is used up. *)
Fixpoint sync (fuel : nat) (options : Options)
  : M World (option (SyncReturn * Options)) :=
  match fuel with
  | O => ret None
  | S fuel =>
      (* Clear message list *)
      modify (set_errors []) ;;;
      s <- get ;;
      if _syncInProgress s then
        updateIcons (inr [newZoteroError "sync.error.syncInProgress" 0]) ;;;
        ret (Some (ReturnFalse, options))
      else
        modify (set_syncInProgress true) ;;;
        emit EvPurgeDataObjects ;;;
        r <- session options ;;
        match r with
        | None => ret None
        | Some (result, options, librariesToSync) =>
            options <- end_ options ;;
            if restartSync options then
              r <- sync fuel (set_restartSync false options) ;;
              ret ((fun r => (ReturnUndefined, r.2)) <$> r)
            else
              emit (EvNotifyFinish (default [] librariesToSync)) ;;;
              ret (Some (result, options))
        end
  end.

End Session.

(** ** The auto-sync timer: [setSyncTimeout] and [clearSyncTimeout] *)

Inductive TimerType := TYPE_ONE_SHOT | TYPE_REPEATING_SLACK.

Global Instance TimerType_eq_dec : EqDecision TimerType.
Proof. solve_decision. Defined.

(** What [initWithCallback] arms a timer with: the delay in milliseconds,
    the type, and the options that the callback will pass to [sync]. *)
Record TimerArm := mkTimerArm {
  arm_delay : Z;
  arm_type : TimerType;
  arm_options : Options
}.

(** An [nsITimer] is armed or idle (just created, or cancelled). *)
Abbreviation Timer := (option TimerArm) (only parsing).

(** The options object given to [setSyncTimeout]; [background] may be left
    out. *)
Record TimeoutOptions := mkTimeoutOptions {
  to_background : option bool;
  to_libraries : option (list LibraryID);
  to_onError : bool;
  to_firstInSession : bool;
  to_restartSync : bool
}.

(** [Object.assign({ background: true }, options)] *)
Definition mergedOpts (options : TimeoutOptions) : Options :=
  mkOptions (default true (to_background options)) (to_libraries options)
    (to_onError options) (to_firstInSession options) (to_restartSync options).

(** What the timer code reads of the application. *)
Class Scheduling (World : Type) := {
  (* Zotero.Prefs.get('sync.autoSync') *)
  autoSync : World -> bool;
  (* this.enabled: _apiKey || Zotero.Sync.Data.Local.hasCredentials() *)
  runner_enabled : World -> bool;
  (* Zotero.locked *)
  zotero_locked : World -> bool
}.

Section AutoSync.

Context {World : Type} `{Collaborators World} `{Scheduling World}.

(** [this.setSyncTimeout(timeout, recurring, options)], as a function of
    the variable [_autoSyncTimer] ([None] as long as no timer has been
    created) that returns its new value; when it throws, the variable is as
    it was. *)
Definition setSyncTimeout (timeout : option Z) (recurring : bool)
    (options : TimeoutOptions) (_autoSyncTimer : option Timer)
  : M World (option Timer) :=
  pref <- ask autoSync ;;
  enabled <- ask runner_enabled ;;
  if negb pref || negb enabled then ret _autoSyncTimer
  else if negb (truthy timeout) then
    throwNew (newError "Timeout not provided")
  else
    let timer : Timer :=
      match _autoSyncTimer with
      | Some _ => None  (* _autoSyncTimer.cancel() *)
      | None => None    (* createInstance(nsITimer) *)
      end in
    let arm type :=
      mkTimerArm (default 0 timeout * 1000) type (mergedOpts options) in
    if recurring then ret (Some (Some (arm TYPE_REPEATING_SLACK)))
    else
      s <- get ;;
      if _syncInProgress s then ret (Some timer)
      else ret (Some (Some (arm TYPE_ONE_SHOT))).

(** [this.clearSyncTimeout()] *)
Definition clearSyncTimeout (_autoSyncTimer : option Timer) : option Timer :=
  match _autoSyncTimer with
  | Some _ => Some None
  | None => None
  end.

(** The [notify] of the timer's callback; the result is [None] when it
    returns without calling [sync].  The options of [arm] are the content
    of the object [mergedOpts] when the timer fires.  [_getAPIKey] is a
    [Zotero.Promise.method], so what [!_getAPIKey()] negates is a promise,
    which is truthy; [_manualSyncRequired] is never assigned after its
    initialisation to [false]. *)
Definition notify (fuel : nat) (arm : TimerArm)
  : M World (option (option (SyncReturn * Options))) :=
  let apiKeyPromise := true in
  let _manualSyncRequired := false in
  if negb apiKeyPromise then ret None
  else
    locked <- ask zotero_locked ;;
    if locked then ret None
    else
      s <- get ;;
      if _syncInProgress s then ret None
      else if _manualSyncRequired then ret None
      else
        r <- sync fuel (arm_options arm) ;;
        ret (Some r).

End AutoSync.

(** ** Scripted worlds

    A concrete instance of the collaborators for running the model: the
    world is a clock that counts engine runs, and a script says what each
    engine answers for a library at a given time.  Everything else is as
    quiet as it can be: a key is set, nobody is prompted, nothing is
    skipped. *)

Record Script := mkScript {
  sc_data : LibraryID -> nat -> EngineOutcome unit;
  sc_storage : LibraryID -> nat -> EngineOutcome StorageResults;
  sc_fullText : LibraryID -> nat -> EngineOutcome unit;
  sc_fulltext_enabled : bool;
  sc_keyInfo : KeyInfoJSON;
  sc_groups : list Group;
  sc_remoteGroups : list (GroupID * Z)
}.

Definition scripted (sc : Script) : Collaborators nat := {|
  dataEngine_start l w := (sc_data sc l w, S w);
  storageEngine_start l w := (sc_storage sc l w, S w);
  fullTextEngine_start l w := (sc_fullText sc l w, S w);
  fulltext_enabled _ := sc_fulltext_enabled sc;
  getModeForLibrary _ _ := "zfs";
  checkError_restart _ _ w := (false, w);
  getAPIKey _ := true;
  ERROR_API_KEY_NOT_SET := 3;
  ERROR_API_KEY_INVALID := 4;
  getKeyInfo w := (Resolved (Some (sc_keyInfo sc)), w);
  hasCurrentUserID _ := true;
  userLibrary_hasItems w := (true, w);
  feeds_length _ := 0;
  resetDataDir _ := false;
  confirmEmptyLibrary _ w := (0, w);
  checkUser _ _ w := (true, w);
  userLibraryID _ := 1;
  publicationsLibraryID _ := 2;
  libraryType l _ :=
    if l =? 1 then LTUser else if l =? 2 then LTPublications else LTGroup;
  getDataLoaded _ _ := true;
  getSkippedLibraries _ := [];
  getSkippedGroups _ := [];
  groups_get g _ := list_find (fun x => group_id x = g) (sc_groups sc) ≫= (fun p => Some p.2);
  groups_getAll _ := sc_groups sc;
  getGroupIDFromLibraryID l _ :=
    default 0 (list_find (fun x => group_libraryID x = l) (sc_groups sc)
               ≫= (fun p => Some (group_id p.2)));
  group_erase _ w := w;
  group_save g i w := (mkGroup g (100 + g) (gi_version i) (gi_name i), w);
  getGroupVersions _ w := (Resolved (sc_remoteGroups sc), w);
  getGroup _ w := (Resolved None, w);
  confirmMissingGroup _ w := (2, w);
  checkLibraryForAccess _ _ _ w := (true, w)
|}.

(** A runner that has just been created. *)
Definition initialRunner {World} (w : World) : Runner World :=
  mkRunner false true [] None ∅ [] [] w.

Definition plainOptions : Options := mkOptions false None false false false.
Definition plainEngineOptions : EngineOptions := mkEngineOptions false false false.

(** A key with access to the personal library and to no group. *)
Definition personalKey : KeyInfoJSON :=
  mkKeyInfoJSON (Some 7) (Some "user") (Some (mkAccess true None)).

Definition quietScript : Script :=
  mkScript (fun _ _ => Resolved tt)
           (fun _ _ => Resolved (mkResults false false))
           (fun _ _ => Resolved tt)
           false personalKey [] [].

(** A runner whose store holds one fresh error. *)
Definition oneErrorRunner : Runner nat :=
  mkRunner false true [] None ∅ [newError "boom"] [] 0%nat.

(** A runner in the middle of a session, with one error queued. *)
Definition busyRunner : Runner nat :=
  mkRunner true false [0%nat] (Some "sync.status.syncingFiles") ∅
    [mkErr GenericError "boom" false true true (Some TError) None None None]
    [] 0%nat.

(** A world in which the user cancels the sync while library 2 is syncing
    (a cancellation that does not ask to go on with the next library). *)
Definition cancelScript : Script :=
  mkScript
    (fun l _ =>
       if l =? 2 then
         Rejected (mkErr (UserCancelledException false) "cancelled"
                     false false false None None None None)
       else Resolved tt)
    (fun _ _ => Resolved (mkResults false false))
    (fun _ _ => Resolved tt)
    false personalKey [] [].

(** A world with full-text sync enabled in which the full-text engine of
    library 1 answers 412, that of library 2 fails, that of library 3 fails
    fatally, and the others succeed. *)
Definition fullTextScript : Script :=
  mkScript
    (fun _ _ => Resolved tt)
    (fun _ _ => Resolved (mkResults false false))
    (fun l _ =>
       if l =? 1 then
         Rejected (mkErr (UnexpectedStatusException 412) "precondition failed"
                     false false false None None None None)
       else if l =? 2 then Rejected (newError "failed")
       else if l =? 3 then
         Rejected (mkErr GenericError "fatal" true false false None None None
                     None)
       else Resolved tt)
    true personalKey [] [].

(** A world in which the storage engine of library 1 always asks for
    another file sync, and that of any other library asks for a data sync. *)
Definition repeatScript : Script :=
  mkScript
    (fun _ _ => Resolved tt)
    (fun l _ =>
       if l =? 1 then Resolved (mkResults false true)
       else Resolved (mkResults true false))
    (fun _ _ => Resolved tt)
    false personalKey [] [].

(** A world in which the storage engine always asks for another data
    sync. *)
Definition resyncScript : Script :=
  mkScript
    (fun _ _ => Resolved tt)
    (fun _ _ => Resolved (mkResults true false))
    (fun _ _ => Resolved tt)
    false personalKey [] [].

(** A key whose group access lists group 5 only. *)
Definition enumeratedKey : KeyInfo :=
  mkKeyInfo 7 "user" (mkAccess true (Some (mkGroupsAccess None [5]))).

(** A world in which the storage engine of library 2 asks for another data
    sync the first time it runs, and for nothing afterwards. *)
Definition resyncOnceScript : Script :=
  mkScript
    (fun _ _ => Resolved tt)
    (fun l w =>
       if (l =? 2) && (w <? 4)%nat then Resolved (mkResults true false)
       else Resolved (mkResults false false))
    (fun _ _ => Resolved tt)
    true personalKey [] [].

(** Other answers of the login manager, of the user and of the local
    store: whether an API key is set, the button chosen in the
    missing-group dialog, the groups that are skipped, and whether the
    user of the key is accepted as the user of the local data. *)
Record Answers := mkAnswers {
  ans_apiKey : bool;
  ans_missingGroup : Z;
  ans_skippedGroups : list GroupID;
  ans_sameUser : bool
}.

Definition noKey : Answers := mkAnswers false 2 [] true.
Definition cancelling : Answers := mkAnswers true 1 [] true.
Definition skippingGroup5 : Answers := mkAnswers true 2 [5] true.
Definition otherUser : Answers := mkAnswers true 2 [] false.

(** The scripted world with these answers. *)
Definition answering (a : Answers) (sc : Script) : Collaborators nat :=
  let c := scripted sc in {|
  dataEngine_start := @dataEngine_start nat c;
  storageEngine_start := @storageEngine_start nat c;
  fullTextEngine_start := @fullTextEngine_start nat c;
  fulltext_enabled := @fulltext_enabled nat c;
  getModeForLibrary := @getModeForLibrary nat c;
  checkError_restart := @checkError_restart nat c;
  getAPIKey _ := ans_apiKey a;
  ERROR_API_KEY_NOT_SET := @ERROR_API_KEY_NOT_SET nat c;
  ERROR_API_KEY_INVALID := @ERROR_API_KEY_INVALID nat c;
  getKeyInfo := @getKeyInfo nat c;
  hasCurrentUserID := @hasCurrentUserID nat c;
  userLibrary_hasItems := @userLibrary_hasItems nat c;
  feeds_length := @feeds_length nat c;
  resetDataDir := @resetDataDir nat c;
  confirmEmptyLibrary := @confirmEmptyLibrary nat c;
  checkUser _ _ w := (ans_sameUser a, w);
  userLibraryID := @userLibraryID nat c;
  publicationsLibraryID := @publicationsLibraryID nat c;
  libraryType := @libraryType nat c;
  getDataLoaded := @getDataLoaded nat c;
  getSkippedLibraries := @getSkippedLibraries nat c;
  getSkippedGroups _ := ans_skippedGroups a;
  groups_get := @groups_get nat c;
  groups_getAll := @groups_getAll nat c;
  getGroupIDFromLibraryID := @getGroupIDFromLibraryID nat c;
  group_erase := @group_erase nat c;
  group_save := @group_save nat c;
  getGroupVersions := @getGroupVersions nat c;
  getGroup := @getGroup nat c;
  confirmMissingGroup _ w := (ans_missingGroup a, w);
  checkLibraryForAccess := @checkLibraryForAccess nat c
|}.

(** The scripted world in which the request for the key information fails
    with [o]. *)
Definition failingKeyInfo (o : ErrObj) (sc : Script) : Collaborators nat :=
  let c := scripted sc in {|
  dataEngine_start := @dataEngine_start nat c;
  storageEngine_start := @storageEngine_start nat c;
  fullTextEngine_start := @fullTextEngine_start nat c;
  fulltext_enabled := @fulltext_enabled nat c;
  getModeForLibrary := @getModeForLibrary nat c;
  checkError_restart := @checkError_restart nat c;
  getAPIKey := @getAPIKey nat c;
  ERROR_API_KEY_NOT_SET := @ERROR_API_KEY_NOT_SET nat c;
  ERROR_API_KEY_INVALID := @ERROR_API_KEY_INVALID nat c;
  getKeyInfo w := (Rejected o, w);
  hasCurrentUserID := @hasCurrentUserID nat c;
  userLibrary_hasItems := @userLibrary_hasItems nat c;
  feeds_length := @feeds_length nat c;
  resetDataDir := @resetDataDir nat c;
  confirmEmptyLibrary := @confirmEmptyLibrary nat c;
  checkUser := @checkUser nat c;
  userLibraryID := @userLibraryID nat c;
  publicationsLibraryID := @publicationsLibraryID nat c;
  libraryType := @libraryType nat c;
  getDataLoaded := @getDataLoaded nat c;
  getSkippedLibraries := @getSkippedLibraries nat c;
  getSkippedGroups := @getSkippedGroups nat c;
  groups_get := @groups_get nat c;
  groups_getAll := @groups_getAll nat c;
  getGroupIDFromLibraryID := @getGroupIDFromLibraryID nat c;
  group_erase := @group_erase nat c;
  group_save := @group_save nat c;
  getGroupVersions := @getGroupVersions nat c;
  getGroup := @getGroup nat c;
  confirmMissingGroup := @confirmMissingGroup nat c;
  checkLibraryForAccess := @checkLibraryForAccess nat c
|}.

(** An upload error for a tag that is too long. *)
Definition tagTooLong : ErrObj :=
  mkErr (ZoteroObjectUploadError 413 true) "Tag too long" false false false
    None None None None.

(** A world in which the storage engine fails because the API key is not
    valid. *)
Definition invalidKeyScript : Script :=
  mkScript (fun _ _ => Resolved tt)
           (fun _ _ => Rejected (newZoteroError "Invalid key" 4))
           (fun _ _ => Resolved tt)
           false personalKey [] [].

(** Key information with access to the personal library and to no group,
    and the same without access to the personal library. *)
Definition personalKeyInfo : KeyInfo :=
  mkKeyInfo 7 "user" (mkAccess true None).
Definition groupsOnlyKeyInfo : KeyInfo :=
  mkKeyInfo 7 "user" (mkAccess false None).

(** A quiet world with one local group, group 5 with library 105. *)
Definition oneGroupScript : Script :=
  mkScript (fun _ _ => Resolved tt)
           (fun _ _ => Resolved (mkResults false false))
           (fun _ _ => Resolved tt)
           false personalKey [mkGroup 5 105 1 "Group"] [].

(** Key information with access to the personal library and to all
    groups. *)
Definition allGroupsKeyInfo : KeyInfo :=
  mkKeyInfo 7 "user" (mkAccess true (Some (mkGroupsAccess (Some true) []))).

(** A quiet world with the local group 5, of which the server has a newer
    version. *)
Definition outdatedGroupScript : Script :=
  mkScript (fun _ _ => Resolved tt)
           (fun _ _ => Resolved (mkResults false false))
           (fun _ _ => Resolved tt)
           false personalKey [mkGroup 5 105 1 "Group"] [(5, 2)].

(** Auto-sync switched on, for an enabled runner in an unlocked
    application. *)
Definition autoSyncOn : Scheduling nat := {|
  autoSync _ := true;
  runner_enabled _ := true;
  zotero_locked _ := false
|}.

(** A recurring timer of one hour. *)
Definition hourlyArm : TimerArm :=
  mkTimerArm 3600000 TYPE_REPEATING_SLACK plainOptions.

(** A runner in a session that has queued one error, at the moment a
    browser-offline exception is caught. *)
Definition offlineRunner : Runner nat :=
  mkRunner true false [0%nat] None ∅
    [mkErr GenericError "boom" false true true (Some TError) None None None;
     mkErr BrowserOfflineException "offline" false false false None None None
       None]
    [] 0%nat.

(** * Properties *)

(** ** Severity precedence *)

Lemma errorTypes_upgrade_max (t : ErrorType) :
  errorTypes t <= errorTypes TUpgrade.
Proof. destruct t; simpl; lia. Qed.

Lemma primaryErrorLoop_fatal (errors : list ErrObj) (state : option ErrorType) :
  existsb fatal errors = true ->
  primaryErrorLoop errors state = Some TError.
Proof.
  revert state. induction errors as [|e rest IH]; intros state Hf; simpl in *.
  - discriminate.
  - destruct (fatal e); [reflexivity|]. simpl in Hf.
    destruct (errorType e) as [t|]; [|auto].
    destruct (errorTypes t <? 0); [auto|].
    destruct state as [st|]; [|auto].
    destruct (errorTypes t >? errorTypes st); auto.
Qed.

(** What the loop computes when nothing is fatal: the running maximum of
    [state] and the types that count. *)
Definition isMaxOf (state : option ErrorType) (errors : list ErrObj)
    (r : option ErrorType) : Prop :=
  match r with
  | None =>
      state = None /\
      forall e t, e ∈ errors -> errorType e = Some t -> t = TAnimate
  | Some t =>
      (state = Some t \/
       (t <> TAnimate /\ exists e, e ∈ errors /\ errorType e = Some t)) /\
      (forall st, state = Some st -> errorTypes st <= errorTypes t) /\
      (forall e t', e ∈ errors -> errorType e = Some t' -> t' <> TAnimate ->
                    errorTypes t' <= errorTypes t)
  end.

Lemma isMaxOf_skip state e rest r :
  (forall t, errorType e = Some t -> t = TAnimate) ->
  isMaxOf state rest r -> isMaxOf state (e :: rest) r.
Proof.
  intros Hskip. destruct r as [t|]; simpl.
  - intros (Hin & Hst & Hmax). split; [|split]; [|assumption|].
    + destruct Hin as [Hin|(Hna & e' & Hin & Hty)]; [by left|].
      right. split; [assumption|]. exists e'. split; [by right|assumption].
    + intros e0 t' Hin0 Hty Hna. apply elem_of_cons in Hin0 as [->|Hin0].
      * by apply Hskip in Hty.
      * eauto.
  - intros (Hst & Hall). split; [assumption|].
    intros e0 t Hin0 Hty. apply elem_of_cons in Hin0 as [->|Hin0]; eauto.
Qed.

Lemma primaryErrorLoop_nonfatal (errors : list ErrObj) (state : option ErrorType) :
  existsb fatal errors = false ->
  isMaxOf state errors (primaryErrorLoop errors state).
Proof.
  revert state. induction errors as [|e rest IH]; intros state Hf; simpl in *.
  - destruct state as [st|]; simpl.
    + split; [by left|]. split; [by intros ? [= ->]; lia|].
      intros e t' Hin. by apply elem_of_nil in Hin.
    + split; [done|]. intros e t Hin. by apply elem_of_nil in Hin.
  - apply orb_false_iff in Hf as [Hfe Hf]. rewrite Hfe.
    destruct (errorType e) as [t|] eqn:Hty.
    2: { apply isMaxOf_skip; [intros t; by rewrite Hty|]. by apply IH. }
    destruct (errorTypes t <? 0) eqn:Hneg.
    { apply isMaxOf_skip; [|by apply IH].
      intros t0. rewrite Hty. intros [= <-].
      apply Z.ltb_lt in Hneg. destruct t; simpl in Hneg; try lia. done. }
    assert (Hna : t <> TAnimate).
    { intros ->. simpl in Hneg. discriminate. }
    (* [e] counts: either it replaces the state or the state stays *)
    assert (Hnew : forall r, isMaxOf (Some t) rest r ->
                     (forall st, state = Some st -> errorTypes st <= errorTypes t) ->
                     isMaxOf state (e :: rest) r).
    { intros [r|]; simpl; [|by intros [? _]].
      intros (Hin & Hst & Hmax) Hle. specialize (Hst t eq_refl).
      split; [|split].
      - right. destruct Hin as [[= <-]|(Hna' & e' & Hin & Hty')].
        + split; [done|]. exists e. split; [by left|done].
        + split; [done|]. exists e'. split; [by right|done].
      - intros st Hs. specialize (Hle st Hs). lia.
      - intros e0 t' Hin0 Hty0 Hna0.
        apply elem_of_cons in Hin0 as [->|Hin0]; [|eauto].
        rewrite Hty in Hty0. by injection Hty0 as <-. }
    assert (Hold : forall st r, state = Some st ->
                     errorTypes t <= errorTypes st ->
                     isMaxOf state rest r -> isMaxOf state (e :: rest) r).
    { intros st [r|] -> Hle; simpl; [|by intros [? _]].
      intros (Hin & Hst & Hmax). specialize (Hst st eq_refl).
      split; [|split].
      - destruct Hin as [Hin|(Hna' & e' & Hin & Hty')]; [by left|].
        right. split; [done|]. exists e'. split; [by right|done].
      - intros st' [= <-]. done.
      - intros e0 t' Hin0 Hty0 Hna0.
        apply elem_of_cons in Hin0 as [->|Hin0]; [|eauto].
        rewrite Hty in Hty0. injection Hty0 as <-. lia. }
    destruct state as [st|].
    + destruct (errorTypes t >? errorTypes st) eqn:Hgt.
      * apply Hnew; [by apply IH|]. intros st' [= <-].
        apply Z.gtb_gt in Hgt. lia.
      * apply (Hold st); [done| |by apply IH].
        destruct (Z.gtb_spec (errorTypes t) (errorTypes st)); [discriminate|lia].
    + apply Hnew; [by apply IH|]. intros st' [=].
Qed.

Definition sampleError (t : option ErrorType) (isFatal : bool) : ErrObj :=
  mkErr GenericError "sample" isFatal true true t None None None.

(** The three cases the specification lists for the precedence. *)
Example primary_warning_info :
  getPrimaryErrorType
    [sampleError (Some TWarning) false; sampleError (Some TInfo) false]
  = Some TWarning.
Proof. reflexivity. Qed.

Example primary_fatal_warning :
  getPrimaryErrorType [sampleError (Some TWarning) true] = Some TError.
Proof. reflexivity. Qed.

Example primary_animate_alone :
  getPrimaryErrorType [sampleError (Some TAnimate) false] = None.
Proof. reflexivity. Qed.

(** C4, as stated, fails: a fatal error does not make [getPrimaryErrorType]
    answer the highest severity of the precedence.  The answer is ['error'],
    which ranks below ['upgrade']. *)
Lemma getPrimaryErrorType_fatal_not_highest :
  ~ (forall errors : list ErrObj,
       existsb fatal errors = true ->
       exists t, getPrimaryErrorType errors = Some t /\
                 forall t', errorTypes t' <= errorTypes t).
Proof.
  intros Hclaim.
  destruct (Hclaim [sampleError (Some TWarning) true] eq_refl) as (t & Ht & Hmax).
  injection Ht as <-. specialize (Hmax TUpgrade). simpl in Hmax. lia.
Qed.

(** C4, amended: for every list of parsed errors, [getPrimaryErrorType]
    returns ['error'] if any error of the list is marked fatal (whatever the
    declared types, an ['upgrade'] included); otherwise it returns the
    [errorType] of greatest value under info(1) < warning(2) < error(3) <
    upgrade(4) among the errors that have a type other than ['animate'], and
    [false] when no error has such a type (an empty list, only ['animate']
    entries, entries without a type). *)
Theorem getPrimaryErrorType_correct (errors : list ErrObj) :
  if existsb fatal errors then getPrimaryErrorType errors = Some TError
  else
    match getPrimaryErrorType errors with
    | None => forall e t, e ∈ errors -> errorType e = Some t -> t = TAnimate
    | Some t =>
        t <> TAnimate /\
        (exists e, e ∈ errors /\ errorType e = Some t) /\
        (forall e t', e ∈ errors -> errorType e = Some t' -> t' <> TAnimate ->
                      errorTypes t' <= errorTypes t)
    end.
Proof.
  destruct (existsb fatal errors) eqn:Hf.
  - by apply primaryErrorLoop_fatal.
  - pose proof (primaryErrorLoop_nonfatal errors None Hf) as Hmax.
    unfold getPrimaryErrorType. destruct (primaryErrorLoop errors None) as [t|].
    + destruct Hmax as ([[=]|(Hna & He)] & _ & Hle). auto.
    + by destruct Hmax.
Qed.

Lemma getPrimaryErrorType_correct_witness :
  getPrimaryErrorType
    [sampleError (Some TUpgrade) false; sampleError (Some TWarning) true]
  = Some TError.
Proof.
  exact (getPrimaryErrorType_correct
           [sampleError (Some TUpgrade) false; sampleError (Some TWarning) true]).
Defined.

(** ** The error queue: [addError] and [getErrorsByLibrary] *)

Section AggregatorProperties.

Context {World : Type} `{Collaborators World}.

Implicit Types (s : Runner World) (e : loc).

(** An error that is already marked goes through [addError] untouched. *)
Lemma addError_marked s e lib :
  added (heap s !!! e) = true -> addError e lib s = (Normal tt, s).
Proof.
  intros Hadded. unfold addError, bind, readObj. by rewrite Hadded.
Qed.

(** What [addError] does to an unmarked error, all at once. *)
Definition markedObj (lib : option Z) (o : ErrObj) : ErrObj :=
  mkErr (class o) (message o) (fatal o) true true
    (if parsed o then errorType o else Some (default TError (errorType o)))
    (if truthy lib then lib else libraryID o)
    (dialogButtonText o) (dialogButtonCallback o).

Lemma addError_unmarked s e lib :
  (e < length (heap s))%nat ->
  added (heap s !!! e) = false ->
  addError e lib s =
    (Normal tt,
     set_errors (_errors s ++ [e])
       (set_trace (trace s ++ [EvLogError e])
          (set_heap (<[e := markedObj lib (heap s !!! e)]> (heap s)) s))).
Proof.
  intros Hlt Hadded. destruct s as [ip fs errs st sc h tr w]. simpl in *.
  unfold addError, bind, readObj. simpl. rewrite Hadded.
  unfold updateObj, modify, parseError, emit, modify, bind, readObj, ret,
    push_error, modify. simpl.
  destruct (h !!! e) as [c m f a p t l] eqn:Ho. simpl in *. subst a.
  unfold markedObj. simpl.
  destruct (truthy lib) eqn:Htr; simpl;
    rewrite ?list_lookup_total_insert_eq, ?length_insert by
      (rewrite ?length_insert; assumption);
    simpl; destruct p; simpl;
    rewrite ?list_lookup_total_insert_eq, ?length_insert by
      (rewrite ?length_insert; assumption);
    simpl; unfold set_errors, set_trace, set_heap; simpl;
    rewrite ?list_insert_insert_eq; reflexivity.
Qed.

(** Calling [addError] on the same object once for each entry of [libs]. *)
Fixpoint addErrorTimes (e : loc) (libs : list (option Z)) : M World unit :=
  match libs with
  | [] => ret tt
  | lib :: rest => addError e lib ;;; addErrorTimes e rest
  end.

Lemma addErrorTimes_marked s e libs :
  added (heap s !!! e) = true -> addErrorTimes e libs s = (Normal tt, s).
Proof.
  intros Hadded. induction libs as [|lib rest IH]; simpl; [done|].
  unfold bind. by rewrite addError_marked.
Qed.

(** C5: [addError] on an error object that is already marked [added] is a
    no-op (the whole state is left as it is); and an object that was not
    marked is queued exactly once, however often [addError] is then called
    with it: the first call marks and appends it, every later call finds it
    marked. *)
Theorem addError_dedup s e lib (libs : list (option Z)) :
  (added (heap s !!! e) = true -> addError e lib s = (Normal tt, s)) /\
  ((e < length (heap s))%nat ->
   added (heap s !!! e) = false ->
   let s1 := (addError e lib s).2 in
   added (heap s1 !!! e) = true /\
   _errors s1 = _errors s ++ [e] /\
   addErrorTimes e (lib :: libs) s = (Normal tt, s1)).
Proof.
  split; [apply addError_marked|].
  intros Hlt Hadded. simpl.
  pose proof (addError_unmarked s e lib Hlt Hadded) as Hfirst.
  assert (Hmarked : added (heap (addError e lib s).2 !!! e) = true).
  { rewrite Hfirst. simpl. by rewrite list_lookup_total_insert_eq. }
  split; [assumption|]. split; [by rewrite Hfirst|].
  unfold bind. destruct (addError e lib s) as [r s1] eqn:Hrun. simpl in *.
  injection Hfirst as -> Hs1. rewrite addErrorTimes_marked; [done|].
  exact Hmarked.
Qed.

(** C10: whatever the error and the [libraryID] passed, [addError] sets the
    error's [libraryID] to it only when it is truthy (and the error is not
    yet marked), and otherwise leaves the property as it was.  So an error
    without library context that is added with [libraryID] 0 is queued
    without one, and [getErrorsByLibrary(0)] does not return it. *)
Theorem addError_libraryID_truthy s e (lib : option Z) :
  (e < length (heap s))%nat ->
  let s1 := (addError e lib s).2 in
  libraryID (heap s1 !!! e) =
    (if negb (added (heap s !!! e)) && truthy lib then lib
     else libraryID (heap s !!! e)) /\
  (lib = Some 0 ->
   libraryID (heap s !!! e) = None ->
   (added (heap s !!! e) = false -> e ∈ _errors s1) /\
   libraryID (heap s1 !!! e) = None /\
   e ∉ getErrorsByLibrary (Some 0) s1).
Proof.
  intros Hlt. simpl. destruct (added (heap s !!! e)) eqn:Hadded.
  - rewrite (addError_marked s e lib Hadded). simpl.
    split; [reflexivity|]. intros _ Hnone. split; [done|]. split; [done|].
    unfold getErrorsByLibrary. rewrite list_elem_of_filter. intros [Hlib _].
    congruence.
  - rewrite (addError_unmarked s e lib Hlt Hadded). simpl.
    rewrite list_lookup_total_insert_eq by assumption. simpl.
    split; [reflexivity|]. intros -> Hnone. simpl.
    split; [intros _; apply elem_of_app; right; by left|].
    split; [assumption|].
    unfold getErrorsByLibrary. simpl. rewrite list_elem_of_filter.
    intros [Hlib _]. rewrite list_lookup_total_insert_eq in Hlib by assumption.
    simpl in Hlib. congruence.
Qed.

End AggregatorProperties.


Lemma addError_dedup_witness :
  (oneErrorRunner.(heap) !!! 0%nat).(added) = false /\
  _errors (@addError nat 0%nat None oneErrorRunner).2 = [0%nat] /\
  @addErrorTimes nat 0%nat [None; Some 5; None] oneErrorRunner =
    (Normal tt, (@addError nat 0%nat None oneErrorRunner).2).
Proof.
  split; [reflexivity|].
  destruct (@addError_dedup nat oneErrorRunner 0%nat None
              [Some 5; None]) as [_ Hq].
  destruct Hq as (_ & Hq & Hrest); [simpl; lia|reflexivity|].
  split; [exact Hq|exact Hrest].
Defined.

Lemma addError_libraryID_truthy_witness :
  0%nat ∉ getErrorsByLibrary (Some 0)
    (@addError nat 0%nat (Some 0) oneErrorRunner).2.
Proof.
  destruct (@addError_libraryID_truthy nat oneErrorRunner
              0%nat (Some 0)) as [_ Hzero]; [simpl; lia|].
  destruct (Hzero eq_refl eq_refl) as (_ & _ & Hout). exact Hout.
Defined.

(** ** Reentrancy of [sync] *)


(** C1, as stated, fails: a call of [sync] during a session empties the
    error queue of that session. *)
Lemma sync_reentrant_mutates_errors :
  ~ (forall (options : Options) (s : Runner nat),
       _syncInProgress s = true ->
       _errors (@sync nat (scripted quietScript) 1 options s).2 = _errors s).
Proof.
  intros Hclaim. specialize (Hclaim plainOptions busyRunner eq_refl).
  vm_compute in Hclaim. discriminate.
Qed.

Section Reentrancy.

Context {World : Type} `{Collaborators World}.

(** C1, amended: every call of [sync] made while a session is in progress
    returns [false] and starts nothing: the in-progress flag, the
    first-in-session flag, the cached storage controllers, the error objects
    and the outside world are left as they are, and the options object is
    not touched.  The call does empty the error queue (the queue is cleared
    before the guard is looked at) and, through the icon update that reports
    the rejection, resets the status message. *)
Theorem sync_reentrant (fuel : nat) (options : Options) (s : Runner World) :
  _syncInProgress s = true ->
  sync (S fuel) options s =
    (Normal (Some (ReturnFalse, options)),
     mkRunner true (_firstInSession s) [] None (_storageControllers s)
       (heap s)
       (trace s ++ [EvUpdateIcons None
                      [newZoteroError "sync.error.syncInProgress" 0]])
       (world s)).
Proof.
  intros Hbusy. destruct s as [ip fs errs st sc h tr w]. simpl in Hbusy.
  subst ip. reflexivity.
Qed.

End Reentrancy.

Lemma sync_reentrant_witness :
  (@sync nat (scripted quietScript) 1 plainOptions busyRunner).1
  = Normal (Some (ReturnFalse, plainOptions)).
Proof.
  rewrite (@sync_reentrant nat (scripted quietScript) 0 plainOptions busyRunner eq_refl).
  reflexivity.
Defined.

(** ** What a computation leaves alone

    Every operation of the runner only appends to the trace, and only adds
    objects to the store or rewrites properties of those that are there:
    the bookkeeping ([added], [parsed], [errorType], [libraryID]) and what
    [checkError] attaches ([message], [dialogButtonText],
    [dialogButtonCallback]).  The class of an object and its [fatal] mark
    never change. *)

Definition heapExtends (h h' : list ErrObj) : Prop :=
  (length h <= length h')%nat /\
  forall e, (e < length h)%nat ->
    class (h' !!! e) = class (h !!! e) /\ fatal (h' !!! e) = fatal (h !!! e).

Lemma heapExtends_refl h : heapExtends h h.
Proof. split; [lia|auto]. Qed.

Lemma heapExtends_trans h1 h2 h3 :
  heapExtends h1 h2 -> heapExtends h2 h3 -> heapExtends h1 h3.
Proof.
  intros [L12 S12] [L23 S23]. split; [lia|].
  intros e He. destruct (S12 e He) as [<- <-]. apply S23. lia.
Qed.

Lemma heapExtends_app h o : heapExtends h (h ++ [o]).
Proof.
  split; [rewrite length_app; lia|].
  intros e He. by rewrite lookup_total_app_l.
Qed.

Lemma heapExtends_insert h e f :
  (forall o, class (f o) = class o /\ fatal (f o) = fatal o) ->
  heapExtends h (<[e := f (h !!! e)]> h).
Proof.
  intros Hf. split; [by rewrite length_insert|].
  intros e' He'. destruct (decide (e = e')) as [->|Hne].
  - rewrite list_lookup_total_insert_eq by assumption. apply Hf.
  - by rewrite list_lookup_total_insert_ne.
Qed.

Section Frame.

Context {World : Type} `{Collaborators World}.

(** [frames Q m]: running [m] appends events that all satisfy [Q], and
    extends the store. *)
Definition frames {A} (Q : Event -> Prop) (m : M World A) : Prop :=
  forall s,
    (exists evs, trace (m s).2 = trace s ++ evs /\ Forall Q evs) /\
    heapExtends (heap s) (heap (m s).2).

Lemma frames_quiet {A} Q (m : M World A) :
  (forall s, trace (m s).2 = trace s /\ heap (m s).2 = heap s) ->
  frames Q m.
Proof.
  intros Hm s. destruct (Hm s) as [Ht Hh]. split.
  - exists []. by rewrite app_nil_r.
  - rewrite Hh. apply heapExtends_refl.
Qed.

Lemma frames_ret {A} Q (a : A) : frames Q (ret a).
Proof. by apply frames_quiet. Qed.

Lemma frames_throw {A} Q e : frames Q (@throw World A e).
Proof. by apply frames_quiet. Qed.

Lemma frames_get Q : frames Q (@get World).
Proof. by apply frames_quiet. Qed.

Lemma frames_readObj Q e : frames Q (@readObj World e).
Proof. by apply frames_quiet. Qed.

Lemma frames_ask {A} Q (f : World -> A) : frames Q (ask f).
Proof. by apply frames_quiet. Qed.

Lemma frames_call {A} Q (f : World -> A * World) : frames Q (call f).
Proof.
  apply frames_quiet. intros s. unfold call. by destruct (f (world s)).
Qed.

Lemma frames_act Q (f : World -> World) : frames Q (act f).
Proof. by apply frames_quiet. Qed.

Lemma frames_setSyncStatus Q msg : frames Q (@setSyncStatus World msg).
Proof. by apply frames_quiet. Qed.

Lemma frames_push_error Q e : frames Q (@push_error World e).
Proof. by apply frames_quiet. Qed.

Lemma frames_set_errors Q l : frames Q (@modify World (set_errors l)).
Proof. by apply frames_quiet. Qed.

Lemma frames_set_syncInProgress Q b :
  frames Q (@modify World (set_syncInProgress b)).
Proof. by apply frames_quiet. Qed.

Lemma frames_set_firstInSessionFlag Q b :
  frames Q (@modify World (set_firstInSessionFlag b)).
Proof. by apply frames_quiet. Qed.

Lemma frames_emit (Q : Event -> Prop) ev : Q ev -> frames Q (@emit World ev).
Proof.
  intros HQ s. split; [|apply heapExtends_refl].
  exists [ev]. split; [reflexivity|]. by constructor.
Qed.

Lemma frames_alloc Q o : frames Q (@alloc World o).
Proof.
  intros s. split; [|apply heapExtends_app].
  exists []. by rewrite app_nil_r.
Qed.

Lemma frames_updateObj Q e f :
  (forall o, class (f o) = class o /\ fatal (f o) = fatal o) ->
  frames Q (@updateObj World e f).
Proof.
  intros Hf s. split; [|by apply heapExtends_insert].
  exists []. by rewrite app_nil_r.
Qed.

Lemma frames_bind {A B} Q (m : M World A) (k : A -> M World B) :
  frames Q m -> (forall a, frames Q (k a)) -> frames Q (bind m k).
Proof.
  intros Hm Hk s. unfold bind.
  destruct (Hm s) as [(evs1 & Ht1 & HQ1) Hh1].
  destruct (m s) as [[a|e] s1]; simpl in *.
  - destruct (Hk a s1) as [(evs2 & Ht2 & HQ2) Hh2]. split.
    + exists (evs1 ++ evs2). rewrite Ht2, Ht1, app_assoc. split; [done|].
      by apply Forall_app.
    + by eapply heapExtends_trans.
  - split; [by exists evs1|assumption].
Qed.

Lemma frames_tryCatch {A} Q (m : M World A) (handler : loc -> M World A) :
  frames Q m -> (forall e, frames Q (handler e)) -> frames Q (tryCatch m handler).
Proof.
  intros Hm Hh s. unfold tryCatch.
  destruct (Hm s) as [(evs1 & Ht1 & HQ1) Hh1].
  destruct (m s) as [[a|e] s1]; simpl in *.
  - split; [by exists evs1|assumption].
  - destruct (Hh e s1) as [(evs2 & Ht2 & HQ2) Hh2]. split.
    + exists (evs1 ++ evs2). rewrite Ht2, Ht1, app_assoc. split; [done|].
      by apply Forall_app.
    + by eapply heapExtends_trans.
Qed.

Lemma frames_mono {A} (Q Q' : Event -> Prop) (m : M World A) :
  (forall ev, Q ev -> Q' ev) -> frames Q m -> frames Q' m.
Proof.
  intros HQ Hm s. destruct (Hm s) as [(evs & Ht & Hall) Hh].
  split; [|assumption]. exists evs. split; [assumption|].
  by eapply Forall_impl.
Qed.

End Frame.

(** Chains the rules above through a computation, splitting on the
    conditionals it meets. *)
Ltac frames_step :=
  match goal with
  | |- frames _ (bind _ _) => apply frames_bind; [|intros ?]
  | |- frames _ (tryCatch _ _) => apply frames_tryCatch; [|intros ?]
  | |- frames _ (ret _) => apply frames_ret
  | |- frames _ (throw _) => apply frames_throw
  | |- frames _ (throwNew _) => unfold throwNew
  | |- frames _ (await _) => unfold await
  | |- frames _ get => apply frames_get
  | |- frames _ (readObj _) => apply frames_readObj
  | |- frames _ (ask _) => apply frames_ask
  | |- frames _ (call _) => apply frames_call
  | |- frames _ (act _) => apply frames_act
  | |- frames _ (alloc _) => apply frames_alloc
  | |- frames _ (setSyncStatus _) => apply frames_setSyncStatus
  | |- frames _ (push_error _) => apply frames_push_error
  | |- frames _ (modify (set_errors _)) => apply frames_set_errors
  | |- frames _ (modify (set_syncInProgress _)) => apply frames_set_syncInProgress
  | |- frames _ (modify (set_firstInSessionFlag _)) =>
      apply frames_set_firstInSessionFlag
  | |- frames _ (updateObj _ _) => apply frames_updateObj; intros []; done
  | |- frames _ (emit _) => apply frames_emit; simpl; try done
  | |- frames _ (if ?b then _ else _) => destruct b
  | |- frames _ (match ?x with _ => _ end) => destruct x
  | |- frames _ (let '(_, _) := ?x in _) => destruct x
  end.

Ltac frames_auto := repeat frames_step.

(** ** The shared shape of the phase runners *)

(** The events of the [catch] blocks. *)
Definition isReport (ev : Event) : Prop :=
  match ev with
  | EvLogError _ | EvCheckError _ | EvSinkError _ | EvCallerStop => True
  | _ => False
  end.

(** The events of one phase: its engine runs and its reports. *)
Definition isPhaseWork (p : Phase) (ev : Event) : Prop :=
  match ev with
  | EvEngineStart p' _ | EvEngineEnd p' _ _ => p' = p
  | _ => isReport ev
  end.

Lemma isReport_isPhaseWork p ev : isReport ev -> isPhaseWork p ev.
Proof. by destruct ev. Qed.

Section PhaseSteps.

Context {World : Type} `{Collaborators World}.

Implicit Types (s : Runner World) (e : loc) (options : EngineOptions).

(** The state after an engine run: the world has moved on, the rejection
    (if any) is in the store, the run is in the trace. *)
Definition afterRun s (w : World) (new : list ErrObj) (evs : list Event)
  : Runner World :=
  mkRunner (_syncInProgress s) (_firstInSession s) (_errors s)
    (_lastSyncStatus s) (_storageControllers s)
    (heap s ++ new) (trace s ++ evs) w.

Lemma startEngine_resolved {A} p lib (run : World -> EngineOutcome A * World)
    s a w :
  run (world s) = (Resolved a, w) ->
  startEngine p lib run s =
    (Normal a, afterRun s w [] [EvEngineStart p lib; EvEngineEnd p lib None]).
Proof.
  intros Hrun. destruct s as [ip fs errs st sc h tr w0]. simpl in Hrun.
  unfold startEngine, bind, emit, modify, call, afterRun. simpl.
  rewrite Hrun. simpl. by rewrite <- app_assoc, app_nil_r.
Qed.

Lemma startEngine_rejected {A} p lib (run : World -> EngineOutcome A * World)
    s o w :
  run (world s) = (Rejected o, w) ->
  startEngine p lib run s =
    (Thrown (length (heap s)),
     afterRun s w [o]
       [EvEngineStart p lib; EvEngineEnd p lib (Some (length (heap s), o))]).
Proof.
  intros Hrun. destruct s as [ip fs errs st sc h tr w0]. simpl in Hrun.
  unfold startEngine, bind, emit, modify, call, afterRun. simpl.
  rewrite Hrun. simpl. by rewrite <- app_assoc.
Qed.

Lemma afterRun_new s w o evs :
  heap (afterRun s w [o] evs) !!! length (heap s) = o.
Proof. simpl. by rewrite list_lookup_total_middle. Qed.

(** *** The classify / queue / halt rule *)

(** What [checkError] leaves of an object: the remediation it attaches. *)
Definition checkedObj (o : ErrObj) : ErrObj :=
  match class o with
  | ZoteroError code =>
      if (code =? ERROR_API_KEY_NOT_SET) || (code =? ERROR_API_KEY_INVALID)
      then
        set_dialogButtonCallback (Some OpenSyncPreferences)
          (set_dialogButtonText (Some "sync.openSyncPreferences")
             (set_message "sync.error.invalidLogin.text" o))
      else o
  | ZoteroObjectUploadError code tag =>
      if (code =? 413) && tag then
        set_dialogButtonCallback (Some LongTagFixer)
          (set_dialogButtonText (Some "general.fix") o)
      else o
  | _ => o
  end.

(** The events of a report of [e], and the state it leaves: the object has
    been classified by [checkError] and then, unless the caller has a sink
    or the object was marked already, marked and queued by [addError]. *)
Definition reportEvents options (o : ErrObj) e : list Event :=
  [EvLogError e; EvCheckError e] ++
  (if eo_sink options then [EvSinkError e]
   else if added o then [] else [EvLogError e]) ++
  (if stopOnError || fatal o then [EvCallerStop] else []).

Definition queues options (o : ErrObj) : bool :=
  negb (eo_sink options) && negb (added o).

Definition afterReport options e s : Runner World :=
  let o := heap s !!! e in
  mkRunner (_syncInProgress s) (_firstInSession s)
    (if queues options o then _errors s ++ [e] else _errors s)
    (_lastSyncStatus s) (_storageControllers s)
    (<[e := if queues options o then markedObj None (checkedObj o)
            else checkedObj o]> (heap s))
    (trace s ++ reportEvents options o e) (world s).

(** Whether [checkError] attaches the fixer of long tags. *)
Definition fixable (o : ErrObj) : bool :=
  match class o with
  | ZoteroObjectUploadError code tag => (code =? 413) && tag
  | _ => false
  end.

Lemma checkedObj_class o : class (checkedObj o) = class o.
Proof.
  unfold checkedObj. destruct (class o) eqn:Hc; try done;
    by destruct (_ && _) || destruct (_ || _).
Qed.

Lemma checkedObj_fatal o : fatal (checkedObj o) = fatal o.
Proof.
  unfold checkedObj. destruct (class o); try done;
    by destruct (_ && _) || destruct (_ || _).
Qed.

Lemma checkedObj_added o : added (checkedObj o) = added o.
Proof.
  unfold checkedObj. destruct (class o); try done;
    by destruct (_ && _) || destruct (_ || _).
Qed.

Lemma checkedObj_parsed o : parsed (checkedObj o) = parsed o.
Proof.
  unfold checkedObj. destruct (class o); try done;
    by destruct (_ && _) || destruct (_ || _).
Qed.

Lemma checkedObj_errorType o : errorType (checkedObj o) = errorType o.
Proof.
  unfold checkedObj. destruct (class o); try done;
    by destruct (_ && _) || destruct (_ || _).
Qed.

Lemma checkedObj_libraryID o : libraryID (checkedObj o) = libraryID o.
Proof.
  unfold checkedObj. destruct (class o); try done;
    by destruct (_ && _) || destruct (_ || _).
Qed.

(** Classifying twice is classifying once. *)
Lemma checkedObj_idemp o : checkedObj (checkedObj o) = checkedObj o.
Proof.
  unfold checkedObj at 1. rewrite checkedObj_class.
  destruct o as [c m f a p t l bt bc]. unfold checkedObj. simpl.
  destruct c; try done; by destruct (_ && _) || destruct (_ || _).
Qed.

(** The state after [checkError] has looked at [e], the fixer apart. *)
Definition afterCheck e s : Runner World :=
  set_trace (trace s ++ [EvCheckError e])
    (set_heap (<[e := checkedObj (heap s !!! e)]> (heap s)) s).

(** An address that is not in the store reads as the object without
    properties, which [checkError] leaves alone. *)
Lemma insert_checkedObj_lookup (h : list ErrObj) e :
  <[e := checkedObj (h !!! e)]> h !!! e = checkedObj (h !!! e).
Proof.
  destruct (decide (e < length h)%nat) as [Hlt|Hge].
  - by rewrite list_lookup_total_insert_eq.
  - rewrite list_insert_ge by lia.
    rewrite list_lookup_total_alt, lookup_ge_None_2 by lia. reflexivity.
Qed.

(** [checkError], all at once. *)
Lemma checkError_spec e (options : option Options) s :
  checkError e options s =
    let o := checkedObj (heap s !!! e) in
    let s1 := afterCheck e s in
    match options with
    | Some options' =>
        if fixable o && negb (background options') then
          match libraries options' with
          | None =>
              (Thrown (length (heap s1)),
               set_heap (heap s1 ++ [librariesUndefined]) s1)
          | Some _ =>
              let '(restart, w) := checkError_restart o options' (world s) in
              (Normal (Some (if restart then set_restartSync true options'
                             else options')),
               set_world w s1)
          end
        else (Normal options, s1)
    | None => (Normal None, s1)
    end.
Proof.
  cbv zeta. unfold checkError, afterCheck, fixable.
  rewrite checkedObj_class. unfold checkedObj.
  unfold bind at 1. unfold emit at 1, modify at 1.
  unfold bind at 1. unfold readObj at 1.
  destruct s as [ip fs errs st sc h tr w]. simpl.
  assert (Hid : <[e := h !!! e]> h = h).
  { destruct (decide (e < length h)%nat) as [Hlt|Hge].
    - apply list_insert_id. by apply list_lookup_lookup_total_lt.
    - apply list_insert_ge. lia. }
  assert (Hin : class (h !!! e) <> GenericError -> (e < length h)%nat).
  { intros Hc. destruct (decide (e < length h)%nat) as [Hlt|Hge]; [done|].
    exfalso. apply Hc.
    rewrite list_lookup_total_alt, lookup_ge_None_2 by lia. reflexivity. }
  destruct (h !!! e) as [c m f a p t l bt bc] eqn:Ho. simpl in *.
  destruct c as [|code| | | |code tag]; simpl;
    try (rewrite Hid; by destruct options).
  - destruct (_ || _); [|rewrite Hid; by destruct options].
    assert (Hlt : (e < length h)%nat) by (by apply Hin).
    unfold bind, updateObj, modify, ret. simpl.
    rewrite Ho. simpl.
    rewrite !list_lookup_total_insert_eq by (rewrite ?length_insert; lia).
    simpl. rewrite !list_insert_insert_eq. by destruct options.
  - destruct (_ && _); [|rewrite Hid; by destruct options].
    assert (Hlt : (e < length h)%nat) by (by apply Hin).
    unfold bind at 1. unfold updateObj at 1, modify at 1. simpl.
    unfold bind at 1. unfold updateObj at 1, modify at 1. simpl.
    rewrite Ho. simpl.
    rewrite !list_lookup_total_insert_eq by (rewrite ?length_insert; lia).
    simpl. rewrite !list_insert_insert_eq.
    destruct options as [options|]; [|done].
    destruct (background options); simpl; [done|].
    destruct (libraries options) as [libs|]; [|done].
    unfold bind, readObj, call. simpl.
    rewrite list_lookup_total_insert_eq by lia.
    by destruct (checkError_restart _ options w) as [restart w'].
Qed.

(** Called as the phase runners call it, [checkError] leaves the object
    classified and nothing else. *)
Lemma checkError_None e s :
  checkError e None s = (Normal None, afterCheck e s).
Proof. by rewrite checkError_spec. Qed.

Lemma reportAndDecide_spec {A} options e (acc : A) s :
  (e < length (heap s))%nat ->
  reportAndDecide options e acc s =
    (Normal (if stopOnError || fatal (heap s !!! e) then Stop else Next, acc),
     afterReport options e s).
Proof.
  intros Hlt. unfold reportAndDecide, afterReport, reportEvents, queues.
  unfold bind at 1. unfold emit at 1, modify at 1.
  unfold bind at 1. rewrite checkError_None.
  unfold bind at 1. unfold engine_onError, afterCheck.
  destruct (eo_sink options); simpl.
  - destruct s as [ip fs errs st sc h tr w]. simpl in *.
    unfold emit, modify, bind, readObj. simpl.
    rewrite list_lookup_total_insert_eq by assumption.
    rewrite checkedObj_fatal.
    destruct (fatal (h !!! e)); simpl;
      by rewrite <- !app_assoc.
  - destruct (added (heap s !!! e)) eqn:Hadded.
    + rewrite addError_marked
        by (simpl; rewrite list_lookup_total_insert_eq by assumption;
            by rewrite checkedObj_added).
      destruct s as [ip fs errs st sc h tr w]. simpl in *.
      unfold emit, modify, bind, readObj. simpl.
      rewrite list_lookup_total_insert_eq by assumption.
      rewrite checkedObj_fatal.
      destruct (fatal (h !!! e)); simpl; by rewrite <- !app_assoc.
    + rewrite addError_unmarked
        by (simpl; rewrite ?length_insert, ?list_lookup_total_insert_eq
              by assumption; by rewrite ?checkedObj_added).
      destruct s as [ip fs errs st sc h tr w]. simpl in *.
      unfold emit, modify, bind, readObj. simpl.
      rewrite !list_lookup_total_insert_eq
        by (rewrite ?length_insert; assumption).
      rewrite list_insert_insert_eq. simpl. rewrite checkedObj_fatal.
      destruct (fatal (h !!! e)); simpl; by rewrite <- !app_assoc.
Qed.

Lemma afterReport_heapExtends options e s :
  heapExtends (heap s) (heap (afterReport options e s)).
Proof.
  unfold afterReport. simpl.
  apply (heapExtends_insert _ e
           (fun o => if queues options o then markedObj None (checkedObj o)
                     else checkedObj o)).
  intros o. destruct (queues options o); simpl;
    by rewrite checkedObj_class, checkedObj_fatal.
Qed.

Lemma afterReport_length options e s :
  length (heap (afterReport options e s)) = length (heap s).
Proof. unfold afterReport. simpl. by rewrite length_insert. Qed.

Lemma frames_addError e lib : frames isReport (@addError World e lib).
Proof. unfold addError, parseError. frames_auto. Qed.

Lemma frames_reportAndDecide {A} options e (acc : A) :
  frames isReport (reportAndDecide options e acc).
Proof.
  unfold reportAndDecide, checkError, engine_onError.
  frames_auto; apply frames_addError.
Qed.

End PhaseSteps.

(** ** Data phase *)

(** The libraries whose engine of phase [p] ran to completion, as the trace
    shows them. *)
Definition resolvedIn (p : Phase) (evs : list Event) : list LibraryID :=
  omap (fun ev =>
          match ev with
          | EvEngineEnd p' l None => if decide (p' = p) then Some l else None
          | _ => None
          end) evs.

Lemma resolvedIn_app p evs1 evs2 :
  resolvedIn p (evs1 ++ evs2) = resolvedIn p evs1 ++ resolvedIn p evs2.
Proof. apply omap_app. Qed.

Lemma resolvedIn_reports p evs : Forall isReport evs -> resolvedIn p evs = [].
Proof.
  induction 1 as [|ev evs Hev _ IH]; [done|].
  destruct ev; simpl in Hev; try done; exact IH.
Qed.

Lemma resolvedIn_elem p l evs :
  l ∈ resolvedIn p evs <-> EvEngineEnd p l None ∈ evs.
Proof.
  unfold resolvedIn. rewrite list_elem_of_omap. split.
  - intros (ev & Hin & Hev). destruct ev; try discriminate.
    destruct rejection; [discriminate|]. case_decide; [|discriminate].
    injection Hev as ->. by subst.
  - intros Hin. eexists. split; [exact Hin|]. simpl. by rewrite decide_True.
Qed.

Lemma reportEvents_isReport options o e :
  Forall isReport (reportEvents options o e).
Proof.
  unfold reportEvents.
  destruct (eo_sink options), (added o), (stopOnError || fatal o);
    repeat constructor.
Qed.

Lemma not_elem_of_reports ev evs : Forall isReport evs -> ~ isReport ev -> ev ∉ evs.
Proof. intros Hall Hev Hin. eapply Hev, Forall_forall; eauto. Qed.

Section DataPhase.

Context {World : Type} `{Collaborators World}.

Implicit Types (s : Runner World) (e : loc) (options : EngineOptions).

Lemma dataSyncStep_resolved options lib acc s w :
  dataEngine_start lib (world s) = (Resolved tt, w) ->
  dataSyncStep options lib acc s =
    (Normal (Next, acc ++ [lib]),
     afterRun s w [] [EvEngineStart DataPhase lib; EvEngineEnd DataPhase lib None]).
Proof.
  intros Hrun. unfold dataSyncStep, tryCatch, bind, startDataEngine.
  by rewrite (startEngine_resolved _ _ _ _ _ _ Hrun).
Qed.

Lemma dataSyncStep_rejected options lib acc s o w :
  dataEngine_start lib (world s) = (Rejected o, w) ->
  let e := length (heap s) in
  let s1 := afterRun s w [o]
              [EvEngineStart DataPhase lib;
               EvEngineEnd DataPhase lib (Some (e, o))] in
  dataSyncStep options lib acc s =
    match class o with
    | UserCancelledException advance =>
        if advance then (Normal (Next, acc), s1) else (Thrown e, s1)
    | _ =>
        (Normal (if stopOnError || fatal o then Stop else Next, acc),
         afterReport options e s1)
    end.
Proof.
  intros Hrun e s1. unfold dataSyncStep, tryCatch, bind, startDataEngine.
  rewrite (startEngine_rejected _ _ _ _ _ _ Hrun). fold e. fold s1.
  unfold dataSyncCatch, bind, readObj.
  assert (Ho : heap s1 !!! e = o) by apply afterRun_new.
  assert (He : (e < length (heap s1))%nat).
  { unfold s1, e. simpl. rewrite length_app. simpl. lia. }
  rewrite Ho.
  destruct (class o) as [| |[]| | |];
    try (rewrite reportAndDecide_spec by exact He; by rewrite Ho);
    reflexivity.
Qed.

(** One turn of the loop, summed up. *)
Lemma dataSyncStep_summary options lib acc s :
  let r := dataSyncStep options lib acc s in
  exists evs,
    trace r.2 = trace s ++ evs /\
    Forall (isPhaseWork DataPhase) evs /\
    heapExtends (heap s) (heap r.2) /\
    match r.1 with
    | Normal (_, successful) => successful = acc ++ resolvedIn DataPhase evs
    | Thrown e =>
        (e < length (heap r.2))%nat /\
        class (heap r.2 !!! e) = UserCancelledException false
    end.
Proof.
  simpl. destruct (dataEngine_start lib (world s)) as [[[]|o] w] eqn:Hrun.
  - rewrite (dataSyncStep_resolved _ _ _ _ _ Hrun). simpl.
    eexists. split; [reflexivity|]. split; [by repeat constructor|].
    split; [rewrite app_nil_r; apply heapExtends_refl|].
    reflexivity.
  - rewrite (dataSyncStep_rejected _ _ _ _ _ _ Hrun).
    set (e := length (heap s)).
    set (s1 := afterRun s w [o] _).
    assert (Ho : heap s1 !!! e = o) by apply afterRun_new.
    assert (Hext : heapExtends (heap s) (heap s1)) by apply heapExtends_app.
    assert (Hreport :
      exists evs,
        trace (afterReport options e s1) = trace s ++ evs /\
        Forall (isPhaseWork DataPhase) evs /\
        heapExtends (heap s) (heap (afterReport options e s1)) /\
        acc = acc ++ resolvedIn DataPhase evs).
    { eexists. split; [simpl; rewrite <- app_assoc; reflexivity|].
      pose proof (reportEvents_isReport options (heap s1 !!! e) e) as Hrep.
      split; [|split].
      - apply Forall_app. split; [by repeat constructor|].
        eapply Forall_impl; [exact Hrep|]. apply isReport_isPhaseWork.
      - eapply heapExtends_trans; [exact Hext|].
        apply afterReport_heapExtends.
      - rewrite resolvedIn_app, (resolvedIn_reports _ _ Hrep).
        unfold resolvedIn. simpl. by rewrite !app_nil_r. }
    destruct (class o) as [| |[]| | |] eqn:Hclass; simpl; try exact Hreport.
    + eexists. split; [reflexivity|]. split; [by repeat constructor|].
      split; [exact Hext|]. unfold resolvedIn. simpl. by rewrite app_nil_r.
    + eexists. split; [reflexivity|]. split; [by repeat constructor|].
      split; [exact Hext|]. split.
      * rewrite length_app. simpl. unfold e. lia.
      * change (class (heap s1 !!! e) = UserCancelledException false).
        by rewrite Ho.
Qed.

Lemma dataSyncLoop_summary options libs acc s :
  let r := dataSyncLoop options libs acc s in
  exists evs,
    trace r.2 = trace s ++ evs /\
    Forall (isPhaseWork DataPhase) evs /\
    heapExtends (heap s) (heap r.2) /\
    match r.1 with
    | Normal successful => successful = acc ++ resolvedIn DataPhase evs
    | Thrown e =>
        (e < length (heap r.2))%nat /\
        class (heap r.2 !!! e) = UserCancelledException false
    end.
Proof.
  revert acc s. induction libs as [|lib rest IH]; intros acc s; simpl.
  - exists []. rewrite !app_nil_r. split; [done|]. split; [constructor|].
    split; [apply heapExtends_refl|done].
  - unfold bind.
    destruct (dataSyncStep_summary options lib acc s)
      as (evs1 & Ht1 & HQ1 & Hh1 & Hr1).
    destruct (dataSyncStep options lib acc s) as [[[c acc1]|e] s1]; simpl in *.
    + destruct c.
      * destruct (IH acc1 s1) as (evs2 & Ht2 & HQ2 & Hh2 & Hr2).
        exists (evs1 ++ evs2). rewrite Ht2, Ht1, app_assoc.
        split; [done|]. split; [by apply Forall_app|].
        split; [by eapply heapExtends_trans|].
        destruct (dataSyncLoop options rest acc1 s1) as [[succ|e] s2];
          simpl in *; [|done].
        by rewrite Hr2, Hr1, resolvedIn_app, app_assoc.
      * exists evs1. simpl. repeat (split; [assumption|]). assumption.
    + exists evs1. repeat (split; [assumption|]). assumption.
Qed.

End DataPhase.


(** C9, as stated, fails: when the pass is cut short by a cancellation, the
    last-sync time is not refreshed although the input was not empty and a
    library's data engine had completed. *)
Lemma doDataSync_cancelled_keeps_lastSyncTime :
  ~ (forall (libs : list LibraryID) (options : EngineOptions) (s : Runner nat),
       let r := @_doDataSync nat (scripted cancelScript) libs options s in
       exists evs,
         trace r.2 = trace s ++ evs /\
         (EvUpdateLastSyncTime ∈ evs <->
          libs = [] \/ exists l, EvEngineEnd DataPhase l None ∈ evs)).
Proof.
  intros Hclaim.
  destruct (Hclaim [1; 2] plainEngineOptions (initialRunner 0%nat))
    as (evs & Htrace & Hiff).
  vm_compute in Htrace. subst evs.
  assert (Hin : EvUpdateLastSyncTime ∈
                  [EvEngineStart DataPhase 1; EvEngineEnd DataPhase 1 None;
                   EvEngineStart DataPhase 2;
                   EvEngineEnd DataPhase 2
                     (Some (0%nat,
                            mkErr (UserCancelledException false) "cancelled"
                              false false false None None None None))]).
  { apply Hiff. right. exists 1. apply elem_of_cons. right. by left. }
  repeat (apply elem_of_cons in Hin as [Hin|Hin]; [discriminate|]).
  by apply elem_of_nil in Hin.
Qed.

Section DataPhaseTime.

Context {World : Type} `{Collaborators World}.

Lemma doDataSync_unfold (libs : list LibraryID) (options : EngineOptions)
    (s : Runner World) :
  _doDataSync libs options s =
    match dataSyncLoop options libs [] s with
    | (Normal successful, s1) =>
        (Normal successful,
         set_trace
           (trace s1 ++
            (if negb (nonEmpty libs) || nonEmpty successful
             then [EvUpdateLastSyncTime] else []) ++
            [EvPhaseDone DataPhase libs successful]) s1)
    | (Thrown e, s1) => (Thrown e, s1)
    end.
Proof.
  unfold _doDataSync, bind.
  destruct (dataSyncLoop options libs [] s) as [[successful|e] s1]; [|done].
  destruct s1 as [ip fs errs st sc h tr w].
  destruct (negb (nonEmpty libs) || nonEmpty successful);
    unfold emit, modify, ret, set_trace; simpl;
    by rewrite <- ?app_assoc.
Qed.

(** C9, amended: a Data-phase pass that returns refreshes the last-sync
    time if and only if the input list was empty or the data engine of at
    least one library completed; the libraries it returns are exactly those
    whose engine completed.  A pass that is cut short by a cancellation
    without the advance-to-next-library flag rethrows it and does not
    refresh the time, whatever completed before. *)
Theorem doDataSync_lastSyncTime (libs : list LibraryID)
    (options : EngineOptions) (s : Runner World) :
  let r := _doDataSync libs options s in
  exists evs,
    trace r.2 = trace s ++ evs /\
    match r.1 with
    | Normal successful =>
        successful = resolvedIn DataPhase evs /\
        (EvUpdateLastSyncTime ∈ evs <->
         libs = [] \/ exists l, EvEngineEnd DataPhase l None ∈ evs)
    | Thrown e =>
        class (heap r.2 !!! e) = UserCancelledException false /\
        EvUpdateLastSyncTime ∉ evs
    end.
Proof.
  simpl. rewrite doDataSync_unfold.
  destruct (dataSyncLoop_summary options libs [] s)
    as (evs1 & Ht1 & HQ1 & _ & Hr1).
  assert (Hnot1 : EvUpdateLastSyncTime ∉ evs1).
  { intros Hin. by apply (proj1 (Forall_forall _ _) HQ1) in Hin. }
  destruct (dataSyncLoop options libs [] s) as [[successful|e] s1];
    simpl in *.
  - set (cond := negb (nonEmpty libs) || nonEmpty successful).
    exists (evs1 ++ (if cond then [EvUpdateLastSyncTime] else [])
              ++ [EvPhaseDone DataPhase libs successful]).
    split; [by rewrite Ht1, <- app_assoc|].
    assert (Hres : successful =
              resolvedIn DataPhase
                (evs1 ++ (if cond then [EvUpdateLastSyncTime] else [])
                   ++ [EvPhaseDone DataPhase libs successful])).
    { rewrite !resolvedIn_app, Hr1. destruct cond; simpl;
        by rewrite ?app_nil_r. }
    split; [exact Hres|].
    assert (Hcond : cond = true <->
              libs = [] \/ exists l, l ∈ successful).
    { unfold cond. rewrite orb_true_iff. split.
      - intros [Hl|Hs].
        + left. by destruct libs.
        + right. destruct successful as [|l ?]; [discriminate|].
          exists l. by left.
      - intros [->|[l Hl]]; [by left|right].
        destruct successful; [by apply elem_of_nil in Hl|done]. }
    assert (Hends : (exists l, l ∈ successful) <->
              exists l, EvEngineEnd DataPhase l None ∈
                evs1 ++ (if cond then [EvUpdateLastSyncTime] else [])
                  ++ [EvPhaseDone DataPhase libs successful]).
    { split; intros [l Hl]; exists l.
      - apply resolvedIn_elem. by rewrite <- Hres.
      - apply resolvedIn_elem in Hl. by rewrite <- Hres in Hl. }
    rewrite <- Hends, <- Hcond.
    destruct cond; simpl.
    + split; [done|]. intros _. apply elem_of_app. right. by left.
    + split; [|done]. intros Hin.
      apply elem_of_app in Hin as [Hin|Hin]; [done|].
      apply elem_of_cons in Hin as [Hin|Hin]; [discriminate|].
      by apply elem_of_nil in Hin.
  - exists evs1. split; [assumption|]. split; [apply Hr1|assumption].
Qed.

End DataPhaseTime.

Lemma doDataSync_lastSyncTime_witness :
  let r := @_doDataSync nat (scripted cancelScript) [1; 3] plainEngineOptions
             (initialRunner 0%nat) in
  r.1 = Normal [1; 3] /\ EvUpdateLastSyncTime ∈ trace r.2.
Proof.
  destruct (@doDataSync_lastSyncTime nat (scripted cancelScript) [1; 3]
              plainEngineOptions (initialRunner 0%nat)) as (evs & Htrace & Hr).
  split; [reflexivity|].
  rewrite Htrace. apply elem_of_app. right.
  vm_compute in Htrace. subst evs.
  apply list_elem_of_In. simpl. repeat first [left; reflexivity | right].
Defined.

(** ** Full-text phase *)

(** The rejection is an unexpected-status exception with status 412. *)
Definition is412 (o : ErrObj) : bool :=
  match class o with
  | UnexpectedStatusException status => status =? 412
  | _ => false
  end.

(** The error object an event is about. *)
Definition eventAddr (ev : Event) : option nat :=
  match ev with
  | EvLogError e | EvCheckError e | EvSinkError e => Some e
  | EvEngineEnd _ _ (Some (e, _)) => Some e
  | _ => None
  end.

Definition addrWithin (lo hi : nat) (ev : Event) : Prop :=
  match eventAddr ev with
  | Some e => (lo <= e < hi)%nat
  | None => True
  end.

Lemma addrWithin_widen lo hi lo' hi' ev :
  (lo' <= lo)%nat -> (hi <= hi')%nat -> addrWithin lo hi ev -> addrWithin lo' hi' ev.
Proof. unfold addrWithin. destruct (eventAddr ev); [lia|done]. Qed.

Lemma addrWithin_elem lo hi evs ev e :
  Forall (addrWithin lo hi) evs -> ev ∈ evs -> eventAddr ev = Some e ->
  (lo <= e < hi)%nat.
Proof.
  intros Hall Hin Haddr. apply (proj1 (Forall_forall _ _) Hall) in Hin.
  unfold addrWithin in Hin. by rewrite Haddr in Hin.
Qed.

(** The libraries whose full-text engine rejected with status 412, as the
    trace shows them. *)
Definition preconditionFailures (evs : list Event) : list LibraryID :=
  omap (fun ev =>
          match ev with
          | EvEngineEnd FullTextPhase l (Some (_, o)) =>
              if is412 o then Some l else None
          | _ => None
          end) evs.

Lemma preconditionFailures_app evs1 evs2 :
  preconditionFailures (evs1 ++ evs2) =
  preconditionFailures evs1 ++ preconditionFailures evs2.
Proof. apply omap_app. Qed.

Lemma preconditionFailures_reports evs :
  Forall isReport evs -> preconditionFailures evs = [].
Proof.
  induction 1 as [|ev evs Hev _ IH]; [done|].
  destruct ev; simpl in Hev; try done; exact IH.
Qed.

Lemma preconditionFailures_elem l evs :
  l ∈ preconditionFailures evs <->
  exists e o, EvEngineEnd FullTextPhase l (Some (e, o)) ∈ evs /\ is412 o = true.
Proof.
  unfold preconditionFailures. rewrite list_elem_of_omap. split.
  - intros (ev & Hin & Hev). destruct ev as [| | | | | |p l' rej| | | | | | |];
      try discriminate.
    destruct p; try discriminate. destruct rej as [[e o]|]; try discriminate.
    destruct (is412 o) eqn:H412; [|discriminate].
    injection Hev as ->. eauto.
  - intros (e & o & Hin & H412). eexists. split; [exact Hin|]. simpl.
    by rewrite H412.
Qed.

(** What the events and the queue of a run of the full-text loop over
    [libs] look like, when the store had [lo] objects before and has [hi]
    after. *)
Definition fullTextLog (options : EngineOptions) (libs : list LibraryID)
    (lo hi : nat) (evs : list Event) (queued : list nat) : Prop :=
  Forall (addrWithin lo hi) evs /\
  Forall (fun e => (lo <= e < hi)%nat) queued /\
  (forall l e o, EvEngineEnd FullTextPhase l (Some (e, o)) ∈ evs ->
     if is412 o then
       (EvLogError e ∉ evs) /\ (EvCheckError e ∉ evs) /\
       (EvSinkError e ∉ evs) /\ (e ∉ queued)
     else
       EvLogError e ∈ evs /\ EvCheckError e ∈ evs /\
       (if eo_sink options then EvSinkError e ∈ evs /\ (e ∉ queued)
        else added o = false -> e ∈ queued)) /\
  (EvCallerStop ∈ evs <->
   exists l e o, EvEngineEnd FullTextPhase l (Some (e, o)) ∈ evs /\
                 is412 o = false /\ stopOnError || fatal o = true) /\
  (forall l, EvEngineStart FullTextPhase l ∈ evs -> l ∈ libs) /\
  (EvCallerStop ∉ evs -> forall l, l ∈ libs -> EvEngineStart FullTextPhase l ∈ evs) /\
  (forall evs1 evs2, evs = evs1 ++ EvCallerStop :: evs2 ->
     forall l, EvEngineStart FullTextPhase l ∉ evs2).

Lemma fullTextLog_nil options lo : fullTextLog options [] lo lo [] [].
Proof.
  unfold fullTextLog. split_and!.
  - constructor.
  - constructor.
  - intros l e o Hin. by apply elem_of_nil in Hin.
  - split.
    + intros Hin. by apply elem_of_nil in Hin.
    + intros (l & e & o & Hin & _). by apply elem_of_nil in Hin.
  - intros l Hin. by apply elem_of_nil in Hin.
  - intros _ l Hin. by apply elem_of_nil in Hin.
  - intros evs1 evs2 Heq. by destruct evs1.
Qed.

(** Takes apart a membership in a list that is written out. *)
Ltac elem_inv H :=
  repeat (apply elem_of_cons in H as [H|H]; [simplify_eq|]);
  try (by apply elem_of_nil in H).


(** Facts about the events of a report. *)
Lemma reportEvents_log options o e : EvLogError e ∈ reportEvents options o e.
Proof. unfold reportEvents. by left. Qed.

Lemma reportEvents_check options o e : EvCheckError e ∈ reportEvents options o e.
Proof. unfold reportEvents. right. by left. Qed.

Lemma reportEvents_sink options o e :
  eo_sink options = true -> EvSinkError e ∈ reportEvents options o e.
Proof.
  intros Hsink. unfold reportEvents. rewrite Hsink.
  right. right. by left.
Qed.

Lemma reportEvents_stop options o e :
  EvCallerStop ∈ reportEvents options o e <-> stopOnError || fatal o = true.
Proof.
  unfold reportEvents.
  destruct (eo_sink options), (added o), (stopOnError || fatal o); simpl;
    (split; [try done; intros Hin; elem_inv Hin
            | try done; intros _; repeat first [by left | right]]).
Qed.

Lemma reportEvents_addr options o e :
  Forall (addrWithin e (S e)) (reportEvents options o e).
Proof.
  unfold reportEvents.
  destruct (eo_sink options), (added o), (stopOnError || fatal o); simpl;
    repeat (first [apply Forall_nil_2 | apply Forall_cons_2]);
    unfold addrWithin; simpl; lia.
Qed.

Lemma reportEvents_stop_last options o e evs1 evs2 :
  reportEvents options o e = evs1 ++ EvCallerStop :: evs2 -> evs2 = [].
Proof.
  unfold reportEvents.
  destruct (eo_sink options), (added o), (stopOnError || fatal o); simpl;
    intros Heq;
    repeat (destruct evs1 as [|? evs1]; simpl in *; simplify_eq);
    done.
Qed.

Section FullTextPhase.

Context {World : Type} `{Collaborators World}.

Implicit Types (s : Runner World) (options : EngineOptions).

Lemma fullTextStep_resolved options lib acc s w :
  fullTextEngine_start lib (world s) = (Resolved tt, w) ->
  fullTextStep options lib acc s =
    (Normal (Next, acc),
     afterRun s w []
       [EvEngineStart FullTextPhase lib; EvEngineEnd FullTextPhase lib None]).
Proof.
  intros Hrun. unfold fullTextStep, tryCatch, bind, startFullTextEngine.
  by rewrite (startEngine_resolved _ _ _ _ _ _ Hrun).
Qed.

Lemma fullTextStep_rejected options lib acc s o w :
  fullTextEngine_start lib (world s) = (Rejected o, w) ->
  let e := length (heap s) in
  let s1 := afterRun s w [o]
              [EvEngineStart FullTextPhase lib;
               EvEngineEnd FullTextPhase lib (Some (e, o))] in
  fullTextStep options lib acc s =
    if is412 o then (Normal (Next, acc ++ [lib]), s1)
    else (Normal (if stopOnError || fatal o then Stop else Next, acc),
          afterReport options e s1).
Proof.
  intros Hrun e s1. unfold fullTextStep, tryCatch, bind, startFullTextEngine.
  rewrite (startEngine_rejected _ _ _ _ _ _ Hrun). fold e. fold s1.
  unfold fullTextCatch, bind, readObj.
  assert (Ho : heap s1 !!! e = o) by apply afterRun_new.
  assert (He : (e < length (heap s1))%nat).
  { unfold s1, e. simpl. rewrite length_app. simpl. lia. }
  rewrite Ho. unfold is412.
  destruct (class o) as [| | | |status|];
    try (rewrite reportAndDecide_spec by exact He; by rewrite Ho).
  destruct (status =? 412); [reflexivity|].
  rewrite reportAndDecide_spec by exact He. by rewrite Ho.
Qed.

(** The run of an engine that ends well or with a precondition failure
    leaves a log of two events. *)
Lemma fullTextLog_run options lib lo hi (rej : option (nat * ErrObj)) :
  (lo <= hi)%nat ->
  match rej with
  | Some (e, o) => (lo <= e < hi)%nat /\ is412 o = true
  | None => True
  end ->
  fullTextLog options [lib] lo hi
    [EvEngineStart FullTextPhase lib; EvEngineEnd FullTextPhase lib rej] [].
Proof.
  intros Hle Hrej. unfold fullTextLog. split_and!.
  - repeat (first [apply Forall_nil_2 | apply Forall_cons_2]);
      unfold addrWithin; simpl; try done.
    destruct rej as [[e o]|]; [|done]. apply Hrej.
  - constructor.
  - intros l e o Hin.
    apply elem_of_cons in Hin as [Hin|Hin]; [discriminate|].
    apply elem_of_cons in Hin as [Hin|Hin]; [|by apply elem_of_nil in Hin].
    injection Hin as -> <-. destruct Hrej as [_ ->].
    split_and!; intros Hin; elem_inv Hin.
  - split; [intros Hin; elem_inv Hin|].
    intros (l & e & o & Hin & Hn & _).
    apply elem_of_cons in Hin as [Hin|Hin]; [discriminate|].
    apply elem_of_cons in Hin as [Hin|Hin]; [|by apply elem_of_nil in Hin].
    injection Hin as -> <-. destruct Hrej as [_ Hyes]. congruence.
  - intros l Hin. elem_inv Hin. by left.
  - intros _ l Hin. elem_inv Hin. by left.
  - intros evs1 evs2 Heq.
    repeat (destruct evs1 as [|? evs1]; simpl in *; simplify_eq).
Qed.

(** A failure that is reported leaves the run and the report. *)
Lemma fullTextLog_report options lib e o :
  is412 o = false ->
  fullTextLog options [lib] e (S e)
    ([EvEngineStart FullTextPhase lib;
      EvEngineEnd FullTextPhase lib (Some (e, o))] ++ reportEvents options o e)
    (if queues options o then [e] else []).
Proof.
  intros H412.
  pose proof (reportEvents_isReport options o e) as Hrep.
  assert (Hnorep : forall ev, ~ isReport ev -> ev ∉ reportEvents options o e).
  { intros ev. by apply not_elem_of_reports. }
  assert (Hend : EvEngineEnd FullTextPhase lib (Some (e, o)) ∈
            [EvEngineStart FullTextPhase lib;
             EvEngineEnd FullTextPhase lib (Some (e, o))] ++
            reportEvents options o e).
  { apply elem_of_app. left. right. by left. }
  assert (Hinv : forall l e' o',
            EvEngineEnd FullTextPhase l (Some (e', o')) ∈
              [EvEngineStart FullTextPhase lib;
               EvEngineEnd FullTextPhase lib (Some (e, o))] ++
              reportEvents options o e ->
            l = lib /\ e' = e /\ o' = o).
  { intros l e' o' Hin. apply elem_of_app in Hin as [Hin|Hin].
    - apply elem_of_cons in Hin as [Hin|Hin]; [discriminate|].
      apply elem_of_cons in Hin as [Hin|Hin]; [|by apply elem_of_nil in Hin].
      by injection Hin as -> -> ->.
    - exfalso. eapply Hnorep; [|exact Hin]. simpl. tauto. }
  unfold fullTextLog. split_and!.
  - apply Forall_app. split; [|apply reportEvents_addr].
    repeat (first [apply Forall_nil_2 | apply Forall_cons_2]);
      unfold addrWithin; simpl; try done; lia.
  - destruct (queues options o);
      repeat (first [apply Forall_nil_2 | apply Forall_cons_2]); lia.
  - intros l e' o' Hin. apply Hinv in Hin as (-> & -> & ->). rewrite H412.
    split_and!.
    + apply elem_of_app. right. apply reportEvents_log.
    + apply elem_of_app. right. apply reportEvents_check.
    + unfold queues. destruct (eo_sink options) eqn:Hsink; simpl.
      * split; [|intros Hq; by apply elem_of_nil in Hq].
        right. right. by apply reportEvents_sink.
      * intros ->. by left.
  - rewrite elem_of_app, reportEvents_stop. split.
    + intros [Hin|Hstop]; [elem_inv Hin|]. by exists lib, e, o.
    + intros (l & e' & o' & Hin & _ & Hf).
      apply Hinv in Hin as (-> & -> & ->). by right.
  - intros l Hin. apply elem_of_app in Hin as [Hin|Hin].
    + elem_inv Hin. by left.
    + exfalso. eapply Hnorep; [|exact Hin]. simpl. tauto.
  - intros _ l Hin. elem_inv Hin. apply elem_of_app. left. by left.
  - intros evs1 evs2 Heq l Hin.
    destruct evs1 as [|a [|b evs1]]; simpl in Heq; simplify_eq.
    match goal with
    | Hr : reportEvents _ _ _ = _ |- _ =>
        apply reportEvents_stop_last in Hr; subst evs2
    end.
    by apply elem_of_nil in Hin.
Qed.

(** One turn of the loop, summed up. *)
Lemma fullTextStep_log options lib acc s :
  let r := fullTextStep options lib acc s in
  exists c evs queued,
    r.1 = Normal (c, acc ++ preconditionFailures evs) /\
    trace r.2 = trace s ++ evs /\
    _errors r.2 = _errors s ++ queued /\
    (length (heap s) <= length (heap r.2))%nat /\
    fullTextLog options [lib] (length (heap s)) (length (heap r.2)) evs queued /\
    (c = Stop <-> EvCallerStop ∈ evs).
Proof.
  simpl. destruct (fullTextEngine_start lib (world s)) as [[[]|o] w] eqn:Hrun.
  - rewrite (fullTextStep_resolved _ _ _ _ _ Hrun). simpl.
    exists Next,
      [EvEngineStart FullTextPhase lib; EvEngineEnd FullTextPhase lib None], [].
    rewrite !app_nil_r. split_and!; try done.
    + by apply fullTextLog_run.
    + split; [done|]. intros Hin. elem_inv Hin.
  - rewrite (fullTextStep_rejected _ _ _ _ _ _ Hrun).
    destruct (is412 o) eqn:H412.
    + exists Next,
        [EvEngineStart FullTextPhase lib;
         EvEngineEnd FullTextPhase lib (Some (length (heap s), o))], [].
      simpl. rewrite H412, !app_nil_r, length_app. simpl.
      split_and!; try done; try lia.
      * apply fullTextLog_run; [lia|]. split; [lia|done].
      * split; [done|]. intros Hin. elem_inv Hin.
    + set (e := length (heap s)).
      set (s1 := afterRun s w [o] _).
      assert (Ho : heap s1 !!! e = o) by apply afterRun_new.
      assert (Htr1 : trace s1 = trace s ++
                [EvEngineStart FullTextPhase lib;
                 EvEngineEnd FullTextPhase lib (Some (e, o))]) by reflexivity.
      assert (Herr1 : _errors s1 = _errors s) by reflexivity.
      assert (Hlen1 : length (heap s1) = S e).
      { simpl. rewrite length_app. simpl. unfold e. lia. }
      clearbody s1.
      exists (if stopOnError || fatal o then Stop else Next),
        ([EvEngineStart FullTextPhase lib;
          EvEngineEnd FullTextPhase lib (Some (e, o))] ++ reportEvents options o e),
        (if queues options o then [e] else []).
      assert (Hpf : preconditionFailures
                ([EvEngineStart FullTextPhase lib;
                  EvEngineEnd FullTextPhase lib (Some (e, o))]
                 ++ reportEvents options o e) = []).
      { rewrite preconditionFailures_app,
          (preconditionFailures_reports _ (reportEvents_isReport _ _ _)).
        simpl. by rewrite H412. }
      rewrite Hpf, app_nil_r.
      assert (Hlen : length (heap (afterReport options e s1)) = S e).
      { by rewrite afterReport_length. }
      unfold snd, fst. rewrite Hlen.
      split_and!; try done; try (unfold e; lia).
      * unfold afterReport. simpl. by rewrite Ho, Htr1, <- app_assoc.
      * unfold afterReport. simpl. rewrite Ho, Herr1.
        by destruct (queues options o); rewrite ?app_nil_r.
      * by apply fullTextLog_report.
      * rewrite elem_of_app, reportEvents_stop.
        destruct (stopOnError || fatal o); split; try done.
        -- by right.
        -- intros [Hin|Hf]; [elem_inv Hin|done].
Qed.

Lemma fullTextLog_stop options lib libs lo hi evs queued :
  fullTextLog options [lib] lo hi evs queued ->
  EvCallerStop ∈ evs ->
  fullTextLog options (lib :: libs) lo hi evs queued.
Proof.
  intros (HA & HB & HC & HD & HE1 & HE2 & HF) Hstop.
  unfold fullTextLog. split_and!; try done.
  intros l Hin. apply HE1 in Hin. apply elem_of_cons. left.
  by apply list_elem_of_singleton in Hin.
Qed.

Lemma fullTextLog_cons options lib libs lo mid hi evs1 evs2 q1 q2 :
  (lo <= mid <= hi)%nat ->
  fullTextLog options [lib] lo mid evs1 q1 ->
  fullTextLog options libs mid hi evs2 q2 ->
  EvCallerStop ∉ evs1 ->
  fullTextLog options (lib :: libs) lo hi (evs1 ++ evs2) (q1 ++ q2).
Proof.
  intros Hle (HA1 & HB1 & HC1 & HD1 & HE1 & HG1 & HF1)
    (HA2 & HB2 & HC2 & HD2 & HE2 & HG2 & HF2) Hnostop.
  assert (Hlow : forall ev e, ev ∈ evs1 -> eventAddr ev = Some e -> (e < mid)%nat).
  { intros ev e Hin Haddr. by destruct (addrWithin_elem _ _ _ _ _ HA1 Hin Haddr). }
  assert (Hhigh : forall ev e, ev ∈ evs2 -> eventAddr ev = Some e -> (mid <= e)%nat).
  { intros ev e Hin Haddr. by destruct (addrWithin_elem _ _ _ _ _ HA2 Hin Haddr). }
  assert (Hq1 : forall e, e ∈ q1 -> (e < mid)%nat).
  { intros e Hin. by destruct (proj1 (Forall_forall _ _) HB1 e Hin). }
  assert (Hq2 : forall e, e ∈ q2 -> (mid <= e)%nat).
  { intros e Hin. by destruct (proj1 (Forall_forall _ _) HB2 e Hin). }
  unfold fullTextLog. split_and!.
  - apply Forall_app. split; (eapply Forall_impl; [eassumption|]);
      intros ev; apply addrWithin_widen; lia.
  - apply Forall_app. split; (eapply Forall_impl; [eassumption|]);
      simpl; intros; lia.
  - intros l e o Hin. apply elem_of_app in Hin as [Hin|Hin].
    + pose proof (Hlow _ e Hin eq_refl) as He.
      assert (Hfresh : forall ev, eventAddr ev = Some e -> ev ∉ evs2).
      { intros ev Haddr Hin2. pose proof (Hhigh _ _ Hin2 Haddr). lia. }
      assert (Hnq : e ∉ q2).
      { intros Hin2. apply Hq2 in Hin2. lia. }
      specialize (HC1 l e o Hin). destruct (is412 o).
      * destruct HC1 as (Hl & Hc & Hs & Hq).
        rewrite !elem_of_app.
        split_and!; intros [?|?]; try done;
          by eapply Hfresh; [|eassumption].
      * destruct HC1 as (Hl & Hc & Hs). rewrite !elem_of_app.
        split_and!; [by left|by left|].
        destruct (eo_sink options); rewrite ?elem_of_app.
        -- destruct Hs as [Hs Hq]. split; [by left|].
           intros [?|?]; done.
        -- intros Hadded. left. by apply Hs.
    + pose proof (Hhigh _ e Hin eq_refl) as He.
      assert (Hfresh : forall ev, eventAddr ev = Some e -> ev ∉ evs1).
      { intros ev Haddr Hin1. pose proof (Hlow _ _ Hin1 Haddr). lia. }
      assert (Hnq : e ∉ q1).
      { intros Hin1. apply Hq1 in Hin1. lia. }
      specialize (HC2 l e o Hin). destruct (is412 o).
      * destruct HC2 as (Hl & Hc & Hs & Hq).
        rewrite !elem_of_app.
        split_and!; intros [?|?]; try done;
          by eapply Hfresh; [|eassumption].
      * destruct HC2 as (Hl & Hc & Hs). rewrite !elem_of_app.
        split_and!; [by right|by right|].
        destruct (eo_sink options); rewrite ?elem_of_app.
        -- destruct Hs as [Hs Hq]. split; [by right|].
           intros [?|?]; done.
        -- intros Hadded. right. by apply Hs.
  - rewrite elem_of_app. split.
    + intros [Hin|Hin]; [done|].
      apply HD2 in Hin as (l & e & o & Hin & Hrest).
      exists l, e, o. split; [|done]. apply elem_of_app. by right.
    + intros (l & e & o & Hin & Hrest).
      apply elem_of_app in Hin as [Hin|Hin].
      * left. apply HD1. by exists l, e, o.
      * right. apply HD2. by exists l, e, o.
  - intros l Hin. apply elem_of_app in Hin as [Hin|Hin].
    + apply HE1 in Hin. apply list_elem_of_singleton in Hin as ->. by left.
    + right. by apply HE2.
  - intros Hno l Hin. apply elem_of_app.
    apply elem_of_cons in Hin as [->|Hin].
    + left. apply HG1; [done|by left].
    + right. apply HG2; [|done]. intros Hstop. apply Hno.
      apply elem_of_app. by right.
  - intros a b Heq l.
    apply app_eq_inv in Heq as [(k & Hk1 & Hk2)|(k & Hk1 & Hk2)].
    + destruct k as [|x k]; simpl in Hk2.
      * rewrite app_nil_r in Hk1. subst.
        apply (HF2 [] b eq_refl).
      * injection Hk2 as <- ->. exfalso. apply Hnostop. rewrite Hk1.
        apply elem_of_app. right. by left.
    + by apply (HF2 k b).
Qed.

(** The loop, summed up: it does not throw, and what it returns is what it
    was given plus the precondition failures of its trace. *)
Lemma fullTextLoop_log options libs acc s :
  let r := fullTextLoop options libs acc s in
  exists evs queued,
    r.1 = Normal (acc ++ preconditionFailures evs) /\
    trace r.2 = trace s ++ evs /\
    _errors r.2 = _errors s ++ queued /\
    (length (heap s) <= length (heap r.2))%nat /\
    fullTextLog options libs (length (heap s)) (length (heap r.2)) evs queued.
Proof.
  revert acc s. induction libs as [|lib rest IH]; intros acc s; simpl.
  - exists [], []. rewrite !app_nil_r. split_and!; try done.
    apply fullTextLog_nil.
  - unfold bind.
    destruct (fullTextStep_log options lib acc s)
      as (c & evs1 & q1 & Hr1 & Ht1 & He1 & Hl1 & Hlog1 & Hstop1).
    destruct (fullTextStep options lib acc s) as [[[c' acc1]|e] s1];
      simpl in *; [|discriminate].
    injection Hr1 as -> ->. destruct c.
    + destruct (IH (acc ++ preconditionFailures evs1) s1)
        as (evs2 & q2 & Hr2 & Ht2 & He2 & Hl2 & Hlog2).
      exists (evs1 ++ evs2), (q1 ++ q2).
      rewrite Hr2, Ht2, Ht1, He2, He1, preconditionFailures_app, !app_assoc.
      split_and!; try done; try lia.
      apply (fullTextLog_cons _ _ _ _ (length (heap s1))); try done.
      intros Hin. by apply Hstop1 in Hin.
    + exists evs1, q1. split_and!; try done.
      apply fullTextLog_stop; [done|]. by apply Hstop1.
Qed.

Lemma doFullTextSync_unfold options libs s :
  _doFullTextSync libs options s =
    if fulltext_enabled (world s) then
      match fullTextLoop options libs []
              (set_lastSyncStatus (Some "sync.status.syncingFullText") s) with
      | (Normal resync, s1) =>
          (Normal resync,
           set_trace (trace s1 ++ [EvPhaseDone FullTextPhase libs resync]) s1)
      | (Thrown e, s1) => (Thrown e, s1)
      end
    else (Normal [], set_trace (trace s ++ [EvPhaseDone FullTextPhase libs []]) s).
Proof.
  unfold _doFullTextSync, bind, ask. simpl.
  destruct (fulltext_enabled (world s)); simpl; [|done].
  unfold setSyncStatus, modify. simpl.
  by destruct (fullTextLoop _ _ _ _) as [[resync|e] s1].
Qed.

(** C7: in a full-text phase that runs (full-text sync is enabled), the
    phase returns exactly the libraries whose engine rejected with an
    unexpected-status exception of status 412, and such a rejection leaves
    no other mark: the error is not logged, not classified ([checkError]),
    not handed to the caller's sink and not queued.  Every other rejection
    is logged and classified, and then handed to the caller's sink if there
    is one and queued otherwise (by [addError], which queues an error that
    is not yet marked).  The caller is stopped exactly when such a rejection
    is fatal (or [stopOnError] is set); if that does not happen the engine
    of every library is started, and once it has happened no engine is
    started any more. *)
Theorem doFullTextSync_precondition_failed options libs s :
  fulltext_enabled (world s) = true ->
  let r := _doFullTextSync libs options s in
  exists resync evs queued,
    r.1 = Normal resync /\
    trace r.2 = trace s ++ evs ++ [EvPhaseDone FullTextPhase libs resync] /\
    _errors r.2 = _errors s ++ queued /\
    resync = preconditionFailures evs /\
    (forall l, l ∈ resync <->
       exists e o, EvEngineEnd FullTextPhase l (Some (e, o)) ∈ evs /\
                   is412 o = true) /\
    (forall l e o, EvEngineEnd FullTextPhase l (Some (e, o)) ∈ evs ->
       if is412 o then
         (EvLogError e ∉ evs) /\ (EvCheckError e ∉ evs) /\
         (EvSinkError e ∉ evs) /\ (e ∉ queued)
       else
         EvLogError e ∈ evs /\ EvCheckError e ∈ evs /\
         (if eo_sink options then EvSinkError e ∈ evs /\ (e ∉ queued)
          else added o = false -> e ∈ queued)) /\
    (EvCallerStop ∈ evs <->
     exists l e o, EvEngineEnd FullTextPhase l (Some (e, o)) ∈ evs /\
                   is412 o = false /\ stopOnError || fatal o = true) /\
    (EvCallerStop ∉ evs ->
     forall l, l ∈ libs -> EvEngineStart FullTextPhase l ∈ evs) /\
    (forall evs1 evs2, evs = evs1 ++ EvCallerStop :: evs2 ->
       forall l, EvEngineStart FullTextPhase l ∉ evs2).
Proof.
  intros Henabled. simpl. rewrite doFullTextSync_unfold, Henabled.
  set (s0 := set_lastSyncStatus _ s).
  destruct (fullTextLoop_log options libs [] s0)
    as (evs & queued & Hr & Ht & He & _ & Hlog).
  destruct (fullTextLoop options libs [] s0) as [[resync|e] s1];
    simpl in *; [|discriminate].
  injection Hr as ->.
  destruct Hlog as (_ & _ & HC & HD & _ & HG & HF).
  exists (preconditionFailures evs), evs, queued.
  split_and!; try done.
  - by rewrite Ht, <- app_assoc.
  - intros l. apply preconditionFailures_elem.
Qed.

End FullTextPhase.


Lemma doFullTextSync_precondition_failed_witness :
  let r := @_doFullTextSync nat (scripted fullTextScript) [1; 2; 3; 4]
             plainEngineOptions (initialRunner 0%nat) in
  r.1 = Normal [1] /\ _errors r.2 = [1%nat; 2%nat] /\
  EvEngineStart FullTextPhase 4 ∉ trace r.2.
Proof.
  destruct (@doFullTextSync_precondition_failed nat (scripted fullTextScript)
              plainEngineOptions [1; 2; 3; 4] (initialRunner 0%nat) eq_refl)
    as (resync & evs & queued & Hr & Ht & He & _).
  split; [reflexivity|]. split; [reflexivity|].
  vm_compute. intros Hin. apply list_elem_of_In in Hin. simpl in Hin.
  repeat (destruct Hin as [Hin|Hin]; [discriminate|]). exact Hin.
Defined.

(** ** File phase *)

(** [k] runs of the storage engine of a library that all ended well. *)
Definition runEvents (lib : LibraryID) (k : nat) : list Event :=
  concat (replicate k
    [EvEngineStart FilePhase lib; EvEngineEnd FilePhase lib None]).

Definition tooManyFileSyncAttempts (lib : LibraryID) : ErrObj :=
  newError ("Too many file sync attempts for library " +:+ pretty lib).

Section FilePhase.

Context {World : Type} `{Collaborators World}.

Implicit Types (s : Runner World) (options : EngineOptions).

(** The storage engine of [lib] asks [k] times in a row for another file
    sync (and not for a data sync); the world this leaves. *)
Fixpoint repeatsFor (k : nat) (lib : LibraryID) (w : World) : option World :=
  match k with
  | O => Some w
  | S k =>
      match storageEngine_start lib w with
      | (Resolved results, w') =>
          if negb (syncRequired results) && fileSyncRequired results
          then repeatsFor k lib w' else None
      | (Rejected _, _) => None
      end
  end.

(** The state once the controller for the library's mode is cached. *)
Definition withController (lib : LibraryID) s : Runner World :=
  let mode := getModeForLibrary lib (world s) in
  match _storageControllers s !! mode with
  | Some _ => s
  | None =>
      set_storageControllers
        (<[mode := mkController mode lib]> (_storageControllers s)) s
  end.

Lemma afterRun_afterRun s w1 w2 new1 new2 evs1 evs2 :
  afterRun (afterRun s w1 new1 evs1) w2 new2 evs2 =
  afterRun s w2 (new1 ++ new2) (evs1 ++ evs2).
Proof. unfold afterRun. simpl. by rewrite !app_assoc. Qed.

Lemma afterRun_id s : afterRun s (world s) [] [] = s.
Proof. destruct s. unfold afterRun. simpl. by rewrite !app_nil_r. Qed.

(** One attempt, by what the engine answers. *)
Lemma storageAttempts_step tries lib acc s :
  storageAttempts (S tries) lib acc s =
    match storageEngine_start lib (world s) with
    | (Resolved results, w) =>
        let s1 := afterRun s w []
                    [EvEngineStart FilePhase lib; EvEngineEnd FilePhase lib None] in
        if syncRequired results then (Normal (acc ++ [lib]), s1)
        else if fileSyncRequired results then storageAttempts tries lib acc s1
        else (Normal acc, s1)
    | (Rejected o, w) =>
        (Thrown (length (heap s)),
         afterRun s w [o]
           [EvEngineStart FilePhase lib;
            EvEngineEnd FilePhase lib (Some (length (heap s), o))])
    end.
Proof.
  simpl. unfold bind, startStorageEngine.
  destruct (storageEngine_start lib (world s)) as [[results|o] w] eqn:Hrun.
  - rewrite (startEngine_resolved _ _ _ _ _ _ Hrun).
    by destruct (syncRequired results), (fileSyncRequired results).
  - by rewrite (startEngine_rejected _ _ _ _ _ _ Hrun).
Qed.

Lemma storageAttempts_exhausted lib acc s :
  storageAttempts 0 lib acc s =
    (Thrown (length (heap s)),
     afterRun s (world s) [tooManyFileSyncAttempts lib] []).
Proof.
  destruct s. unfold afterRun. simpl. by rewrite app_nil_r.
Qed.

(** Repeats use up the budget one by one. *)
Lemma storageAttempts_repeats k tries lib acc s w :
  repeatsFor k lib (world s) = Some w ->
  storageAttempts (k + tries) lib acc s =
  storageAttempts tries lib acc (afterRun s w [] (runEvents lib k)).
Proof.
  revert s. induction k as [|k IH]; intros s Hrep; simpl in Hrep.
  - injection Hrep as <-. by rewrite afterRun_id.
  - change (S k + tries)%nat with (S (k + tries)).
    rewrite storageAttempts_step.
    destruct (storageEngine_start lib (world s)) as [[results|o] w1];
      [|discriminate].
    destruct (syncRequired results); [discriminate|].
    destruct (fileSyncRequired results); [|discriminate].
    simpl in Hrep. simpl.
    rewrite (IH (afterRun s w1 [] _) Hrep), afterRun_afterRun.
    reflexivity.
Qed.

Lemma fileSyncStep_unfold options lib acc s :
  fileSyncStep options lib acc s =
    match storageAttempts 3 lib acc (withController lib s) with
    | (Normal resync, s1) => (Normal (Next, resync), s1)
    | (Thrown e, s1) => reportAndDecide options e acc s1
    end.
Proof.
  unfold fileSyncStep. set (attempts := storageAttempts 3 lib acc).
  unfold tryCatch, bind, ask, getStorageController, bind, get,
    withController. simpl.
  destruct (_storageControllers s !! getModeForLibrary lib (world s));
    simpl; unfold ret, modify; simpl;
    match goal with
    | |- context [attempts ?x] =>
        by destruct (attempts x) as [[resync|e] s1]
    end.
Qed.

Lemma withController_world lib s : world (withController lib s) = world s.
Proof. unfold withController. by destruct (_ !! _). Qed.

Lemma withController_heap lib s : heap (withController lib s) = heap s.
Proof. unfold withController. by destruct (_ !! _). Qed.

Lemma runEvents_S lib k :
  runEvents lib (S k) =
  runEvents lib k ++ [EvEngineStart FilePhase lib; EvEngineEnd FilePhase lib None].
Proof.
  unfold runEvents. by rewrite replicate_S_end, concat_app.
Qed.

(** C6, amended: for each library the File phase runs the storage engine at
    most three times.  As long as the engine asks for another file sync (and
    not for a data sync) it is run again at once, each run using up one of
    three tries; a result that asks for a data sync puts the library into
    the returned set and the phase goes on to the next library; a result
    that asks for neither ends the library's turn.  When the three tries are
    used up, an error "Too many file sync attempts" is raised for the
    library; it is not marked fatal: it is reported like any engine failure
    (logged, classified, sent to the sink or queued) and the phase goes on
    to the next library.  ([afterReport] is the state a report leaves: the
    object with what the classification attaches to it, for an error about
    the API key another message and a button, and with the marks of the
    queue if it is queued.) *)
Theorem fileSyncStep_attempts options lib acc s (k : nat) (w : World) :
  (k <= 3)%nat ->
  repeatsFor k lib (world s) = Some w ->
  let s0 := withController lib s in
  let e := length (heap s) in
  if decide (k = 3%nat) then
    fileSyncStep options lib acc s =
      (Normal (Next, acc),
       afterReport options e
         (afterRun s0 w [tooManyFileSyncAttempts lib] (runEvents lib 3)))
  else
    match storageEngine_start lib w with
    | (Resolved results, w') =>
        syncRequired results || negb (fileSyncRequired results) = true ->
        fileSyncStep options lib acc s =
          (Normal (Next, if syncRequired results then acc ++ [lib] else acc),
           afterRun s0 w' [] (runEvents lib (S k)))
    | (Rejected o, w') =>
        fileSyncStep options lib acc s =
          (Normal (if stopOnError || fatal o then Stop else Next, acc),
           afterReport options e
             (afterRun s0 w' [o]
                (runEvents lib k ++
                 [EvEngineStart FilePhase lib;
                  EvEngineEnd FilePhase lib (Some (e, o))])))
    end.
Proof.
  intros Hk Hrep s0 e. rewrite fileSyncStep_unfold. fold s0.
  assert (Hw0 : world s0 = world s) by apply withController_world.
  assert (Hh0 : heap s0 = heap s) by apply withController_heap.
  rewrite <- Hw0 in Hrep.
  assert (Hsplit : storageAttempts 3 lib acc s0 =
            storageAttempts (3 - k) lib acc (afterRun s0 w [] (runEvents lib k))).
  { rewrite <- (storageAttempts_repeats _ _ _ _ _ _ Hrep). f_equal. lia. }
  rewrite Hsplit. clear Hsplit.
  set (sk := afterRun s0 w [] (runEvents lib k)).
  assert (Hhk : heap sk = heap s).
  { unfold sk. simpl. by rewrite app_nil_r. }
  case_decide as Hk3.
  - subst k. replace (3 - 3)%nat with 0%nat by lia.
    rewrite storageAttempts_exhausted, Hhk. fold e. unfold sk.
    rewrite afterRun_afterRun. simpl world. rewrite !app_nil_r. simpl app.
    set (s1 := afterRun s0 w _ _).
    assert (Ho : heap s1 !!! e = tooManyFileSyncAttempts lib).
    { unfold s1, e. rewrite <- Hh0. apply afterRun_new. }
    rewrite reportAndDecide_spec.
    + by rewrite Ho.
    + unfold s1. simpl. rewrite length_app, Hh0. simpl. unfold e. lia.
  - destruct (3 - k)%nat as [|tries] eqn:Htries; [lia|].
    rewrite storageAttempts_step. simpl world.
    destruct (storageEngine_start lib w) as [[results|o] w'] eqn:Hrun.
    + intros Hdone. unfold sk. rewrite afterRun_afterRun, <- runEvents_S.
      simpl app.
      destruct (syncRequired results); [done|].
      by destruct (fileSyncRequired results).
    + rewrite Hhk. fold e. unfold sk. rewrite afterRun_afterRun. simpl app.
      set (s1 := afterRun s0 w' _ _).
      assert (Ho : heap s1 !!! e = o).
      { unfold s1, e. rewrite <- Hh0. apply afterRun_new. }
      rewrite reportAndDecide_spec.
      * by rewrite Ho.
      * unfold s1. simpl. rewrite length_app, Hh0. simpl. unfold e. lia.
Qed.

End FilePhase.


(** C6, as stated, fails: using up the three tries is not fatal.  The turn
    of the library ends with "next library", not with a stop. *)
Lemma fileSync_exhaustion_not_fatal :
  ~ (forall (options : EngineOptions) (lib : LibraryID) (acc : list LibraryID)
            (s : Runner nat) (w : nat),
       @repeatsFor nat (scripted repeatScript) 3 lib (world s) = Some w ->
       (@fileSyncStep nat (scripted repeatScript) options lib acc s).1
       = Normal (Stop, acc)).
Proof.
  intros Hclaim.
  specialize (Hclaim plainEngineOptions 1 [] (initialRunner 0%nat) 3%nat eq_refl).
  vm_compute in Hclaim. discriminate.
Qed.

(** The same in a whole phase: library 1 uses up its tries, its error is
    queued, nothing is stopped, and library 2 is synced after it. *)
Example doFileSync_goes_on_after_exhaustion :
  let r := @_doFileSync nat (scripted repeatScript) [1; 2] plainEngineOptions
             (initialRunner 0%nat) in
  r.1 = Normal [2] /\
  _errors r.2 = [0%nat] /\
  fatal (heap r.2 !!! 0%nat) = false /\
  trace r.2 =
    runEvents 1 3 ++
    [EvLogError 0%nat; EvCheckError 0%nat; EvLogError 0%nat] ++
    [EvEngineStart FilePhase 2; EvEngineEnd FilePhase 2 None;
     EvPhaseDone FilePhase [1; 2] [2]].
Proof. vm_compute. done. Qed.

Lemma fileSyncStep_attempts_witness :
  (@fileSyncStep nat (scripted repeatScript) plainEngineOptions 1 []
     (initialRunner 0%nat)).1 = Normal (Next, []).
Proof.
  pose proof (@fileSyncStep_attempts nat (scripted repeatScript)
                plainEngineOptions 1 [] (initialRunner 0%nat) 3%nat 3%nat
                (le_n 3) eq_refl) as Hstep.
  simpl in Hstep. rewrite Hstep. reflexivity.
Defined.

(** A rejection is stored as [checkError] and [addError] leave it: one
    that says that the API key is not valid is queued with the message of
    a login that is not valid and the button that opens the preferences,
    not with the message it was thrown with. *)
Example fileSyncStep_invalid_key :
  let r := @fileSyncStep nat (scripted invalidKeyScript) plainEngineOptions 1
             [] (initialRunner 0%nat) in
  r.1 = Normal (Next, []) /\
  _errors r.2 = [0%nat] /\
  heap r.2 =
    [mkErr (ZoteroError 4) "sync.error.invalidLogin.text" false true true
       (Some TError) None (Some "sync.openSyncPreferences")
       (Some OpenSyncPreferences)].
Proof. vm_compute. done. Qed.

(** ** The phases as the retry loop sees them *)

(** The phase calls a trace shows: phase, input, output. *)
Definition phaseCalls (evs : list Event)
  : list (Phase * list LibraryID * list LibraryID) :=
  omap (fun ev =>
          match ev with
          | EvPhaseDone p input output => Some (p, input, output)
          | _ => None
          end) evs.

Lemma phaseCalls_app evs1 evs2 :
  phaseCalls (evs1 ++ evs2) = phaseCalls evs1 ++ phaseCalls evs2.
Proof. apply omap_app. Qed.

Lemma phaseCalls_work p evs : Forall (isPhaseWork p) evs -> phaseCalls evs = [].
Proof.
  induction 1 as [|ev evs Hev _ IH]; [done|].
  destruct ev; simpl in Hev; try done; exact IH.
Qed.

Section PhaseCalls.

Context {World : Type} `{Collaborators World}.

Implicit Types (s : Runner World) (options : EngineOptions).

Lemma frames_startEngine {A} p lib (run : World -> EngineOutcome A * World) :
  frames (isPhaseWork p) (startEngine p lib run).
Proof. unfold startEngine. frames_auto. Qed.

Lemma frames_report {A} p options e (acc : A) :
  frames (isPhaseWork p) (reportAndDecide options e acc).
Proof.
  eapply frames_mono; [|apply frames_reportAndDecide].
  apply isReport_isPhaseWork.
Qed.

Lemma frames_storageAttempts tries lib acc :
  frames (isPhaseWork FilePhase) (storageAttempts tries lib acc).
Proof.
  induction tries as [|tries IH]; simpl; [frames_auto|].
  apply frames_bind; [apply frames_startEngine|].
  intros results. frames_auto. exact IH.
Qed.

Lemma frames_fileSyncLoop options libs acc :
  frames (isPhaseWork FilePhase) (fileSyncLoop options libs acc).
Proof.
  revert acc. induction libs as [|lib rest IH]; intros acc; simpl.
  - apply frames_ret.
  - apply frames_bind.
    + unfold fileSyncStep, getStorageController.
      apply frames_tryCatch; [|intros e; apply frames_report].
      apply frames_bind; [apply frames_ask|]. intros mode.
      apply frames_bind.
      * apply frames_bind; [apply frames_get|]. intros s0.
        destruct (_ !! _); [apply frames_ret|].
        apply frames_bind; [by apply frames_quiet|]. intros _.
        apply frames_ret.
      * intros _. apply frames_bind; [apply frames_storageAttempts|].
        intros resync. apply frames_ret.
    + intros [[] resync]; [apply IH|apply frames_ret].
Qed.

Lemma frames_fullTextLoop options libs acc :
  frames (isPhaseWork FullTextPhase) (fullTextLoop options libs acc).
Proof.
  revert acc. induction libs as [|lib rest IH]; intros acc; simpl.
  - apply frames_ret.
  - apply frames_bind.
    + unfold fullTextStep, fullTextCatch, startFullTextEngine.
      apply frames_tryCatch.
      * apply frames_bind; [apply frames_startEngine|]. intros _.
        apply frames_ret.
      * intros e. apply frames_bind; [apply frames_readObj|]. intros o.
        destruct (class o); try apply frames_report.
        destruct (_ =? _); [apply frames_ret|apply frames_report].
    + intros [[] resync]; [apply IH|apply frames_ret].
Qed.

(** The storage engine, or the budget, throws objects that are in the
    store. *)
Lemma storageAttempts_thrown tries lib acc s e :
  (storageAttempts tries lib acc s).1 = Thrown e ->
  (e < length (heap (storageAttempts tries lib acc s).2))%nat.
Proof.
  revert s. induction tries as [|tries IH]; intros s.
  - rewrite storageAttempts_exhausted. simpl. intros [= <-].
    rewrite length_app. simpl. lia.
  - rewrite storageAttempts_step.
    destruct (storageEngine_start lib (world s)) as [[results|o] w].
    + simpl. destruct (syncRequired results); [discriminate|].
      destruct (fileSyncRequired results); [apply IH|discriminate].
    + simpl. intros [= <-]. rewrite length_app. simpl. lia.
Qed.

Lemma fileSyncStep_returns options lib acc s :
  exists c resync, (fileSyncStep options lib acc s).1 = Normal (c, resync).
Proof.
  rewrite fileSyncStep_unfold.
  pose proof (storageAttempts_thrown 3 lib acc (withController lib s)) as Hthrown.
  destruct (storageAttempts 3 lib acc (withController lib s)) as [[resync|e] s1];
    simpl in *; [by eauto|].
  rewrite reportAndDecide_spec by (by apply Hthrown). simpl. eauto.
Qed.

Lemma fileSyncLoop_returns options libs acc s :
  exists resync, (fileSyncLoop options libs acc s).1 = Normal resync.
Proof.
  revert acc s. induction libs as [|lib rest IH]; intros acc s; simpl.
  - by exists acc.
  - unfold bind. destruct (fileSyncStep_returns options lib acc s) as (c & resync & Hr).
    destruct (fileSyncStep options lib acc s) as [r s1]. simpl in Hr. subst r.
    destruct c; [apply IH|by exists resync].
Qed.

(** What each phase adds to the sequence of phase calls. *)
Lemma doDataSync_calls options libs s :
  let r := _doDataSync libs options s in
  exists evs,
    trace r.2 = trace s ++ evs /\
    match r.1 with
    | Normal output => phaseCalls evs = [(DataPhase, libs, output)]
    | Thrown _ => phaseCalls evs = []
    end.
Proof.
  simpl. rewrite doDataSync_unfold.
  destruct (dataSyncLoop_summary options libs [] s) as (evs & Ht & HQ & _).
  pose proof (phaseCalls_work _ _ HQ) as Hcalls.
  destruct (dataSyncLoop options libs [] s) as [[output|e] s1]; simpl in *.
  - eexists. rewrite Ht, <- app_assoc. split; [reflexivity|].
    rewrite phaseCalls_app, Hcalls.
    by destruct (negb (nonEmpty libs) || nonEmpty output).
  - by exists evs.
Qed.

Lemma doFileSync_calls options libs s :
  let r := _doFileSync libs options s in
  exists output evs,
    r.1 = Normal output /\
    trace r.2 = trace s ++ evs /\
    phaseCalls evs = [(FilePhase, libs, output)].
Proof.
  simpl. unfold _doFileSync, bind, setSyncStatus, modify. simpl.
  set (s0 := set_lastSyncStatus _ s).
  destruct (fileSyncLoop_returns options libs [] s0) as (output & Hr).
  destruct (frames_fileSyncLoop options libs [] s0) as [(evs & Ht & HQ) _].
  destruct (fileSyncLoop options libs [] s0) as [r s1]. simpl in *. subst r.
  exists output, (evs ++ [EvPhaseDone FilePhase libs output]).
  split; [done|]. unfold emit, modify, ret. simpl.
  split; [by rewrite Ht, <- app_assoc|].
  by rewrite phaseCalls_app, (phaseCalls_work _ _ HQ).
Qed.

Lemma doFullTextSync_calls options libs s :
  let r := _doFullTextSync libs options s in
  exists output evs,
    r.1 = Normal output /\
    trace r.2 = trace s ++ evs /\
    phaseCalls evs = [(FullTextPhase, libs, output)].
Proof.
  simpl. rewrite doFullTextSync_unfold.
  destruct (fulltext_enabled (world s)).
  - set (s0 := set_lastSyncStatus _ s).
    destruct (fullTextLoop_log options libs [] s0) as (evs' & q & Hr & _).
    destruct (frames_fullTextLoop options libs [] s0) as [(evs & Ht & HQ) _].
    destruct (fullTextLoop options libs [] s0) as [[output|e] s1];
      simpl in *; [|discriminate].
    exists output, (evs ++ [EvPhaseDone FullTextPhase libs output]).
    split; [done|]. split; [by rewrite Ht, <- app_assoc|].
    by rewrite phaseCalls_app, (phaseCalls_work _ _ HQ).
  - exists [], [EvPhaseDone FullTextPhase libs []]. by simpl.
Qed.

End PhaseCalls.

(** ** The retry loop *)

(** What is left of the successful set after a data phase that was given
    [dataIn] and returned [dataOut]. *)
Definition keepSuccessful (successful dataIn dataOut : list LibraryID)
  : list LibraryID :=
  filter (fun l => l ∉ arrayDiff dataIn dataOut) successful.

Lemma foldl_setDelete (dropped successful : list LibraryID) :
  foldl (fun set libraryID => setDelete libraryID set) successful dropped =
  filter (fun l => l ∉ dropped) successful.
Proof.
  revert successful. induction dropped as [|x rest IH]; intros successful; simpl.
  - induction successful as [|y successful IHs]; [done|].
    rewrite filter_cons_True by apply not_elem_of_nil. by rewrite <- IHs.
  - rewrite IH. unfold setDelete. rewrite list_filter_filter.
    apply list_filter_iff. intros l. rewrite not_elem_of_cons. tauto.
Qed.

Lemma elem_of_keepSuccessful l successful dataIn dataOut :
  l ∈ keepSuccessful successful dataIn dataOut <->
  l ∈ successful /\ (l ∈ dataIn -> l ∈ dataOut).
Proof.
  unfold keepSuccessful, arrayDiff. rewrite !list_elem_of_filter.
  destruct (decide (l ∈ dataOut)); tauto.
Qed.

(** A sequence of phase calls made of whole passes, each of them data,
    file and, if the file phase returned nothing, full-text, where
    [successful] is the successful set at the start. *)
Inductive passesFrom :
  list LibraryID -> list (Phase * list LibraryID * list LibraryID) -> Prop :=
| passes_nil successful : passesFrom successful []
| passes_file successful dataIn dataOut fileOut rest :
    passesFrom (keepSuccessful successful dataIn dataOut) rest ->
    passesFrom successful
      ((DataPhase, dataIn, dataOut) :: (FilePhase, dataOut, fileOut) :: rest)
| passes_fullText successful dataIn dataOut ftOut rest :
    passesFrom (keepSuccessful successful dataIn dataOut) rest ->
    passesFrom successful
      ((DataPhase, dataIn, dataOut) :: (FilePhase, dataOut, []) ::
       (FullTextPhase, keepSuccessful successful dataIn dataOut, ftOut) :: rest).

Lemma passesFrom_file successful calls :
  passesFrom successful calls ->
  forall i input output,
    calls !! i = Some (FilePhase, input, output) ->
    exists j dataIn, i = S j /\ calls !! j = Some (DataPhase, dataIn, input).
Proof.
  induction 1 as [|succ din dout fout rest _ IH|succ din dout tout rest _ IH];
    intros i input output Hi.
  - done.
  - destruct i as [|[|i]]; simpl in Hi.
    + discriminate.
    + injection Hi as <- <-. by exists 0%nat, din.
    + destruct (IH _ _ _ Hi) as (j & dataIn & -> & Hj).
      by exists (S (S j)), dataIn.
  - destruct i as [|[|[|i]]]; simpl in Hi.
    + discriminate.
    + injection Hi as <- <-. by exists 0%nat, din.
    + discriminate.
    + destruct (IH _ _ _ Hi) as (j & dataIn & -> & Hj).
      by exists (S (S (S j))), dataIn.
Qed.

Lemma passesFrom_fullText successful calls :
  passesFrom successful calls ->
  forall i input output,
    calls !! i = Some (FullTextPhase, input, output) ->
    (exists j fileIn, i = S j /\ calls !! j = Some (FilePhase, fileIn, [])) /\
    forall l,
      l ∈ input <->
      l ∈ successful /\
      forall j dataIn dataOut,
        (j < i)%nat -> calls !! j = Some (DataPhase, dataIn, dataOut) ->
        l ∈ dataIn -> l ∈ dataOut.
Proof.
  induction 1 as [|succ din dout fout rest _ IH|succ din dout tout rest _ IH];
    intros i input output Hi.
  - done.
  - destruct i as [|[|i]]; simpl in Hi; try discriminate.
    destruct (IH _ _ _ Hi) as [(j & fileIn & -> & Hj) Hmem]. split.
    + by exists (S (S j)), fileIn.
    + intros l. rewrite Hmem, elem_of_keepSuccessful. split.
      * intros [[Hs Hkept] Hrest]. split; [done|].
        intros [|[|k]] dataIn dataOut Hk Hlook; simpl in Hlook.
        -- by injection Hlook as <- <-.
        -- discriminate.
        -- apply (Hrest k); [lia|done].
      * intros [Hs Hall]. split; [split; [done|]|].
        -- by apply (Hall 0%nat); [lia|].
        -- intros k dataIn dataOut Hk Hlook.
           apply (Hall (S (S k))); [lia|done].
  - destruct i as [|[|[|i]]]; simpl in Hi; try discriminate.
    + injection Hi as <- <-. split; [by exists 1%nat, dout|].
      intros l. rewrite elem_of_keepSuccessful. split.
      * intros [Hs Hkept]. split; [done|].
        intros [|[|k]] dataIn dataOut Hk Hlook; simpl in Hlook; try lia.
        -- by injection Hlook as <- <-.
        -- discriminate.
      * intros [Hs Hall]. split; [done|].
        by apply (Hall 0%nat); [lia|].
    + destruct (IH _ _ _ Hi) as [(j & fileIn & -> & Hj) Hmem]. split.
      * by exists (S (S (S j))), fileIn.
      * intros l. rewrite Hmem, elem_of_keepSuccessful. split.
        -- intros [[Hs Hkept] Hrest]. split; [done|].
           intros [|[|[|k]]] dataIn dataOut Hk Hlook; simpl in Hlook.
           ++ by injection Hlook as <- <-.
           ++ discriminate.
           ++ discriminate.
           ++ apply (Hrest k); [lia|done].
        -- intros [Hs Hall]. split; [split; [done|]|].
           ++ by apply (Hall 0%nat); [lia|].
           ++ intros k dataIn dataOut Hk Hlook.
              apply (Hall (S (S (S k)))); [lia|done].
Qed.

Section RetryLoop.

Context {World : Type} `{Collaborators World}.

Implicit Types (s : Runner World) (options : EngineOptions) (st : LoopState).

Lemma syncPass_unfold options st s :
  syncPass options st s =
    match _doDataSync (librariesToSync st) options s with
    | (Thrown e, s1) => (Thrown e, s1)
    | (Normal dataOut, s1) =>
        let successful :=
          keepSuccessful (successfulLibraries st) (librariesToSync st) dataOut in
        match _doFileSync dataOut options s1 with
        | (Thrown e, s2) => (Thrown e, s2)
        | (Normal fileOut, s2) =>
            if nonEmpty fileOut then
              (Normal (Continue (mkLoopState (attempt st + 1) fileOut successful)),
               s2)
            else
              match _doFullTextSync successful options s2 with
              | (Thrown e, s3) => (Thrown e, s3)
              | (Normal ftOut, s3) =>
                  (Normal
                     (if nonEmpty ftOut
                      then Continue (mkLoopState (attempt st + 1) ftOut successful)
                      else Break (mkLoopState (attempt st) ftOut successful)),
                   s3)
              end
        end
    end.
Proof.
  unfold syncPass, bind.
  destruct (_doDataSync (librariesToSync st) options s) as [[dataOut|e] s1];
    [|done].
  rewrite foldl_setDelete.
  fold (keepSuccessful (successfulLibraries st) (librariesToSync st) dataOut).
  cbv zeta.
  destruct (_doFileSync dataOut options s1) as [[fileOut|e] s2]; [|done].
  destruct (nonEmpty fileOut); [done|].
  destruct (_doFullTextSync _ options s2) as [[ftOut|e] s3]; [|done].
  by destruct (nonEmpty ftOut).
Qed.

(** One pass: the calls it makes and the state it hands on. *)
Lemma syncPass_calls options st s :
  let r := syncPass options st s in
  exists evs,
    trace r.2 = trace s ++ evs /\
    match r.1 with
    | Thrown _ => phaseCalls evs = []
    | Normal res =>
        exists dataOut fileOut,
          let successful :=
            keepSuccessful (successfulLibraries st) (librariesToSync st) dataOut in
          if nonEmpty fileOut then
            res = Continue (mkLoopState (attempt st + 1) fileOut successful) /\
            phaseCalls evs =
              [(DataPhase, librariesToSync st, dataOut);
               (FilePhase, dataOut, fileOut)]
          else
            exists ftOut,
              res = (if nonEmpty ftOut
                     then Continue (mkLoopState (attempt st + 1) ftOut successful)
                     else Break (mkLoopState (attempt st) ftOut successful)) /\
              phaseCalls evs =
                [(DataPhase, librariesToSync st, dataOut);
                 (FilePhase, dataOut, fileOut);
                 (FullTextPhase, successful, ftOut)]
    end.
Proof.
  cbv zeta. rewrite syncPass_unfold.
  destruct (doDataSync_calls options (librariesToSync st) s) as (evs1 & Ht1 & Hc1).
  destruct (_doDataSync (librariesToSync st) options s) as [[dataOut|e] s1];
    simpl in *; [|by exists evs1].
  set (successful := keepSuccessful _ _ _).
  destruct (doFileSync_calls options dataOut s1) as (fileOut & evs2 & Hr2 & Ht2 & Hc2).
  destruct (_doFileSync dataOut options s1) as [r2 s2]. simpl in *. subst r2.
  destruct (nonEmpty fileOut) eqn:Hfile.
  - exists (evs1 ++ evs2). simpl. rewrite Ht2, Ht1, app_assoc. split; [done|].
    exists dataOut, fileOut. rewrite Hfile. split; [done|].
    by rewrite phaseCalls_app, Hc1, Hc2.
  - destruct (doFullTextSync_calls options successful s2)
      as (ftOut & evs3 & Hr3 & Ht3 & Hc3).
    destruct (_doFullTextSync successful options s2) as [r3 s3]. simpl in *.
    subst r3. exists (evs1 ++ evs2 ++ evs3).
    assert (Htr : trace s3 = trace s ++ evs1 ++ evs2 ++ evs3).
    { by rewrite Ht3, Ht2, Ht1, <- !app_assoc. }
    assert (Hcalls : phaseCalls (evs1 ++ evs2 ++ evs3) =
              [(DataPhase, librariesToSync st, dataOut);
               (FilePhase, dataOut, fileOut);
               (FullTextPhase, successful, ftOut)]).
    { by rewrite !phaseCalls_app, Hc1, Hc2, Hc3. }
    destruct (nonEmpty ftOut) eqn:Hft; simpl; (split; [exact Htr|]);
      exists dataOut, fileOut; rewrite Hfile; exists ftOut; by rewrite Hft.
Qed.

(** The check at the top of a pass. *)
Lemma loopBody_too_many options st s :
  attempt st > 3 ->
  loopBody options st s =
    (Thrown (length (heap s)), set_heap (heap s ++ [tooManySyncAttempts]) s).
Proof.
  intros Hgt. unfold loopBody.
  destruct (Z.gtb_spec (attempt st) 3); [done|lia].
Qed.

Lemma loopBody_within options st s :
  attempt st <= 3 -> loopBody options st s = syncPass options st s.
Proof.
  intros Hle. unfold loopBody.
  destruct (Z.gtb_spec (attempt st) 3); [lia|done].
Qed.

Lemma retryLoop_unfold fuel options st s :
  retryLoop (S fuel) options st s =
    if nonEmpty (librariesToSync st) then
      match loopBody options st s with
      | (Normal (Continue st'), s') => retryLoop fuel options st' s'
      | (Normal (Break st'), s') => (Normal (Finished st'), s')
      | (Thrown e, s') => (Normal (Aborted e st), s')
      end
    else (Normal (Finished st), s).
Proof.
  simpl. destruct (nonEmpty (librariesToSync st)); [|done].
  unfold bind, tryCatch.
  by destruct (loopBody options st s) as [[[st'|st']|e] s'].
Qed.

Lemma retryLoop_passes fuel options st s :
  let r := retryLoop fuel options st s in
  exists evs,
    trace r.2 = trace s ++ evs /\
    passesFrom (successfulLibraries st) (phaseCalls evs).
Proof.
  revert st s. induction fuel as [|fuel IH]; intros st s.
  - exists []. simpl. destruct (nonEmpty _); simpl;
      (split; [by rewrite app_nil_r|constructor]).
  - cbv zeta. rewrite retryLoop_unfold.
    destruct (nonEmpty (librariesToSync st)).
    2: { exists []. simpl. split; [by rewrite app_nil_r|constructor]. }
    destruct (Z_le_gt_dec (attempt st) 3) as [Hle|Hgt].
    2: { rewrite loopBody_too_many by done. exists []. simpl.
         split; [by rewrite app_nil_r|constructor]. }
    rewrite loopBody_within by done.
    destruct (syncPass_calls options st s) as (evs1 & Ht1 & Hpass).
    destruct (syncPass options st s) as [[res|e] s1]; simpl in *.
    2: { exists evs1. split; [done|]. rewrite Hpass. constructor. }
    destruct Hpass as (dataOut & fileOut & Hpass).
    destruct fileOut as [|lib fileOut]; simpl in Hpass; cycle 1.
    + destruct Hpass as [-> Hcalls].
      set (fileOut' := lib :: fileOut) in *.
      destruct (IH (mkLoopState (attempt st + 1) fileOut'
                      (keepSuccessful (successfulLibraries st)
                         (librariesToSync st) dataOut)) s1)
        as (evs2 & Ht2 & Hrest).
      exists (evs1 ++ evs2). rewrite Ht2, Ht1, app_assoc. split; [done|].
      rewrite phaseCalls_app, Hcalls. simpl. by constructor.
    + destruct Hpass as (ftOut & -> & Hcalls).
      destruct (nonEmpty ftOut).
      * destruct (IH (mkLoopState (attempt st + 1) ftOut
                        (keepSuccessful (successfulLibraries st)
                           (librariesToSync st) dataOut)) s1)
          as (evs2 & Ht2 & Hrest).
        exists (evs1 ++ evs2). rewrite Ht2, Ht1, app_assoc. split; [done|].
        rewrite phaseCalls_app, Hcalls. simpl. by constructor.
      * exists evs1. split; [done|]. rewrite Hcalls. by repeat constructor.
Qed.

End RetryLoop.

Section AttemptBudget.

Context {World : Type} `{Collaborators World}.

Implicit Types (s : Runner World) (options : EngineOptions) (st : LoopState).



Lemma syncPass_continue options st s st' s' :
  syncPass options st s = (Normal (Continue st'), s') ->
  attempt st' = attempt st + 1 /\ nonEmpty (librariesToSync st') = true.
Proof.
  rewrite syncPass_unfold.
  destruct (_doDataSync _ options s) as [[dataOut|e] s1]; [|discriminate].
  cbv zeta.
  destruct (_doFileSync dataOut options s1) as [[fileOut|e] s2]; [|discriminate].
  destruct (nonEmpty fileOut) eqn:Hfile.
  - intros [= <- _]. by simpl.
  - destruct (_doFullTextSync _ options s2) as [[ftOut|e] s3]; [|discriminate].
    destruct (nonEmpty ftOut) eqn:Hft; [|discriminate].
    intros [= <- _]. by simpl.
Qed.

Lemma loopBody_continue options st s st' s' :
  loopBody options st s = (Normal (Continue st'), s') ->
  attempt st <= 3 /\ attempt st' = attempt st + 1 /\
  nonEmpty (librariesToSync st') = true.
Proof.
  destruct (Z_le_gt_dec (attempt st) 3) as [Hle|Hgt].
  - rewrite loopBody_within by done. intros Hpass.
    split; [done|]. by eapply syncPass_continue.
  - by rewrite loopBody_too_many.
Qed.




(** The loop ends within four turns. *)
Lemma retryLoop_total (fuel : nat) options st s :
  (0 < fuel)%nat ->
  4 - attempt st < Z.of_nat fuel ->
  exists r, (retryLoop fuel options st s).1 = Normal r /\ r <> OutOfFuel.
Proof.
  revert st s. induction fuel as [|fuel IH]; intros st s Hpos Hfuel; [lia|].
  rewrite retryLoop_unfold. destruct (nonEmpty _); [|by eexists].
  destruct (loopBody options st s) as [[[st1|st1]|e] s1] eqn:Hbody;
    [|by eexists..].
  apply loopBody_continue in Hbody as (Hle & Hatt & _).
  apply IH; lia.
Qed.


(** C3: in every pass of the retry loop, the File phase is given exactly
    the list the Data phase of that pass returned, and the Full-text phase,
    which runs only when the File phase returned nothing, is given the
    successful set as it is after that Data phase, whatever the File phase
    did.  Over the whole loop: every File-phase call comes right after a
    Data-phase call and takes its output, and the input of every Full-text
    call consists of the libraries of the initial successful set that no
    Data phase so far was given without returning them. *)
Theorem retryLoop_phase_inputs (fuel : nat) options st s :
  (forall st1 s1 res s2,
     syncPass options st1 s1 = (Normal res, s2) ->
     exists evs dataOut fileOut,
       trace s2 = trace s1 ++ evs /\
       let successful :=
         keepSuccessful (successfulLibraries st1) (librariesToSync st1) dataOut in
       if nonEmpty fileOut then
         res = Continue (mkLoopState (attempt st1 + 1) fileOut successful) /\
         phaseCalls evs =
           [(DataPhase, librariesToSync st1, dataOut);
            (FilePhase, dataOut, fileOut)]
       else
         exists ftOut,
           res = (if nonEmpty ftOut
                  then Continue (mkLoopState (attempt st1 + 1) ftOut successful)
                  else Break (mkLoopState (attempt st1) ftOut successful)) /\
           phaseCalls evs =
             [(DataPhase, librariesToSync st1, dataOut);
              (FilePhase, dataOut, fileOut);
              (FullTextPhase, successful, ftOut)]) /\
  (let r := retryLoop fuel options st s in
   exists evs,
     trace r.2 = trace s ++ evs /\
     (forall i input output,
        phaseCalls evs !! i = Some (FilePhase, input, output) ->
        exists j dataIn,
          i = S j /\ phaseCalls evs !! j = Some (DataPhase, dataIn, input)) /\
     (forall i input output,
        phaseCalls evs !! i = Some (FullTextPhase, input, output) ->
        (exists j fileIn,
           i = S j /\ phaseCalls evs !! j = Some (FilePhase, fileIn, [])) /\
        forall l,
          l ∈ input <->
          l ∈ successfulLibraries st /\
          forall j dataIn dataOut,
            (j < i)%nat ->
            phaseCalls evs !! j = Some (DataPhase, dataIn, dataOut) ->
            l ∈ dataIn -> l ∈ dataOut)).
Proof.
  split.
  - intros st1 s1 res s2 Hpass.
    destruct (syncPass_calls options st1 s1) as (evs & Ht & Hcalls).
    rewrite Hpass in Ht, Hcalls. simpl in *.
    destruct Hcalls as (dataOut & fileOut & Hcalls).
    by exists evs, dataOut, fileOut.
  - destruct (retryLoop_passes fuel options st s) as (evs & Ht & Hpasses).
    exists evs. split; [done|]. split.
    + by apply passesFrom_file with (successfulLibraries st).
    + by apply passesFrom_fullText.
Qed.

End AttemptBudget.



(** Scenario C of the specification, end to end: the session of a runner
    whose file phase keeps asking for a data sync makes three passes and
    ends with the error on the icon. *)
Example sync_too_many_attempts :
  let r := @sync nat (scripted resyncScript) 1 plainOptions (initialRunner 0%nat) in
  r.1 = Normal (Some (ReturnUndefined,
                      mkOptions false (Some [1; 2]) false true false)) /\
  phaseCalls (trace r.2) =
    [(DataPhase, [1; 2], [1; 2]); (FilePhase, [1; 2], [1; 2]);
     (DataPhase, [1; 2], [1; 2]); (FilePhase, [1; 2], [1; 2]);
     (DataPhase, [1; 2], [1; 2]); (FilePhase, [1; 2], [1; 2])] /\
  last (trace r.2) = Some (EvNotifyFinish [1; 2]) /\
  EvUpdateIcons (Some TError) [markedObj None tooManySyncAttempts] ∈ trace r.2.
Proof.
  vm_compute. split_and!; try done.
  apply list_elem_of_In. simpl. repeat first [left; reflexivity | right].
Qed.

(** Scenario A of the specification: nothing asked for, a key for the
    personal library, no groups, full-text sync disabled: one pass. *)
Example sync_one_attempt :
  let r := @sync nat (scripted quietScript) 1 plainOptions (initialRunner 0%nat) in
  phaseCalls (trace r.2) =
    [(DataPhase, [1; 2], [1; 2]); (FilePhase, [1; 2], []);
     (FullTextPhase, [1; 2], [])] /\
  last (trace r.2) = Some (EvNotifyFinish []) /\
  _syncInProgress r.2 = false.
Proof. vm_compute. done. Qed.

(** Scenario B of the specification: the file phase asks for a data sync
    of library 2 in the first pass; the second pass syncs the data of
    library 2 only, and the full-text phase then runs over both libraries. *)
Example sync_resync_once :
  let r := @sync nat (scripted resyncOnceScript) 1 plainOptions
             (initialRunner 0%nat) in
  phaseCalls (trace r.2) =
    [(DataPhase, [1; 2], [1; 2]); (FilePhase, [1; 2], [2]);
     (DataPhase, [2], [2]); (FilePhase, [2], []);
     (FullTextPhase, [1; 2], [])].
Proof. vm_compute. done. Qed.

Lemma retryLoop_phase_inputs_witness :
  exists evs,
    phaseCalls evs =
      [(DataPhase, [1; 2], [1; 2]); (FilePhase, [1; 2], [2])] /\
    trace (@syncPass nat (scripted resyncOnceScript) plainEngineOptions
             (mkLoopState 1 [1; 2] [1; 2]) (initialRunner 0%nat)).2 = evs.
Proof.
  destruct (@retryLoop_phase_inputs nat (scripted resyncOnceScript) 4
              plainEngineOptions (mkLoopState 1 [1; 2] [1; 2])
              (initialRunner 0%nat)) as [Hpass _].
  specialize (Hpass (mkLoopState 1 [1; 2] [1; 2]) (initialRunner 0%nat)).
  destruct (@syncPass nat (scripted resyncOnceScript) plainEngineOptions
              (mkLoopState 1 [1; 2] [1; 2]) (initialRunner 0%nat))
    as [[res|e] s2] eqn:Hrun; [|vm_compute in Hrun; discriminate].
  destruct (Hpass res s2 eq_refl) as (evs & dataOut & fileOut & Htrace & _).
  exists evs. split; [|exact Htrace].
  vm_compute in Hrun. injection Hrun as <- <-.
  vm_compute in Htrace. by subst evs.
Defined.

(** ** Library-set resolution *)

Section GroupAccess.

Context {World : Type} `{Collaborators World}.

Implicit Types (s : Runner World).

Definition noLibraryAccess (lib : LibraryID) : ErrObj :=
  newError ("Key does not have access to library " +:+ pretty lib).

Definition fullGroupAccessRequired : ErrObj :=
  newError "Full group access is currently required".

(** The check of the requested libraries either passes, leaving everything
    as it is, or throws for a personal library the key has no access to. *)
Lemma checkLibraryAccess_spec (a : Access) (libs : list LibraryID) s :
  checkLibraryAccess a libs s = (Normal tt, s) \/
  exists lib,
    lib ∈ libs /\
    access_user_library a = false /\
    (libraryType lib (world s) = LTUser \/
     libraryType lib (world s) = LTPublications) /\
    checkLibraryAccess a libs s =
      (Thrown (length (heap s)), set_heap (heap s ++ [noLibraryAccess lib]) s).
Proof.
  induction libs as [|lib rest IH]; simpl; [by left|].
  unfold bind, ask. simpl.
  assert (Hrest :
    checkLibraryAccess a rest s = (Normal tt, s) \/
    exists lib0,
      lib0 ∈ lib :: rest /\ access_user_library a = false /\
      (libraryType lib0 (world s) = LTUser \/
       libraryType lib0 (world s) = LTPublications) /\
      checkLibraryAccess a rest s =
        (Thrown (length (heap s)), set_heap (heap s ++ [noLibraryAccess lib0]) s)).
  { destruct IH as [IH|(lib0 & Hin & Hrest)]; [by left|right].
    exists lib0. split; [by right|done]. }
  destruct (libraryType lib (world s)) eqn:Htype; simpl; try exact Hrest.
  - destruct (access_user_library a) eqn:Hacc; simpl; [exact Hrest|].
    right. exists lib. rewrite Htype. split_and!; try done; [by left|by left].
  - destruct (access_user_library a) eqn:Hacc; simpl; [exact Hrest|].
    right. exists lib. rewrite Htype. split_and!; try done; [by left|by right].
Qed.

(** C8: whenever the key's group-access object is not empty but does not
    grant all-group access, [checkLibraries] fails: it throws an access
    error ("Full group access is currently required", or, when a requested
    personal library is out of the key's reach, the error for that library,
    which is checked first), and it does so before anything is asked of the
    server or changed locally: no group is downloaded, removed or added to
    the list, and no list of libraries is returned. *)
Theorem checkLibraries_partial_group_access (keyInfo : KeyInfo)
    (libs : list LibraryID) s :
  isEmpty (access_groups (access keyInfo)) = false ->
  groups_all (access keyInfo) = false ->
  exists o,
    checkLibraries keyInfo libs s =
      (Thrown (length (heap s)), set_heap (heap s ++ [o]) s) /\
    (o = fullGroupAccessRequired \/
     exists lib,
       lib ∈ libs /\ o = noLibraryAccess lib /\
       access_user_library (access keyInfo) = false /\
       (libraryType lib (world s) = LTUser \/
        libraryType lib (world s) = LTPublications)).
Proof.
  intros Hgroups Hall. unfold checkLibraries.
  rewrite Hgroups, Hall. cbn [negb].
  destruct (nonEmpty libs) eqn:Hne; cbn [negb].
  - unfold bind.
    destruct (checkLibraryAccess_spec (access keyInfo) libs s)
      as [Hok|(lib0 & Hin & Hacc & Htype & Hthrow)].
    + rewrite Hok. exists fullGroupAccessRequired. split; [reflexivity|by left].
    + rewrite Hthrow. exists (noLibraryAccess lib0). split; [reflexivity|].
      right. by exists lib0.
  - exists fullGroupAccessRequired. split; [|by left].
    destruct (access_user_library (access keyInfo)); reflexivity.
Qed.

End GroupAccess.


Lemma checkLibraries_partial_group_access_witness :
  @checkLibraries nat (scripted quietScript) enumeratedKey [] (initialRunner 0%nat)
  = (Thrown 0%nat,
     set_heap [fullGroupAccessRequired] (initialRunner 0%nat)).
Proof.
  destruct (@checkLibraries_partial_group_access nat (scripted quietScript)
              enumeratedKey [] (initialRunner 0%nat) eq_refl eq_refl)
    as (o & Hthrow & Ho).
  rewrite Hthrow. destruct Ho as [->|(lib & Hin & _)]; [reflexivity|].
  by apply elem_of_nil in Hin.
Defined.

(** * Further properties *)

(** ** [parseError] *)

(** What [parseError] makes of an object. *)
Definition parsedObj (o : ErrObj) : ErrObj :=
  if parsed o then o
  else set_errorType (Some (default TError (errorType o))) (set_parsed true o).

Lemma set_heap_id {World} (s : Runner World) : set_heap (heap s) s = s.
Proof. by destruct s. Qed.

Section ParseError.

Context {World : Type} `{Collaborators World}.

Implicit Types (s : Runner World) (e : loc).

Lemma parseError_spec s e :
  (e < length (heap s))%nat ->
  parseError (Some e) s =
    (Normal e, set_heap (<[e := parsedObj (heap s !!! e)]> (heap s)) s).
Proof.
  intros Hlt. unfold parseError, bind, readObj, parsedObj.
  destruct (parsed (heap s !!! e)) eqn:Hparsed.
  - rewrite list_insert_id, set_heap_id; [done|].
    by apply list_lookup_lookup_total_lt.
  - unfold updateObj, modify, ret. simpl.
    rewrite list_lookup_total_insert_eq by assumption.
    unfold set_heap. simpl. by rewrite list_insert_insert_eq.
Qed.

(** X1: [parseError] hands back the object it was given, marked as parsed and
    with an [errorType]: the one it had, or ['error'] if it had none.  No
    other object is touched, and parsing a second time changes nothing. *)
Theorem parseError_idempotent s e :
  (e < length (heap s))%nat ->
  let r := parseError (Some e) s in
  r.1 = Normal e /\
  parsed (heap r.2 !!! e) = true /\
  errorType (heap r.2 !!! e) =
    (if parsed (heap s !!! e) then errorType (heap s !!! e)
     else Some (default TError (errorType (heap s !!! e)))) /\
  (forall e', e' <> e -> heap r.2 !!! e' = heap s !!! e') /\
  parseError (Some e) r.2 = (Normal e, r.2).
Proof.
  intros Hlt. cbv zeta. rewrite (parseError_spec s e Hlt). simpl.
  rewrite list_lookup_total_insert_eq by assumption.
  assert (Hp : parsed (parsedObj (heap s !!! e)) = true).
  { unfold parsedObj. by destruct (parsed (heap s !!! e)) eqn:Hparsed. }
  split_and!; try done.
  - unfold parsedObj. by destruct (parsed (heap s !!! e)).
  - intros e' Hne. by rewrite list_lookup_total_insert_ne.
  - unfold parseError, bind, readObj. simpl.
    rewrite list_lookup_total_insert_eq by assumption. by rewrite Hp.
Qed.

End ParseError.

Lemma parseError_idempotent_witness :
  errorType (heap (@parseError nat (Some 0%nat) oneErrorRunner).2 !!! 0%nat)
  = Some TError.
Proof.
  destruct (@parseError_idempotent nat oneErrorRunner 0%nat)
    as (_ & _ & Htype & _); [simpl; lia|].
  exact Htype.
Defined.

(** ** The queue by library *)

Lemma filter_ext_elem {A} (P Q : A -> Prop) `{forall x, Decision (P x)}
    `{forall x, Decision (Q x)} (l : list A) :
  (forall x, x ∈ l -> P x <-> Q x) -> filter P l = filter Q l.
Proof.
  induction l as [|x l IH]; intros Hext; [done|].
  rewrite !filter_cons.
  assert (Hx : P x <-> Q x) by (apply Hext; by left).
  rewrite IH by (intros y Hy; apply Hext; by right).
  repeat case_decide; tauto || done.
Qed.

Section ErrorsByLibrary.

Context {World : Type} `{Collaborators World}.

Implicit Types (s : Runner World) (e : loc).

(** The errors of the queue as objects, the way [end] hands them to
    [updateIcons]. *)
Definition queuedObjects s : list ErrObj :=
  (fun e => heap s !!! e) <$> _errors s.

(** X2: Queueing a fresh error with [addError] and asking for the errors of a
    library with [getErrorsByLibrary]: the new error comes last in the
    answer for the library it ends up tagged with (the [libraryID] passed
    if that is truthy, else the one the error had, [undefined] included),
    and the answers for all other libraries are as before. *)
Theorem addError_getErrorsByLibrary s e (lib l : option Z) :
  (e < length (heap s))%nat ->
  added (heap s !!! e) = false ->
  e ∉ _errors s ->
  let s1 := (addError e lib s).2 in
  let tag := if truthy lib then lib else libraryID (heap s !!! e) in
  getErrorsByLibrary l s1 =
    getErrorsByLibrary l s ++ (if decide (tag = l) then [e] else []).
Proof.
  intros Hlt Hadded Hfresh. cbv zeta.
  rewrite (addError_unmarked s e lib Hlt Hadded).
  unfold getErrorsByLibrary. simpl. rewrite filter_app. f_equal.
  - apply filter_ext_elem. intros e' Hin.
    rewrite list_lookup_total_insert_ne; [done|]. by intros ->.
  - rewrite filter_cons, filter_nil.
    rewrite list_lookup_total_insert_eq by assumption. simpl.
    destruct (truthy lib); by repeat case_decide.
Qed.

End ErrorsByLibrary.

Lemma addError_getErrorsByLibrary_witness :
  getErrorsByLibrary (Some 5) (@addError nat 0%nat (Some 5) oneErrorRunner).2
  = [0%nat].
Proof.
  rewrite (@addError_getErrorsByLibrary nat oneErrorRunner 0%nat
             (Some 5) (Some 5)).
  - reflexivity.
  - simpl. lia.
  - reflexivity.
  - apply not_elem_of_nil.
Defined.

(** ** The primary error type and the order of the errors *)

Lemma errorTypes_inj (t t' : ErrorType) : errorTypes t = errorTypes t' -> t = t'.
Proof. by destruct t, t'. Qed.

Lemma isMaxOf_unique (errors errors' : list ErrObj) (r r' : option ErrorType) :
  (forall e, e ∈ errors <-> e ∈ errors') ->
  isMaxOf None errors r -> isMaxOf None errors' r' -> r = r'.
Proof.
  intros Hsame Hr Hr'. destruct r as [t|], r' as [t'|]; simpl in *.
  - destruct Hr as ([[=]|(Hna & e & Hin & Hty)] & _ & Hmax).
    destruct Hr' as ([[=]|(Hna' & e' & Hin' & Hty')] & _ & Hmax').
    f_equal. apply errorTypes_inj.
    assert (errorTypes t' <= errorTypes t) by (apply (Hmax e'); [by apply Hsame|done..]).
    assert (errorTypes t <= errorTypes t') by (apply (Hmax' e); [by apply Hsame|done..]).
    lia.
  - destruct Hr as ([[=]|(Hna & e & Hin & Hty)] & _).
    destruct Hr' as [_ Hall]. destruct Hna. apply (Hall e); [by apply Hsame|done].
  - destruct Hr' as ([[=]|(Hna & e & Hin & Hty)] & _).
    destruct Hr as [_ Hall]. destruct Hna. apply (Hall e); [by apply Hsame|done].
  - done.
Qed.

Lemma existsb_fatal_elem (errors : list ErrObj) :
  existsb fatal errors = true <-> exists e, e ∈ errors /\ fatal e = true.
Proof.
  rewrite existsb_exists. split; intros (e & Hin & Hf); exists e;
    (split; [by apply list_elem_of_In|done]).
Qed.

(** X3: The primary error type does not depend on the order in which the
    errors were queued: rearranging the list gives the same answer. *)
Theorem getPrimaryErrorType_Permutation (errors errors' : list ErrObj) :
  errors ≡ₚ errors' ->
  getPrimaryErrorType errors = getPrimaryErrorType errors'.
Proof.
  intros Hperm.
  assert (Hsame : forall e, e ∈ errors <-> e ∈ errors').
  { intros e. by rewrite Hperm. }
  unfold getPrimaryErrorType.
  destruct (existsb fatal errors) eqn:Hf.
  - rewrite (primaryErrorLoop_fatal errors None Hf).
    symmetry. apply primaryErrorLoop_fatal.
    apply existsb_fatal_elem in Hf as (e & Hin & Hfe).
    apply existsb_fatal_elem. exists e. split; [by apply Hsame|done].
  - assert (Hf' : existsb fatal errors' = false).
    { destruct (existsb fatal errors') eqn:Hf'; [|done].
      apply existsb_fatal_elem in Hf' as (e & Hin & Hfe).
      rewrite <- Hf. symmetry. apply existsb_fatal_elem.
      exists e. split; [by apply Hsame|done]. }
    eapply isMaxOf_unique; [exact Hsame|by apply primaryErrorLoop_nonfatal..].
Qed.

Lemma getPrimaryErrorType_Permutation_witness :
  getPrimaryErrorType
    [sampleError (Some TInfo) false; sampleError (Some TWarning) false]
  = Some TWarning.
Proof.
  rewrite (getPrimaryErrorType_Permutation
             [sampleError (Some TInfo) false; sampleError (Some TWarning) false]
             [sampleError (Some TWarning) false; sampleError (Some TInfo) false]).
  - reflexivity.
  - apply perm_swap.
Defined.

(** A list with no primary type holds nothing that counts. *)
Lemma getPrimaryErrorType_None (errors : list ErrObj) :
  getPrimaryErrorType errors = None ->
  forall e, e ∈ errors ->
    fatal e = false /\ forall t, errorType e = Some t -> t = TAnimate.
Proof.
  unfold getPrimaryErrorType. intros Hnone e Hin.
  destruct (existsb fatal errors) eqn:Hf.
  { by rewrite (primaryErrorLoop_fatal errors None Hf) in Hnone. }
  pose proof (primaryErrorLoop_nonfatal errors None Hf) as Hmax.
  rewrite Hnone in Hmax. destruct Hmax as [_ Hall]. split.
  - destruct (fatal e) eqn:Hfe; [|done].
    rewrite <- Hf. symmetry. apply existsb_fatal_elem. by exists e.
  - intros t. by apply Hall.
Qed.

Lemma getPrimaryErrorType_not_animate (errors : list ErrObj) (t : ErrorType) :
  getPrimaryErrorType errors = Some t -> t <> TAnimate.
Proof.
  unfold getPrimaryErrorType. intros Hsome.
  destruct (existsb fatal errors) eqn:Hf.
  { rewrite (primaryErrorLoop_fatal errors None Hf) in Hsome.
    by injection Hsome as <-. }
  pose proof (primaryErrorLoop_nonfatal errors None Hf) as Hmax.
  rewrite Hsome in Hmax. by destruct Hmax as ([[=]|[Hna _]] & _).
Qed.

Section QueueShows.

Context {World : Type} `{Collaborators World}.

Implicit Types (s : Runner World) (e : loc).

(** X4: Once a fresh error whose type is not ['animate'] has gone through
    [addError], the primary error type of the queue is a severity: the
    error icon cannot come out as having nothing to show, whatever else is
    in the queue. *)
Theorem addError_shows s e (lib : option Z) :
  (e < length (heap s))%nat ->
  added (heap s !!! e) = false ->
  parsed (heap s !!! e) = false ->
  errorType (heap s !!! e) <> Some TAnimate ->
  let s1 := (addError e lib s).2 in
  exists t, getPrimaryErrorType (queuedObjects s1) = Some t /\ t <> TAnimate.
Proof.
  intros Hlt Hadded Hparsed Htype. cbv zeta.
  rewrite (addError_unmarked s e lib Hlt Hadded).
  set (s1 := set_errors _ _).
  destruct (getPrimaryErrorType (queuedObjects s1)) as [t|] eqn:Hprimary.
  { exists t. split; [done|]. by eapply getPrimaryErrorType_not_animate. }
  exfalso.
  destruct (getPrimaryErrorType_None _ Hprimary (heap s1 !!! e)) as [_ Hall].
  { unfold queuedObjects. apply list_elem_of_fmap. exists e. split; [done|].
    unfold s1. simpl. apply elem_of_app. right. by left. }
  unfold s1 in Hall. simpl in Hall.
  rewrite list_lookup_total_insert_eq in Hall by assumption.
  simpl in Hall. rewrite Hparsed in Hall.
  destruct (errorType (heap s !!! e)) as [t|] eqn:Hty; simpl in Hall.
  - specialize (Hall t eq_refl). by subst t.
  - by specialize (Hall TError eq_refl).
Qed.

End QueueShows.

Lemma addError_shows_witness :
  getPrimaryErrorType
    (queuedObjects (@addError nat 0%nat None oneErrorRunner).2) = Some TError.
Proof.
  destruct (@addError_shows nat oneErrorRunner 0%nat None)
    as (t & Ht & _); [simpl; lia|reflexivity|reflexivity|discriminate|].
  rewrite Ht. vm_compute in Ht. by injection Ht as <-.
Defined.

(** ** The cache of storage controllers *)

Section StorageControllers.

Context {World : Type} `{Collaborators World}.

Implicit Types (s : Runner World) (mode : string).

Lemma set_storageControllers_id s :
  set_storageControllers (_storageControllers s) s = s.
Proof. by destruct s. Qed.

(** X5: The controller of a mode is built once, from the options of the
    library that asks first.  Whoever asks for the mode afterwards, with
    whatever options, is handed that same controller, and the runner is
    left as it is; the controllers of the other modes are not touched. *)
Theorem getStorageController_cached s mode (lib1 lib2 : LibraryID) :
  let r := getStorageController mode lib1 s in
  getStorageController mode lib2 r.2 = r /\
  (exists c, r.1 = Normal c /\ _storageControllers r.2 !! mode = Some c /\
     (_storageControllers s !! mode = None -> c = mkController mode lib1)) /\
  (forall mode', mode' <> mode ->
     _storageControllers r.2 !! mode' = _storageControllers s !! mode').
Proof.
  cbv zeta. unfold getStorageController, bind, get.
  destruct (_storageControllers s !! mode) as [c|] eqn:Hc; simpl.
  - rewrite ?Hc. split; [done|]. split; [|done]. by exists c.
  - unfold modify, ret. simpl. rewrite !lookup_insert_eq.
    split; [done|]. split.
    + by eexists.
    + intros mode' Hne. by rewrite lookup_insert_ne.
Qed.

(** X6: After [resetStorageController], the next request for the mode builds
    a new controller from the options it is given, whatever was cached;
    and resetting a mode that has no controller changes nothing. *)
Theorem resetStorageController_rebuilds s mode (lib : LibraryID) :
  let s1 := (resetStorageController mode s).2 in
  (getStorageController mode lib s1).1 = Normal (mkController mode lib) /\
  (forall mode', mode' <> mode ->
     _storageControllers s1 !! mode' = _storageControllers s !! mode') /\
  (_storageControllers s !! mode = None -> s1 = s).
Proof.
  cbv zeta. unfold resetStorageController, modify. simpl. split_and!.
  - unfold getStorageController, bind, get. simpl.
    by rewrite lookup_delete_eq.
  - intros mode' Hne. by rewrite lookup_delete_ne.
  - intros Hnone. rewrite delete_id by done.
    apply set_storageControllers_id.
Qed.

End StorageControllers.

(** ** The order of the data engines *)

(** The libraries whose engine of phase [p] was started, as the trace
    shows them. *)
Definition startedIn (p : Phase) (evs : list Event) : list LibraryID :=
  omap (fun ev =>
          match ev with
          | EvEngineStart p' l => if decide (p' = p) then Some l else None
          | _ => None
          end) evs.

Lemma startedIn_app p evs1 evs2 :
  startedIn p (evs1 ++ evs2) = startedIn p evs1 ++ startedIn p evs2.
Proof. apply omap_app. Qed.

Lemma startedIn_reports p evs : Forall isReport evs -> startedIn p evs = [].
Proof.
  induction 1 as [|ev evs Hev _ IH]; [done|].
  destruct ev; simpl in Hev; try done; exact IH.
Qed.

Section DataPhaseOrder.

Context {World : Type} `{Collaborators World}.

Implicit Types (s : Runner World) (options : EngineOptions).

(** One turn of the loop, as the trace shows it. *)
Lemma dataSyncStep_events options lib acc s :
  let r := dataSyncStep options lib acc s in
  exists evs,
    trace r.2 = trace s ++ evs /\
    startedIn DataPhase evs = [lib] /\
    (resolvedIn DataPhase evs = [] \/ resolvedIn DataPhase evs = [lib]) /\
    (EvCallerStop ∈ evs ->
       exists e o,
         EvEngineEnd DataPhase lib (Some (e, o)) ∈ evs /\ fatal o = true) /\
    match r.1 with
    | Normal (Next, _) => EvCallerStop ∉ evs
    | Normal (Stop, _) => EvCallerStop ∈ evs
    | Thrown _ => True
    end.
Proof.
  cbv zeta. destruct (dataEngine_start lib (world s)) as [[[]|o] w] eqn:Hrun.
  - rewrite (dataSyncStep_resolved _ _ _ _ _ Hrun). simpl.
    eexists. split; [reflexivity|]. split; [done|]. split; [by right|].
    split; intros Hin; elem_inv Hin.
  - rewrite (dataSyncStep_rejected _ _ _ _ _ _ Hrun).
    set (e := length (heap s)).
    set (run := [EvEngineStart DataPhase lib;
                 EvEngineEnd DataPhase lib (Some (e, o))]).
    set (s1 := afterRun s w [o] run).
    assert (Ho : heap s1 !!! e = o) by apply afterRun_new.
    assert (Hquiet :
      trace s1 = trace s ++ run /\
      startedIn DataPhase run = [lib] /\
      (resolvedIn DataPhase run = [] \/ resolvedIn DataPhase run = [lib]) /\
      (EvCallerStop ∈ run ->
         exists e0 o0,
           EvEngineEnd DataPhase lib (Some (e0, o0)) ∈ run /\ fatal o0 = true) /\
      (EvCallerStop ∉ run)).
    { split; [done|]. split; [done|]. split; [by left|].
      split; intros Hin; elem_inv Hin. }
    assert (Hreport :
      exists evs,
        trace (afterReport options e s1) = trace s ++ evs /\
        startedIn DataPhase evs = [lib] /\
        (resolvedIn DataPhase evs = [] \/ resolvedIn DataPhase evs = [lib]) /\
        (EvCallerStop ∈ evs ->
           exists e0 o0,
             EvEngineEnd DataPhase lib (Some (e0, o0)) ∈ evs /\ fatal o0 = true) /\
        (if stopOnError || fatal o then EvCallerStop ∈ evs
         else EvCallerStop ∉ evs)).
    { exists (run ++ reportEvents options o e).
      pose proof (reportEvents_isReport options o e) as Hrep.
      pose proof (reportEvents_stop options o e) as Hstop.
      split.
      { change (trace (afterReport options e s1))
          with (trace s1 ++ reportEvents options (heap s1 !!! e) e).
        rewrite Ho. simpl. by rewrite <- app_assoc. }
      split; [by rewrite startedIn_app, (startedIn_reports _ _ Hrep)|].
      split; [left; by rewrite resolvedIn_app, (resolvedIn_reports _ _ Hrep)|].
      split.
      - intros Hin. apply elem_of_app in Hin as [Hin|Hin]; [elem_inv Hin|].
        apply Hstop in Hin. exists e, o. split; [|exact Hin].
        apply elem_of_app. left. right. by left.
      - destruct (stopOnError || fatal o) eqn:Hfatal.
        + apply elem_of_app. right. by apply Hstop.
        + intros Hin. apply elem_of_app in Hin as [Hin|Hin]; [elem_inv Hin|].
          apply Hstop in Hin. discriminate. }
    destruct Hquiet as (Hq1 & Hq2 & Hq3 & Hq4 & Hq5).
    destruct (class o) as [| |[]| | |];
      try (destruct Hreport as (evs & Hr1 & Hr2 & Hr3 & Hr4 & Hr5);
           exists evs; cbn [fst snd]; revert Hr5;
           destruct (stopOnError || fatal o); intros Hr5; by split_and!);
      exists run; by split_and!.
Qed.

Lemma dataSyncLoop_events options libs acc s :
  let r := dataSyncLoop options libs acc s in
  exists evs,
    trace r.2 = trace s ++ evs /\
    startedIn DataPhase evs `prefix_of` libs /\
    sublist (resolvedIn DataPhase evs) libs /\
    (EvCallerStop ∈ evs ->
       exists l e o,
         l ∈ libs /\ EvEngineEnd DataPhase l (Some (e, o)) ∈ evs /\
         fatal o = true) /\
    (startedIn DataPhase evs = libs \/ EvCallerStop ∈ evs \/
     exists e, r.1 = Thrown e).
Proof.
  revert acc s. induction libs as [|lib rest IH]; intros acc s; cbv zeta.
  - exists []. simpl. rewrite app_nil_r. split_and!; try done.
    + intros Hin. by apply elem_of_nil in Hin.
    + by left.
  - simpl. unfold bind.
    destruct (dataSyncStep_events options lib acc s)
      as (evs1 & Ht1 & Hs1 & Hr1 & Hf1 & Hc1).
    assert (Hsub1 : forall k, sublist k rest ->
              sublist (resolvedIn DataPhase evs1 ++ k) (lib :: rest)).
    { intros k Hk. destruct Hr1 as [-> | ->]; simpl.
      - by apply sublist_cons.
      - by apply sublist_skip. }
    assert (Hfatal1 : EvCallerStop ∈ evs1 ->
              exists l e o, l ∈ lib :: rest /\
                EvEngineEnd DataPhase l (Some (e, o)) ∈ evs1 /\ fatal o = true).
    { intros Hin. destruct (Hf1 Hin) as (e & o & Hend & Hfat).
      exists lib, e, o. split; [by left|done]. }
    destruct (dataSyncStep options lib acc s) as [[[c acc1]|e] s1];
      simpl in *.
    + destruct c.
      * destruct (IH acc1 s1) as (evs2 & Ht2 & Hs2 & Hr2 & Hf2 & Hc2).
        exists (evs1 ++ evs2). rewrite Ht2, Ht1, app_assoc.
        rewrite startedIn_app, resolvedIn_app, Hs1. simpl.
        split; [done|]. split; [by apply prefix_cons|].
        split; [by apply Hsub1|]. split.
        -- intros Hin. apply elem_of_app in Hin as [Hin|Hin]; [done|].
           destruct (Hf2 Hin) as (l & e & o & Hl & Hend & Hfat).
           exists l, e, o. split; [by right|]. split; [|done].
           apply elem_of_app. by right.
        -- destruct Hc2 as [->|[Hstop|Hthrown]]; [by left| |by right; right].
           right. left. apply elem_of_app. by right.
      * exists evs1. rewrite Hs1. split; [done|].
        split; [apply prefix_cons, prefix_nil|].
        split; [rewrite <- (app_nil_r (resolvedIn _ _));
                apply Hsub1, sublist_nil_l|].
        split; [done|]. right. by left.
    + exists evs1. rewrite Hs1. split; [done|].
      split; [apply prefix_cons, prefix_nil|].
      split; [rewrite <- (app_nil_r (resolvedIn _ _));
              apply Hsub1, sublist_nil_l|].
      split; [done|]. right. right. by eexists.
Qed.

(** X7: The data engines are started in the order of the list that
    [_doDataSync] is given, each library once and none skipped, and all of
    them are started unless a fatal error stopped the caller or a
    cancellation was rethrown: a failure that is not fatal never keeps the
    libraries after it from syncing.  The caller is stopped only for the
    fatal rejection of one of the libraries, and the libraries that
    completed keep the order of the input. *)
Theorem doDataSync_order options (libs : list LibraryID) s :
  let r := _doDataSync libs options s in
  exists evs,
    trace r.2 = trace s ++ evs /\
    startedIn DataPhase evs `prefix_of` libs /\
    sublist (resolvedIn DataPhase evs) libs /\
    (EvCallerStop ∈ evs ->
       exists l e o,
         l ∈ libs /\ EvEngineEnd DataPhase l (Some (e, o)) ∈ evs /\
         fatal o = true) /\
    (startedIn DataPhase evs = libs \/ EvCallerStop ∈ evs \/
     exists e, r.1 = Thrown e).
Proof.
  cbv zeta. rewrite doDataSync_unfold.
  destruct (dataSyncLoop_events options libs [] s)
    as (evs & Ht & Hs & Hr & Hf & Hc).
  destruct (dataSyncLoop options libs [] s) as [[successful|e] s1];
    simpl in *; [|by exists evs].
  set (tail := (if negb (nonEmpty libs) || nonEmpty successful
                then [EvUpdateLastSyncTime] else []) ++
               [EvPhaseDone DataPhase libs successful]).
  assert (Hstarted : startedIn DataPhase tail = []).
  { unfold tail. by destruct (negb (nonEmpty libs) || nonEmpty successful). }
  assert (Hresolved : resolvedIn DataPhase tail = []).
  { unfold tail. by destruct (negb (nonEmpty libs) || nonEmpty successful). }
  assert (Hnostop : EvCallerStop ∉ tail).
  { unfold tail. destruct (negb (nonEmpty libs) || nonEmpty successful);
      intros Hin; elem_inv Hin. }
  exists (evs ++ tail).
  rewrite startedIn_app, resolvedIn_app, Hstarted, Hresolved, !app_nil_r.
  split; [by rewrite Ht, <- app_assoc|]. split; [done|]. split; [done|].
  split.
  - intros Hin. apply elem_of_app in Hin as [Hin|Hin]; [|done].
    destruct (Hf Hin) as (l & e & o & Hl & Hend & Hfat).
    exists l, e, o. split; [done|]. split; [|done].
    apply elem_of_app. by left.
  - destruct Hc as [Hall|[Hstop|[e He]]]; [by left| |discriminate].
    right. left. apply elem_of_app. by left.
Qed.

End DataPhaseOrder.

(** ** What the file phase returns *)

Section FilePhaseResult.

Context {World : Type} `{Collaborators World}.

Implicit Types (s : Runner World) (options : EngineOptions).

(** The attempts for one library add that library to the list, or
    nothing. *)
Lemma storageAttempts_result tries lib acc s resync :
  (storageAttempts tries lib acc s).1 = Normal resync ->
  resync = acc \/ resync = acc ++ [lib].
Proof.
  revert s. induction tries as [|tries IH]; intros s.
  - by rewrite storageAttempts_exhausted.
  - rewrite storageAttempts_step.
    destruct (storageEngine_start lib (world s)) as [[results|o] w]; [|done].
    simpl. destruct (syncRequired results); [intros [= <-]; by right|].
    destruct (fileSyncRequired results); [apply IH|].
    intros [= <-]. by left.
Qed.

Lemma fileSyncStep_result options lib acc s :
  exists c resync,
    (fileSyncStep options lib acc s).1 = Normal (c, resync) /\
    (resync = acc \/ resync = acc ++ [lib]).
Proof.
  rewrite fileSyncStep_unfold.
  pose proof (storageAttempts_thrown 3 lib acc (withController lib s)) as Hthrown.
  pose proof (storageAttempts_result 3 lib acc (withController lib s)) as Hres.
  destruct (storageAttempts 3 lib acc (withController lib s)) as [[resync|e] s1];
    simpl in *; [by eauto|].
  rewrite reportAndDecide_spec by (by apply Hthrown). simpl. eauto.
Qed.

Lemma fileSyncLoop_result options libs acc s :
  exists added,
    (fileSyncLoop options libs acc s).1 = Normal (acc ++ added) /\
    sublist added libs.
Proof.
  revert acc s. induction libs as [|lib rest IH]; intros acc s; simpl.
  - exists []. by rewrite app_nil_r.
  - unfold bind.
    destruct (fileSyncStep_result options lib acc s) as (c & resync & Hr & Hacc).
    destruct (fileSyncStep options lib acc s) as [r s1]. simpl in Hr. subst r.
    destruct c.
    + destruct (IH resync s1) as (added & Hloop & Hsub).
      destruct Hacc as [-> | ->].
      * exists added. split; [done|]. by apply sublist_cons.
      * exists (lib :: added). rewrite Hloop, <- app_assoc.
        split; [done|]. by apply sublist_skip.
    + destruct Hacc as [-> | ->].
      * exists []. rewrite app_nil_r. split; [done|]. apply sublist_nil_l.
      * exists [lib]. split; [done|]. apply sublist_skip, sublist_nil_l.
Qed.

(** X8: [_doFileSync] never throws: whatever the storage engines do, a
    rejection or the exhaustion of the three attempts included, the phase
    returns a list (the error sink of the caller, like the logging, is
    taken to return normally).  That list is made of libraries it was
    given, in the order in which it was given them: it is a sublist of its
    input. *)
Theorem doFileSync_returns options (libs : list LibraryID) s :
  exists resync,
    (_doFileSync libs options s).1 = Normal resync /\
    sublist resync libs.
Proof.
  unfold _doFileSync, bind, setSyncStatus, modify. simpl.
  set (s0 := set_lastSyncStatus _ s).
  destruct (fileSyncLoop_result options libs [] s0) as (added & Hr & Hsub).
  destruct (fileSyncLoop options libs [] s0) as [r s1]. simpl in Hr. subst r.
  by exists added.
Qed.

End FilePhaseResult.

(** ** Computations that cannot throw *)

Section Yields.

Context {World : Type} `{Collaborators World}.

(** [yields P m]: from every state, [m] returns normally, with a value
    that satisfies [P]. *)
Definition yields {A} (P : A -> Prop) (m : M World A) : Prop :=
  forall s, exists a s', m s = (Normal a, s') /\ P a.

Lemma yields_ret {A} (P : A -> Prop) a : P a -> yields P (ret a).
Proof. intros HP s. by exists a, s. Qed.

Lemma yields_bind {A B} (P : A -> Prop) (Q : B -> Prop)
    (m : M World A) (k : A -> M World B) :
  yields P m -> (forall a, P a -> yields Q (k a)) -> yields Q (bind m k).
Proof.
  intros Hm Hk s. destruct (Hm s) as (a & s1 & Hrun & HP).
  unfold bind. rewrite Hrun. by apply Hk.
Qed.

Lemma yields_mono {A} (P Q : A -> Prop) (m : M World A) :
  (forall a, P a -> Q a) -> yields P m -> yields Q m.
Proof.
  intros HPQ Hm s. destruct (Hm s) as (a & s1 & Hrun & HP).
  exists a, s1. split; [done|]. by apply HPQ.
Qed.

(** A [try] whose handler cannot throw. *)
Lemma yields_tryCatch {A} (P : A -> Prop) (body : M World A)
    (handler : loc -> M World A) :
  (forall s a s', body s = (Normal a, s') -> P a) ->
  (forall e, yields P (handler e)) ->
  yields P (tryCatch body handler).
Proof.
  intros Hbody Hhandler s. unfold tryCatch.
  destruct (body s) as [[a|e] s1] eqn:Hrun.
  - exists a, s1. split; [done|]. by eapply Hbody.
  - apply Hhandler.
Qed.

Definition any {A} (a : A) : Prop := True.

Lemma yields_get : yields any (@get World).
Proof. intros s. by exists s, s. Qed.

Lemma yields_modify f : yields any (@modify World f).
Proof. intros s. by exists tt, (f s). Qed.

Lemma yields_emit ev : yields any (@emit World ev).
Proof. apply yields_modify. Qed.

Lemma yields_alloc o : yields any (@alloc World o).
Proof. intros s. by eexists _, _. Qed.

Lemma yields_readObj e : yields any (@readObj World e).
Proof. intros s. by eexists _, _. Qed.

Lemma yields_updateObj e f : yields any (@updateObj World e f).
Proof. apply yields_modify. Qed.

Lemma yields_ask {A} (f : World -> A) : yields any (ask f).
Proof. intros s. by eexists _, _. Qed.

Lemma yields_call {A} (f : World -> A * World) : yields any (call f).
Proof.
  intros s. unfold call. destruct (f (world s)) as [a w]. by eexists _, _.
Qed.

Lemma yields_any {A} (P : A -> Prop) (m : M World A) :
  yields P m -> yields any m.
Proof. by apply yields_mono. Qed.

End Yields.

(** Chains the rules above through a computation that is made of
    operations that cannot throw. *)
Ltac yields_step :=
  match goal with
  | |- yields _ (bind _ _) => apply (yields_bind any); [|intros ? _]
  | |- yields any (ret _) => by apply yields_ret
  | |- yields any get => apply yields_get
  | |- yields any (modify _) => apply yields_modify
  | |- yields any (emit _) => apply yields_emit
  | |- yields any (alloc _) => apply yields_alloc
  | |- yields any (readObj _) => apply yields_readObj
  | |- yields any (updateObj _ _) => apply yields_updateObj
  | |- yields any (push_error _) => apply yields_modify
  | |- yields any (setSyncStatus _) => apply yields_modify
  | |- yields any (ask _) => apply yields_ask
  | |- yields any (call _) => apply yields_call
  | |- yields _ (if ?b then _ else _) => destruct b
  | |- yields _ (match ?x with _ => _ end) => destruct x
  | |- yields _ (let '(_, _) := ?x in _) => destruct x
  end.

Ltac yields_auto := repeat yields_step.

Section SessionEnd.

Context {World : Type} `{Collaborators World}.

Implicit Types (s : Runner World) (options : Options).

Lemma yields_addError e lib : yields any (@addError World e lib).
Proof. unfold addError, parseError. yields_auto. Qed.

Lemma yields_updateIcons arg : yields any (@updateIcons World arg).
Proof. unfold updateIcons. yields_auto. Qed.

Lemma yields_sessionCatch options e :
  yields any (@sessionCatch World options e).
Proof. unfold sessionCatch. yields_auto; apply yields_addError. Qed.

Lemma yields_loadLibraries libs : yields any (loadLibraries libs).
Proof. induction libs as [|lib rest IH]; simpl; yields_auto. exact IH. Qed.

(** The fixer of long tags never asks for the sync to be restarted. *)
Definition neverRestarts : Prop :=
  forall o options w, (checkError_restart o options w).1 = false.

(** The store after the errors of a queue have all been through
    [checkError]. *)
Definition checkedHeap (errors : list loc) (h : list ErrObj) : list ErrObj :=
  foldl (fun h e => <[e := checkedObj (h !!! e)]> h) h errors.

(** Whether [checkErrors] fails on a queue: a sync that is not a background
    one, options without [libraries], and a queued error to which the fixer
    of long tags is attached. *)
Definition fixerFails options (errors : list loc) (h : list ErrObj) : bool :=
  match libraries options with
  | None =>
      negb (background options) && existsb (fun e => fixable (h !!! e)) errors
  | Some _ => false
  end.

(** The options and the world after the errors of a queue have all been
    through [checkError], when the fixer does not fail: it runs for the
    errors it is attached to, unless the sync is a background one. *)
Fixpoint checked (errors : list loc) (h : list ErrObj) options (w : World)
  : Options * World :=
  match errors with
  | [] => (options, w)
  | e :: rest =>
      let o := checkedObj (h !!! e) in
      let h' := <[e := o]> h in
      if fixable o && negb (background options) then
        let '(restart, w') := checkError_restart o options w in
        checked rest h'
          (if restart then set_restartSync true options else options) w'
      else checked rest h' options w
  end.

Lemma checked_restart errors h options w :
  restartSync options = true ->
  restartSync (checked errors h options w).1 = true.
Proof.
  revert h options w. induction errors as [|e rest IH]; intros h options w Hr;
    simpl; [done|].
  destruct (_ && _); [|by apply IH].
  destruct (checkError_restart _ options w) as [[] w']; by apply IH.
Qed.

Lemma checked_neverRestarts errors h options w :
  neverRestarts -> (checked errors h options w).1 = options.
Proof.
  intros Hnever. revert h w. induction errors as [|e rest IH]; intros h w;
    simpl; [done|].
  destruct (_ && _); [|by apply IH].
  pose proof (Hnever (checkedObj (h !!! e)) options w) as Hno.
  destruct (checkError_restart _ options w) as [restart w'].
  simpl in Hno. subst restart. apply IH.
Qed.

(** A background sync runs no fixer. *)
Lemma checked_background errors h options w :
  background options = true -> checked errors h options w = (options, w).
Proof.
  intros Hbg. revert h. induction errors as [|e rest IH]; intros h;
    simpl; [done|].
  rewrite Hbg, andb_false_r. apply IH.
Qed.

(** The fixer leaves the libraries and the background mark of the options
    as they are. *)
Lemma checked_libraries errors h options w :
  libraries (checked errors h options w).1 = libraries options /\
  background (checked errors h options w).1 = background options.
Proof.
  revert h options w. induction errors as [|e rest IH]; intros h options w;
    simpl; [done|].
  destruct (_ && _); [|by apply IH].
  destruct (checkError_restart _ options w) as [[] w']; [|apply IH].
  by destruct (IH (<[e := checkedObj (h !!! e)]> h)
                 (set_restartSync true options) w') as [-> ->].
Qed.

Lemma checkedHeap_length errors h : length (checkedHeap errors h) = length h.
Proof.
  unfold checkedHeap. revert h.
  induction errors as [|e rest IH]; intros h; simpl; [done|].
  by rewrite IH, length_insert.
Qed.

(** The queued objects are classified, the others are as they were. *)
Lemma checkedHeap_lookup errors h e :
  checkedHeap errors h !!! e =
    if decide (e ∈ errors) then checkedObj (h !!! e) else h !!! e.
Proof.
  unfold checkedHeap. revert h.
  induction errors as [|a rest IH]; intros h; simpl.
  - reflexivity.
  - rewrite IH.
    destruct (decide (e = a)) as [->|Hne].
    + rewrite insert_checkedObj_lookup, checkedObj_idemp.
      destruct (decide (a ∈ a :: rest)) as [_|Hout]; [by case_decide|].
      exfalso. apply Hout. by left.
    + rewrite list_lookup_total_insert_ne by done.
      destruct (decide (e ∈ rest)) as [Hin|Hout];
        destruct (decide (e ∈ a :: rest)) as [Hin'|Hout']; try done.
      * exfalso. apply Hout'. by right.
      * apply elem_of_cons in Hin' as [?|?]; done.
Qed.

Lemma fixable_checkedObj o : fixable (checkedObj o) = fixable o.
Proof. unfold fixable. by rewrite checkedObj_class. Qed.

Lemma fixable_insert_checkedObj (h : list ErrObj) e e' :
  fixable (<[e := checkedObj (h !!! e)]> h !!! e') = fixable (h !!! e').
Proof.
  destruct (decide (e' = e)) as [->|Hne].
  - by rewrite insert_checkedObj_lookup, fixable_checkedObj.
  - by rewrite list_lookup_total_insert_ne.
Qed.

Lemma fixerFails_insert options errors (h : list ErrObj) e :
  fixerFails options errors (<[e := checkedObj (h !!! e)]> h)
  = fixerFails options errors h.
Proof.
  unfold fixerFails. destruct (libraries options); [done|]. f_equal.
  induction errors as [|e' rest IH]; simpl; [done|].
  by rewrite fixable_insert_checkedObj, IH.
Qed.

Lemma fixerFails_background options errors h :
  background options = true -> fixerFails options errors h = false.
Proof. intros Hbg. unfold fixerFails. rewrite Hbg. by destruct (libraries _). Qed.

Lemma fixerFails_libraries options errors h :
  is_Some (libraries options) -> fixerFails options errors h = false.
Proof. intros [libs Hlibs]. unfold fixerFails. by rewrite Hlibs. Qed.

Lemma fixerFails_unfixable options errors (h : list ErrObj) :
  Forall (fun e => fixable (h !!! e) = false) errors ->
  fixerFails options errors h = false.
Proof.
  intros Hall. unfold fixerFails. destruct (libraries options); [done|].
  apply andb_false_intro2.
  induction Hall as [|e rest He _ IH]; simpl; [done|]. by rewrite He.
Qed.

Lemma fixerFails_nil options h : fixerFails options [] h = false.
Proof. apply fixerFails_unfixable. constructor. Qed.

Lemma checkErrors_spec errors options s :
  fixerFails options errors (heap s) = false ->
  checkErrors errors options s =
    (Normal (checked errors (heap s) options (world s)).1,
     set_world (checked errors (heap s) options (world s)).2
       (set_trace (trace s ++ (EvCheckError <$> errors))
          (set_heap (checkedHeap errors (heap s)) s))).
Proof.
  revert options s. induction errors as [|e rest IH]; intros options s Hsafe;
    simpl.
  - destruct s. unfold ret, set_world, set_trace, set_heap. simpl.
    by rewrite app_nil_r.
  - unfold bind at 1. rewrite checkError_spec. cbv zeta.
    assert (Hrest : forall options', libraries options' = libraries options ->
              background options' = background options ->
              fixerFails options' rest
                (<[e := checkedObj (heap s !!! e)]> (heap s)) = false).
    { intros options' Hl Hb. rewrite fixerFails_insert.
      unfold fixerFails in *. rewrite Hl, Hb.
      destruct (libraries options); [done|]. simpl in Hsafe.
      destruct (background options); [done|]. simpl in *.
      by apply orb_false_elim in Hsafe as [_ ?]. }
    destruct (fixable _ && negb _) eqn:Hfix.
    + destruct (libraries options) as [libs|] eqn:Hlibs.
      * destruct (checkError_restart _ options (world s)) as [restart w'].
        simpl. rewrite IH by (apply Hrest; by destruct restart).
        simpl. unfold set_world, set_trace, set_heap. simpl.
        by rewrite <- app_assoc.
      * exfalso. unfold fixerFails in Hsafe. rewrite Hlibs in Hsafe.
        simpl in Hsafe. rewrite fixable_checkedObj in Hfix.
        apply andb_prop in Hfix as [Hf Hb]. rewrite Hf, Hb in Hsafe.
        discriminate.
    + simpl. rewrite IH by (by apply Hrest).
      simpl. unfold set_world, set_trace, set_heap. simpl.
      by rewrite <- app_assoc.
Qed.

(** When the fixer fails, [checkErrors] throws at the first error it is
    attached to: the errors before it have been classified, nothing else
    has happened. *)
Lemma checkErrors_fails errors options s :
  fixerFails options errors (heap s) = true ->
  exists pre e post,
    errors = pre ++ e :: post /\
    fixable (heap s !!! e) = true /\
    Forall (fun e' => fixable (heap s !!! e') = false) pre /\
    checkErrors errors options s =
      (Thrown (length (heap s)),
       set_trace (trace s ++ (EvCheckError <$> pre ++ [e]))
         (set_heap (checkedHeap (pre ++ [e]) (heap s) ++ [librariesUndefined])
            s)).
Proof.
  revert s. induction errors as [|a rest IH]; intros s Hfails.
  { unfold fixerFails in Hfails. destruct (libraries options); [done|].
    simpl in Hfails. by rewrite andb_false_r in Hfails. }
  assert (Hlibs : libraries options = None).
  { unfold fixerFails in Hfails. by destruct (libraries options). }
  assert (Hbg : background options = false).
  { unfold fixerFails in Hfails. rewrite Hlibs in Hfails.
    by destruct (background options). }
  simpl. unfold bind at 1. rewrite checkError_spec. cbv zeta.
  rewrite fixable_checkedObj, Hbg, Hlibs, andb_true_r.
  destruct (fixable (heap s !!! a)) eqn:Hfix.
  - exists [], a, rest. split; [done|]. split; [done|]. split; [constructor|].
    unfold afterCheck. simpl. by rewrite length_insert.
  - simpl.
    destruct (IH (afterCheck a s))
      as (pre & e & post & -> & He & Hpre & Hrun).
    { unfold afterCheck. simpl. rewrite fixerFails_insert.
      unfold fixerFails in *. rewrite Hlibs, Hbg in *. simpl in *.
      by rewrite Hfix in Hfails. }
    exists (a :: pre), e, post. split; [done|].
    unfold afterCheck in He, Hpre. simpl in He, Hpre.
    rewrite fixable_insert_checkedObj in He. split; [done|]. split.
    { constructor; [done|]. eapply Forall_impl; [exact Hpre|].
      intros e'. simpl. by rewrite fixable_insert_checkedObj. }
    rewrite Hrun. unfold afterCheck, checkedHeap. simpl.
    rewrite length_insert. unfold set_trace, set_heap. simpl.
    by rewrite <- app_assoc.
Qed.

(** The objects of the queue, as [end] hands them to [updateIcons]: they
    have been through [checkError]. *)
Definition classifiedQueue s : list ErrObj :=
  (fun e => checkedObj (heap s !!! e)) <$> _errors s.

(** What [end] shows on the icons: the queue, unless a restart is asked
    for. *)
Definition shown options s : list Event :=
  if restartSync options then []
  else [EvUpdateIcons (getPrimaryErrorType (classifiedQueue s))
          (classifiedQueue s)].

Lemma classifiedQueue_checkedHeap s :
  (fun e => checkedHeap (_errors s) (heap s) !!! e) <$> _errors s
  = classifiedQueue s.
Proof.
  unfold classifiedQueue. apply list_fmap_ext. intros i e Hin.
  rewrite checkedHeap_lookup, decide_True; [done|].
  by eapply list_elem_of_lookup_2.
Qed.

(** Classifying does not change the severity of a queue. *)
Lemma primaryErrorLoop_checkedObj (errors : list ErrObj) state :
  primaryErrorLoop (checkedObj <$> errors) state
  = primaryErrorLoop errors state.
Proof.
  revert state. induction errors as [|o rest IH]; intros state; simpl; [done|].
  rewrite checkedObj_fatal, checkedObj_errorType.
  destruct (fatal o); [done|].
  destruct (errorType o) as [t|]; [|apply IH].
  destruct (errorTypes t <? 0); [apply IH|].
  destruct state as [st|]; [|apply IH].
  destruct (errorTypes t >? errorTypes st); apply IH.
Qed.

Lemma classifiedQueue_primary s :
  getPrimaryErrorType (classifiedQueue s)
  = getPrimaryErrorType (queuedObjects s).
Proof.
  unfold getPrimaryErrorType, classifiedQueue, queuedObjects.
  rewrite <- (primaryErrorLoop_checkedObj ((fun e => heap s !!! e) <$> _)).
  by rewrite <- list_fmap_compose.
Qed.

Lemma end_spec options s :
  fixerFails options (_errors s) (heap s) = false ->
  let c := checked (_errors s) (heap s) options (world s) in
  end_ options s =
    (Normal c.1,
     mkRunner false (_firstInSession s) []
       (if restartSync c.1 then _lastSyncStatus s else None)
       (_storageControllers s) (checkedHeap (_errors s) (heap s))
       (trace s ++ (EvCheckError <$> _errors s) ++ shown c.1 s) c.2).
Proof.
  intros Hsafe. cbv zeta. unfold end_, bind at 1, get. unfold bind at 1.
  rewrite checkErrors_spec by done.
  destruct (checked (_errors s) (heap s) options (world s)) as [options' w].
  unfold shown. simpl. destruct (restartSync options'); simpl.
  - unfold bind, modify, ret. simpl. by rewrite app_nil_r.
  - unfold bind, get, updateIcons, emit, modify, setSyncStatus, modify, ret.
    simpl. by rewrite classifiedQueue_checkedHeap, <- app_assoc.
Qed.

(** When the fixer fails, [end] stops there: the queue is not shown and
    not emptied, and the in-progress flag stays as it is. *)
Lemma end_fails options s :
  fixerFails options (_errors s) (heap s) = true ->
  exists pre e post,
    _errors s = pre ++ e :: post /\
    fixable (heap s !!! e) = true /\
    Forall (fun e' => fixable (heap s !!! e') = false) pre /\
    end_ options s =
      (Thrown (length (heap s)),
       set_trace (trace s ++ (EvCheckError <$> pre ++ [e]))
         (set_heap (checkedHeap (pre ++ [e]) (heap s) ++ [librariesUndefined])
            s)).
Proof.
  intros Hfails.
  destruct (checkErrors_fails _ _ _ Hfails)
    as (pre & e & post & Heq & He & Hpre & Hrun).
  exists pre, e, post. split_and!; try done.
  unfold end_, bind at 1, get. unfold bind at 1. by rewrite Hrun.
Qed.

(** X9: [end] classifies the queued errors in the order of the queue, which
    leaves each of them with the remediation that [checkError] attaches
    and every other object as it was.  Then it hands to [updateIcons] the
    objects of the queue, in the order of the queue and as classified,
    with their primary error type (that of the queue before), unless the
    caller or the fixer of long tags has asked for a restart: then the
    queued errors are dropped without having been shown.  In both cases it
    leaves the queue empty and the in-progress flag down; the
    first-in-session flag is as it was, a restart that was asked for stays
    asked for, and in a background sync, where no fixer runs, the options
    are as they were.

    There is one case in which [end] does not get this far: the sync is not
    a background one, the options have no [libraries], and the fixer is
    attached to a queued error.  Then the fixer fails, and [end] with it,
    at the first such error: the errors up to it have been classified,
    nothing is shown, the queue is not emptied and the in-progress flag is
    left as it is.  (The fixer, where it runs, and the update of the
    windows are taken to return.) *)
Theorem end_resets options s :
  if fixerFails options (_errors s) (heap s) then
    exists t s' pre e post,
      end_ options s = (Thrown t, s') /\
      _errors s = pre ++ e :: post /\
      fixable (heap s !!! e) = true /\
      Forall (fun e' => fixable (heap s !!! e') = false) pre /\
      heap s' !!! t = librariesUndefined /\
      _errors s' = _errors s /\
      _syncInProgress s' = _syncInProgress s /\
      world s' = world s /\
      trace s' = trace s ++ (EvCheckError <$> pre ++ [e])
  else
    exists options' s',
      end_ options s = (Normal options', s') /\
      _errors s' = [] /\
      _syncInProgress s' = false /\
      _firstInSession s' = _firstInSession s /\
      (restartSync options = true -> restartSync options' = true) /\
      (background options = true -> options' = options) /\
      (forall e,
         heap s' !!! e =
           (if decide (e ∈ _errors s) then checkedObj (heap s !!! e)
            else heap s !!! e)) /\
      let queue := (fun e => heap s' !!! e) <$> _errors s in
      getPrimaryErrorType queue = getPrimaryErrorType (queuedObjects s) /\
      trace s' =
        trace s ++ (EvCheckError <$> _errors s) ++
        (if restartSync options' then []
         else [EvUpdateIcons (getPrimaryErrorType queue) queue]).
Proof.
  destruct (fixerFails options (_errors s) (heap s)) eqn:Hfails.
  - destruct (end_fails _ _ Hfails)
      as (pre & e & post & Heq & He & Hpre & Hrun).
    eexists _, _, pre, e, post. split; [exact Hrun|].
    cbn [_errors _syncInProgress heap trace world set_trace set_heap].
    split_and!; try done.
    rewrite <- (checkedHeap_length (pre ++ [e]) (heap s)).
    by rewrite list_lookup_total_middle.
  - eexists _, _. split; [by apply end_spec|]. cbn [_errors _syncInProgress
      _firstInSession heap trace fst snd].
    rewrite classifiedQueue_checkedHeap.
    split_and!; try done.
    + apply checked_restart.
    + intros Hbg. by rewrite checked_background.
    + apply checkedHeap_lookup.
    + apply classifiedQueue_primary.
Qed.

End SessionEnd.

(** ** A session always ends *)

(** Computations that leave the error queue alone and throw only fresh
    objects, which satisfy [P]. *)
Section Quiet.

Context {World : Type} `{Collaborators World}.

Definition quiet {A} (P : ErrObj -> Prop) (m : M World A) : Prop :=
  forall s,
    _errors (m s).2 = _errors s /\
    forall e, (m s).1 = Thrown e -> P (heap (m s).2 !!! e).

Lemma quiet_still {A} P (m : M World A) :
  (forall s, _errors (m s).2 = _errors s /\ exists a, (m s).1 = Normal a) ->
  quiet P m.
Proof.
  intros Hm s. destruct (Hm s) as [He [a Ha]]. split; [done|].
  intros e. by rewrite Ha.
Qed.

Lemma quiet_ret {A} P (a : A) : quiet P (ret a).
Proof. apply quiet_still. intros s. by eauto. Qed.

Lemma quiet_ask {A} P (f : World -> A) : quiet P (ask f).
Proof. apply quiet_still. intros s. by eauto. Qed.

Lemma quiet_call {A} P (f : World -> A * World) : quiet P (call f).
Proof.
  apply quiet_still. intros s. unfold call.
  destruct (f (world s)) as [a w]. by eauto.
Qed.

Lemma quiet_act P (f : World -> World) : quiet P (act f).
Proof. apply quiet_still. intros s. by eauto. Qed.

Lemma quiet_emit P ev : quiet P (@emit World ev).
Proof. apply quiet_still. intros s. by eauto. Qed.

Lemma quiet_throwNew {A} (P : ErrObj -> Prop) o :
  P o -> quiet P (@throwNew World A o).
Proof.
  intros HP s. split; [done|]. intros e [= <-]. simpl.
  by rewrite list_lookup_total_middle.
Qed.

Lemma quiet_await {A} (P : ErrObj -> Prop)
    (f : World -> EngineOutcome A * World) :
  (forall w o w', f w = (Rejected o, w') -> P o) -> quiet P (await f).
Proof.
  intros Hf s. unfold await, bind, call.
  destruct (f (world s)) as [[a|o] w] eqn:Hrun; simpl; [done|].
  split; [done|]. intros e [= <-].
  rewrite list_lookup_total_middle by done. by eapply Hf.
Qed.

(** A computation that ends well is made of steps that end well. *)
Lemma bind_Normal {A B} (m : M World A) (k : A -> M World B) s b s' :
  bind m k s = (Normal b, s') ->
  exists a s1, m s = (Normal a, s1) /\ k a s1 = (Normal b, s').
Proof.
  unfold bind. destruct (m s) as [[a|e] s1]; [|discriminate]. by eauto.
Qed.

Lemma quiet_bind {A B} P (m : M World A) (k : A -> M World B) :
  quiet P m -> (forall a, quiet P (k a)) -> quiet P (bind m k).
Proof.
  intros Hm Hk s. unfold bind. destruct (Hm s) as [He1 Ht1].
  destruct (m s) as [[a|e] s1]; simpl in *.
  - destruct (Hk a s1) as [He2 Ht2]. split; [congruence|done].
  - split; [done|]. intros e' [= <-]. by apply Ht1.
Qed.

End Quiet.

Ltac quiet_step :=
  match goal with
  | |- quiet _ (bind _ _) => apply quiet_bind; [|intros ?]
  | |- quiet _ (ret _) => apply quiet_ret
  | |- quiet _ (ask _) => apply quiet_ask
  | |- quiet _ (call _) => apply quiet_call
  | |- quiet _ (act _) => apply quiet_act
  | |- quiet _ (emit _) => apply quiet_emit
  | |- quiet _ (if ?b then _ else _) => destruct b
  | |- quiet _ (match ?x with _ => _ end) => destruct x
  | |- quiet _ (let '(_, _) := ?x in _) => destruct x
  end.

Ltac quiet_auto := repeat quiet_step.

Section SessionEnds.

Context {World : Type} `{Collaborators World}.

Implicit Types (s : Runner World) (options : Options).

(** The requests that [sync] makes before the libraries are known (for the
    key information, the versions of the groups and the groups) do not fail
    with an upload error for a tag that is too long. *)
Definition clientErrorsUnfixable : Prop :=
  (forall w o w', getKeyInfo w = (Rejected o, w') -> fixable o = false) /\
  (forall u w o w',
     getGroupVersions u w = (Rejected o, w') -> fixable o = false) /\
  (forall g w o w', getGroup g w = (Rejected o, w') -> fixable o = false).

Section BootstrapQuiet.

Variable P : ErrObj -> Prop.
Hypothesis P_Error : forall msg, P (newError msg).
Hypothesis P_ZoteroError : forall msg code, P (newZoteroError msg code).
Hypothesis P_getKeyInfo :
  forall w o w', getKeyInfo w = (Rejected o, w') -> P o.
Hypothesis P_getGroupVersions :
  forall u w o w', getGroupVersions u w = (Rejected o, w') -> P o.
Hypothesis P_getGroup :
  forall g w o w', getGroup g w = (Rejected o, w') -> P o.

Lemma quiet_checkAccess : quiet P checkAccess.
Proof.
  unfold checkAccess. apply quiet_bind; [by apply quiet_await|].
  intros json. quiet_auto; by apply quiet_throwNew.
Qed.

Lemma quiet_checkEmptyLibrary keyInfo : quiet P (checkEmptyLibrary keyInfo).
Proof. unfold checkEmptyLibrary. quiet_auto. Qed.

Lemma quiet_checkLibraryAccess a libs : quiet P (checkLibraryAccess a libs).
Proof.
  induction libs as [|lib rest IH]; simpl; quiet_auto;
    solve [exact IH | by apply quiet_throwNew].
Qed.

Lemma quiet_remoteGroupsLoop syncAll versions libs groupsToDownload :
  quiet P (remoteGroupsLoop syncAll versions libs groupsToDownload).
Proof.
  revert libs groupsToDownload.
  induction versions as [|[id version] rest IH]; intros libs gtd; simpl.
  - apply quiet_ret.
  - apply quiet_bind; [apply quiet_ask|]. intros group.
    destruct syncAll, group; repeat case_decide;
      repeat (destruct (_ <? _)); apply IH.
Qed.

Lemma quiet_missingGroupsLoop groups removed :
  quiet P (missingGroupsLoop groups removed).
Proof.
  revert removed. induction groups as [|group rest IH]; intros removed; simpl.
  - apply quiet_ret.
  - apply quiet_bind; [apply quiet_call|]. intros index.
    destruct (index =? 0); [apply IH|].
    destruct (index =? 1); [apply quiet_ret|apply IH].
Qed.

Lemma quiet_eraseGroupsLoop removed acc : quiet P (eraseGroupsLoop removed acc).
Proof.
  revert acc. induction removed as [|[g|] rest IH]; intros acc; simpl.
  - apply quiet_ret.
  - quiet_auto. apply IH.
  - by apply quiet_throwNew.
Qed.

Lemma quiet_downloadGroupsLoop gtd libs : quiet P (downloadGroupsLoop gtd libs).
Proof.
  revert libs. induction gtd as [|g rest IH]; intros libs; simpl.
  - apply quiet_ret.
  - apply quiet_bind; [apply quiet_await, P_getGroup|]. intros [info|].
    + quiet_auto; apply IH.
    + by apply quiet_throwNew.
Qed.

Lemma quiet_checkLibraries keyInfo libs : quiet P (checkLibraries keyInfo libs).
Proof.
  unfold checkLibraries. cbv zeta.
  apply quiet_bind.
  { destruct (negb (nonEmpty libs)).
    - quiet_auto.
    - apply quiet_bind; [apply quiet_checkLibraryAccess|].
      intros _. apply quiet_ret. }
  intros libs1. apply quiet_bind.
  { destruct (negb (isEmpty _)); [|quiet_auto].
    apply quiet_bind.
    { destruct (groups_all _); [apply quiet_ret|by apply quiet_throwNew]. }
    intros _.
    apply quiet_bind; [apply quiet_await, P_getGroupVersions|].
    intros versions.
    apply quiet_bind; [apply quiet_ask|]. intros skipped.
    apply quiet_bind; [apply quiet_remoteGroupsLoop|]. intros r.
    quiet_auto. }
  intros [[libs2 gtd] missing].
  apply quiet_bind.
  { destruct (nonEmpty missing); [|apply quiet_ret].
    apply quiet_bind; [apply quiet_missingGroupsLoop|].
    intros [removed|]; [|apply quiet_ret].
    apply quiet_bind; [apply quiet_eraseGroupsLoop|]. intros ids.
    apply quiet_ret. }
  intros [libs3|]; [|apply quiet_ret].
  apply quiet_bind; [apply quiet_downloadGroupsLoop|]. intros libs4.
  apply quiet_ret.
Qed.

(** [bootstrap] leaves the queue alone, and what it fails with satisfies
    [P]. *)
Lemma bootstrap_quiet options s :
  _errors (bootstrap options s).2 = _errors s /\
  forall e, (bootstrap options s).1 = Normal (Failed e) ->
            P (heap (bootstrap options s).2 !!! e).
Proof.
  unfold bootstrap, tryCatch.
  match goal with
  | |- context [bind checkAccess ?k] =>
      assert (Hbody : quiet P (bind checkAccess k))
  end.
  { apply quiet_bind; [apply quiet_checkAccess|]. intros keyInfo.
    apply quiet_bind; [apply quiet_checkEmptyLibrary|]. intros go.
    destruct (negb go); [apply quiet_ret|].
    apply quiet_bind; [apply quiet_call|]. intros sameUser.
    destruct (negb sameUser); [apply quiet_ret|].
    apply quiet_bind; [apply quiet_checkLibraries|]. intros libs.
    apply quiet_ret. }
  destruct (Hbody s) as [Herrors Hthrown].
  destruct (bind checkAccess _ s) as [[b|e] s1] eqn:Hrun; simpl in *.
  - split; [done|]. intros e [= ->]. exfalso.
    apply bind_Normal in Hrun as (keyInfo & s2 & _ & Hrun).
    apply bind_Normal in Hrun as (go & s3 & _ & Hrun).
    destruct (negb go); [discriminate|].
    apply bind_Normal in Hrun as (sameUser & s4 & _ & Hrun).
    destruct (negb sameUser); [discriminate|].
    apply bind_Normal in Hrun as (libs & s5 & _ & Hrun). discriminate.
  - split; [done|]. intros e' [= <-]. by apply Hthrown.
Qed.

End BootstrapQuiet.

Lemma yields_bootstrap options : yields any (bootstrap options).
Proof.
  unfold bootstrap. apply yields_tryCatch; [done|].
  intros e. by apply yields_ret.
Qed.

Lemma yields_retryLoop (engineOptions : EngineOptions) libs :
  yields (fun r => r <> OutOfFuel)
    (retryLoop 4 engineOptions (mkLoopState 1 libs (newSet libs))).
Proof.
  intros s.
  destruct (retryLoop_total 4 engineOptions
              (mkLoopState 1 libs (newSet libs)) s)
    as (r & Hr & Hfuel); [lia|simpl; lia|].
  destruct (retryLoop 4 engineOptions _ s) as [r' s']. simpl in Hr. subst r'.
  by exists r, s'.
Qed.

(** No queued error has the fixer of long tags attached. *)
Definition unfixableQueue s : Prop :=
  Forall (fun e => fixable (heap s !!! e) = false) (_errors s).

Lemma insert_class (h : list ErrObj) e (g : ErrObj -> ErrObj) e' :
  (forall o, class (g o) = class o) ->
  class (<[e := g (h !!! e)]> h !!! e') = class (h !!! e').
Proof.
  intros Hg. destruct (decide (e' = e)) as [->|Hne].
  - destruct (decide (e < length h)%nat) as [Hlt|Hge].
    + by rewrite list_lookup_total_insert_eq.
    + by rewrite list_insert_ge by lia.
  - by rewrite list_lookup_total_insert_ne.
Qed.

(** [addError] returns, changes the class of no object, and queues at most
    the error it is given. *)
Lemma addError_summary e lib s :
  exists s',
    addError e lib s = (Normal tt, s') /\
    (forall e', class (heap s' !!! e') = class (heap s !!! e')) /\
    (_errors s' = _errors s \/ _errors s' = _errors s ++ [e]).
Proof.
  unfold addError, bind at 1, readObj at 1.
  destruct (added (heap s !!! e)); [by exists s; auto|].
  unfold bind at 1, updateObj at 1, modify at 1.
  set (s1 := set_heap _ s).
  assert (H1 : forall e', class (heap s1 !!! e') = class (heap s !!! e')).
  { intros e'. unfold s1. simpl. by apply insert_class. }
  assert (Hq1 : _errors s1 = _errors s) by done. clearbody s1.
  unfold bind at 1.
  assert (Hlib : exists s2,
    (if truthy lib then updateObj e (set_libraryID lib) else ret tt) s1
      = (Normal tt, s2) /\
    (forall e', class (heap s2 !!! e') = class (heap s !!! e')) /\
    _errors s2 = _errors s).
  { destruct (truthy lib).
    - eexists. split; [reflexivity|]. split; [|done].
      intros e'. simpl. rewrite <- H1. by apply insert_class.
    - by exists s1. }
  destruct Hlib as (s2 & -> & H2 & Hq2). clear s1 H1 Hq1.
  unfold bind at 1, emit at 1, modify at 1.
  set (s3 := set_trace _ s2).
  assert (H3 : forall e', class (heap s3 !!! e') = class (heap s !!! e')).
  { intros e'. apply H2. }
  assert (Hq3 : _errors s3 = _errors s) by done. clearbody s3.
  unfold bind at 1, parseError, bind at 1, readObj at 1.
  destruct (parsed (heap s3 !!! e)).
  - eexists. split; [reflexivity|]. split; [done|]. right. simpl. by rewrite Hq3.
  - unfold bind, updateObj, modify, ret, push_error, modify. simpl.
    eexists. split; [reflexivity|]. split.
    + intros e'. simpl. rewrite <- H3.
      rewrite (insert_class _ e (fun o => set_errorType _ o)) by done.
      by apply insert_class.
    + right. simpl. by rewrite Hq3.
Qed.

(** The [catch] block returns, and it leaves in the queue no error with
    the fixer attached if there was none and the error it is given has
    none. *)
Lemma sessionCatch_safe options e s :
  exists s',
    sessionCatch options e s = (Normal tt, s') /\
    (unfixableQueue s -> fixable (heap s !!! e) = false ->
     unfixableQueue s').
Proof.
  assert (Hadd : forall e1 s1,
    (forall e', e' ∈ _errors s1 -> fixable (heap s1 !!! e') = false) ->
    fixable (heap s1 !!! e1) = false ->
    exists s', addError e1 None s1 = (Normal tt, s') /\ unfixableQueue s').
  { intros e1 s1 Hq1 He1.
    destruct (addError_summary e1 None s1) as (s' & Hrun & Hclass & Hq).
    exists s'. split; [done|]. unfold unfixableQueue.
    apply Forall_forall. intros e' Hin. unfold fixable.
    rewrite Hclass. fold (fixable (heap s1 !!! e')).
    destruct Hq as [Hq|Hq]; rewrite Hq in Hin; [by apply Hq1|].
    apply elem_of_app in Hin as [Hin|Hin]; [by apply Hq1|].
    apply list_elem_of_singleton in Hin. by subst e'. }
  unfold sessionCatch, bind at 1, readObj at 1.
  destruct (decide (class (heap s !!! e) = BrowserOfflineException))
    as [Hoff|Hon].
  - rewrite Hoff. unfold bind at 1. unfold bind at 1, alloc at 1.
    unfold bind at 1, emit at 1, modify at 1.
    unfold bind at 1, modify at 1. unfold ret at 1.
    set (s1 := set_errors [] _).
    assert (Ho : heap s1 !!! length (heap s)
                 = newZoteroError "general.browserIsOffline" 0).
    { unfold s1. simpl. by rewrite list_lookup_total_middle. }
    unfold bind at 1, readObj at 1. rewrite Ho.
    cbn [class newZoteroError].
    destruct (onError options).
    + eexists. split; [reflexivity|]. intros _ _. by constructor.
    + destruct (Hadd (length (heap s)) s1) as (s' & Hrun & Hq').
      * intros e' Hin. by apply elem_of_nil in Hin.
      * by rewrite Ho.
      * exists s'. by split.
  - assert (Hsame :
      (match class (heap s !!! e) with
       | BrowserOfflineException =>
           e0 <- alloc (newZoteroError "general.browserIsOffline" 0) ;;
           emit (EvLogError e0) ;;; modify (set_errors []) ;;; ret e0
       | _ => ret e
       end) s = (Normal e, s)).
    { by destruct (class (heap s !!! e)). }
    unfold bind at 1. rewrite Hsame. unfold bind at 1, readObj at 1.
    destruct (class (heap s !!! e)) eqn:Hclass; try done;
      try (destruct (onError options);
           [eexists; split; [reflexivity|]; by intros Hq _
           |destruct (addError_summary e None s) as (s' & Hrun & Hc & Hq);
            exists s'; split; [done|]; intros Hqs He;
            destruct (Hadd e s) as (s'' & Hrun' & Hq'');
            [intros e' Hin; by apply (proj1 (Forall_forall _ _) Hqs)
            |done
            |by rewrite Hrun in Hrun'; injection Hrun' as <-]]).
    eexists. split; [reflexivity|]. by intros Hq _.
Qed.

(** The [try] and [catch] of [sync] always hand over to the [finally]
    block. *)
Lemma session_returns options :
  yields (fun r => exists result options' libs,
                     r = Some (result, options', libs))
    (session options).
Proof.
  unfold session. apply (yields_bind any); [apply yields_ask|].
  intros apiKey _. destruct apiKey; simpl.
  - apply (yields_bind any); [apply yields_get|]. intros s0 _.
    apply (yields_bind any).
    { destruct (_firstInSession s0).
      - apply (yields_bind any); [apply yields_modify|]. intros _ _.
        by apply yields_ret.
      - by apply yields_ret. }
    intros options1 _.
    apply (yields_bind any); [apply yields_updateIcons|]. intros _ _.
    apply (yields_bind any); [apply yields_bootstrap|]. intros b _.
    destruct b as [libs| |e].
    + apply (yields_bind any); [apply yields_get|]. intros s1 _.
      apply (yields_bind any); [apply yields_loadLibraries|]. intros _ _.
      eapply yields_bind; [apply yields_retryLoop|].
      intros r Hfuel. destruct r as [st|e st|]; [| |done].
      * apply yields_ret. by eexists _, _, _.
      * apply (yields_bind any); [apply yields_sessionCatch|]. intros _ _.
        apply yields_ret. by eexists _, _, _.
    + apply (yields_bind any).
      { apply yields_tryCatch; [done|]. intros e. by apply yields_ret. }
      intros [options2|e] _.
      * apply yields_ret. by eexists _, _, _.
      * apply (yields_bind any); [apply yields_sessionCatch|]. intros _ _.
        apply yields_ret. by eexists _, _, _.
    + apply (yields_bind any); [apply yields_sessionCatch|]. intros _ _.
      apply yields_ret. by eexists _, _, _.
  - apply (yields_bind any); [apply yields_alloc|]. intros e _.
    apply (yields_bind any); [apply yields_sessionCatch|]. intros _ _.
    apply yields_ret. by eexists _, _, _.
Qed.

(** What makes sure that the fixer does not fail in a session: a background
    sync, libraries given by the caller, or a client that fails with no
    such error before the libraries are known. *)
Definition fixerSafe options : Prop :=
  background options = true \/ is_Some (libraries options) \/
  clientErrorsUnfixable.

(** The [try] and [catch] of [sync] hand over to the [finally] block, with
    a queue that [end] gets through. *)
Lemma session_safe options s :
  _errors s = [] ->
  fixerSafe options ->
  exists result options1 ll s1,
    session options s = (Normal (Some (result, options1, ll)), s1) /\
    fixerFails options1 (_errors s1) (heap s1) = false /\
    fixerSafe options1 /\
    (neverRestarts -> restartSync options1 = restartSync options).
Proof.
  intros Hempty Hsafe.
  assert (Hsafety : forall options1 s1,
    background options1 = background options ->
    libraries options1 = libraries options ->
    (clientErrorsUnfixable -> unfixableQueue s1) ->
    fixerFails options1 (_errors s1) (heap s1) = false /\ fixerSafe options1).
  { intros options1 s1 Hbg Hlibs Hq. split.
    - destruct Hsafe as [Hb|[Hl|Hc]].
      + apply fixerFails_background. congruence.
      + apply fixerFails_libraries. congruence.
      + by apply fixerFails_unfixable, Hq.
    - unfold fixerSafe. rewrite Hbg, Hlibs. exact Hsafe. }
  unfold session, bind at 1, ask.
  destruct (getAPIKey (world s)); cbn [negb].
  2: { unfold bind at 1, alloc at 1. set (s1 := set_heap _ s).
       destruct (sessionCatch_safe options (length (heap s)) s1)
         as (s2 & Hrun & Hq).
       unfold bind at 1. rewrite Hrun. unfold ret.
       eexists _, _, _, _. split; [reflexivity|].
       destruct (Hsafety options s2) as [Hf Hs]; try done.
       intros _. apply Hq.
       - unfold unfixableQueue, s1. simpl. rewrite Hempty. constructor.
       - unfold s1. simpl. by rewrite list_lookup_total_middle. }
  unfold bind at 1, get at 1. unfold bind at 1.
  set (first := if _firstInSession s then _ else _).
  assert (Hfirst : exists options1 s2,
    first s = (Normal options1, s2) /\
    background options1 = background options /\
    libraries options1 = libraries options /\
    restartSync options1 = restartSync options /\
    _errors s2 = []).
  { unfold first. destruct (_firstInSession s).
    - by eexists _, _.
    - by eexists _, _. }
  destruct Hfirst as (options1 & s2 & -> & Hbg1 & Hlibs1 & Hr1 & Hq2).
  clear first. unfold bind at 1.
  unfold updateIcons at 1. cbn [fst snd].
  unfold bind at 1, emit at 1, modify at 1, setSyncStatus at 1, modify at 1.
  set (s3 := set_lastSyncStatus _ _).
  assert (Hq3 : _errors s3 = []) by (by unfold s3; simpl).
  clearbody s3. unfold bind at 1.
  destruct (yields_bootstrap options1 s3) as (b & s4 & Hboot & _).
  rewrite Hboot.
  assert (Hq4 : _errors s4 = []).
  { pose proof (proj1 (bootstrap_quiet (fun _ => True)
        ltac:(done) ltac:(done) ltac:(done) ltac:(done) ltac:(done)
        options1 s3)) as Hq.
    rewrite Hboot in Hq. simpl in Hq. congruence. }
  destruct b as [libs| |e].
  - unfold bind at 1, get at 1.
    destruct (yields_loadLibraries libs s4) as (u & s5 & Hload & _).
    unfold bind at 1. rewrite Hload.
    match goal with
    | |- context [retryLoop 4 ?eo ?st] =>
        destruct (yields_retryLoop eo libs s5) as (r & s6 & Hloop & Hfuel)
    end.
    unfold bind at 1. rewrite Hloop.
    assert (Hready : fixerFails (set_libraries (Some libs) options1)
                       (_errors s6) (heap s6) = false /\
                     fixerSafe (set_libraries (Some libs) options1)).
    { split; [by apply fixerFails_libraries|]. right. left. by eexists. }
    destruct r as [st|e st|]; [| |done].
    + eexists _, _, _, _. split; [reflexivity|]. split; [apply Hready|].
      split; [apply Hready|]. intros _. simpl. congruence.
    + destruct (sessionCatch_safe (set_libraries (Some libs) options1) e s6)
        as (s7 & Hcatch & _).
      unfold bind at 1. rewrite Hcatch. unfold ret.
      eexists _, _, _, _. split; [reflexivity|].
      split; [by apply fixerFails_libraries|].
      split; [apply Hready|]. intros _. simpl. congruence.
  - unfold tryCatch at 1, bind at 1. unfold bind at 1.
    rewrite end_spec by (rewrite Hq4; apply fixerFails_nil).
    rewrite Hq4. cbn [checked fst snd]. unfold ret.
    eexists _, _, _, _. split; [reflexivity|].
    destruct (Hsafety options1
                (mkRunner false (_firstInSession s4) []
                   (if restartSync options1 then _lastSyncStatus s4 else None)
                   (_storageControllers s4) (checkedHeap [] (heap s4))
                   (trace s4 ++ (EvCheckError <$> []) ++ shown options1 s4)
                   (world s4))) as [Hf Hs]; try done.
    { intros _. constructor. }
  - destruct (sessionCatch_safe options1 e s4) as (s5 & Hcatch & Hq5).
    unfold bind at 1. rewrite Hcatch. unfold ret.
    eexists _, _, _, _. split; [reflexivity|].
    destruct (Hsafety options1 s5) as [Hf Hs]; try done.
    intros [Hk [Hv Hg]]. apply Hq5.
    + unfold unfixableQueue. rewrite Hq4. constructor.
    + pose proof (proj2 (bootstrap_quiet (fun o => fixable o = false)
          ltac:(done) ltac:(done) Hk Hv Hg options1 s3) e) as Hfailed.
      rewrite Hboot in Hfailed. by apply Hfailed.
Qed.

(** The state in which [sync] enters its [try] block. *)
Definition started s : Runner World :=
  set_trace (trace s ++ [EvPurgeDataObjects])
    (set_syncInProgress true (set_errors [] s)).

Lemma sync_unfold (fuel : nat) options s :
  _syncInProgress s = false ->
  sync (S fuel) options s =
    match session options (started s) with
    | (Normal None, s1) => (Normal None, s1)
    | (Normal (Some (result, options1, libs)), s1) =>
        match end_ options1 s1 with
        | (Normal options2, s2) =>
            if restartSync options2 then
              match sync fuel (set_restartSync false options2) s2 with
              | (Normal r, s3) =>
                  (Normal ((fun r => (ReturnUndefined, r.2)) <$> r), s3)
              | (Thrown e, s3) => (Thrown e, s3)
              end
            else
              (Normal (Some (result, options2)),
               set_trace (trace s2 ++ [EvNotifyFinish (default [] libs)]) s2)
        | (Thrown e, s2) => (Thrown e, s2)
        end
    | (Thrown e, s1) => (Thrown e, s1)
    end.
Proof.
  intros Hidle. cbn [sync]. set (again := sync fuel).
  unfold bind at 1, modify at 1. unfold bind at 1, get at 1.
  cbn [_syncInProgress set_errors]. rewrite Hidle.
  unfold bind at 1, modify at 1. unfold bind at 1, emit at 1, modify at 1.
  unfold bind at 1.
  match goal with
  | |- context [session options ?x] => change x with (started s)
  end.
  destruct (session options (started s)) as [[[[[result options1] libs]|]|e] s1];
    [|done..].
  unfold bind at 1.
  destruct (end_ options1 s1) as [[options2|e] s2]; [|done].
  destruct (restartSync options2); [|done].
  unfold bind. by destruct (again _ s2) as [[r|e] s3].
Qed.

(** X10: A call of [sync] that is not rejected as re-entrant does not throw:
    whatever the server, the engines and the user answer is caught and
    reported (the purge, the error sink of the caller, the update of the
    windows and the notifier are taken to return normally, and so is the
    fixer of long tags where it runs).  When the call returns the session
    is over: the in-progress flag is down, the error queue is empty, and
    the last thing that happened is the ['finish'] notification.  This
    holds on every path: a missing key, an error in the [try] block, a
    user who declines, a restart.  The call does return if neither the
    caller nor a remediation asks for a restart.

    The condition is what keeps the fixer from being run without
    [options.libraries], which makes [end] fail: the sync is a background
    one, or the caller names the libraries, or no request made before the
    libraries are known fails with an upload error for a tag that is too
    long. *)
Theorem sync_ends_session (fuel : nat) options s :
  _syncInProgress s = false ->
  background options = true \/ is_Some (libraries options) \/
    clientErrorsUnfixable ->
  exists r s',
    sync fuel options s = (Normal r, s') /\
    (is_Some r ->
       _syncInProgress s' = false /\
       _errors s' = [] /\
       exists libs, last (trace s') = Some (EvNotifyFinish libs)) /\
    (neverRestarts -> restartSync options = false -> (0 < fuel)%nat ->
     is_Some r).
Proof.
  revert options s. induction fuel as [|fuel IH]; intros options s Hidle Hsafe.
  { exists None, s. split; [done|]. split; [by intros [? [=]]|]. lia. }
  rewrite sync_unfold by done.
  destruct (session_safe options (started s) eq_refl Hsafe)
    as (result & options1 & libs & s1 & Hsession & Hfix & Hsafe1 & Hr1).
  rewrite Hsession.
  pose proof (end_spec options1 s1 Hfix) as Hend. cbv zeta in Hend.
  rewrite Hend.
  set (c := checked (_errors s1) (heap s1) options1 (world s1)) in *.
  destruct (restartSync c.1) eqn:Hrestart.
  - set (s2 := mkRunner _ _ _ _ _ _ _ _).
    destruct (IH (set_restartSync false c.1) s2 eq_refl)
      as (r & s3 & Hagain & Hover & _).
    { destruct (checked_libraries (_errors s1) (heap s1) options1 (world s1))
        as [Hl Hb].
      fold c in Hl, Hb. unfold fixerSafe in Hsafe1. simpl.
      by rewrite Hl, Hb. }
    rewrite Hagain. eexists _, s3. split; [done|]. split.
    + intros Hsome. apply Hover. destruct r; [by eexists|].
      by destruct Hsome as [? [=]].
    + intros Hnever Hno _. exfalso.
      unfold c in Hrestart. rewrite checked_neverRestarts in Hrestart by done.
      rewrite Hr1 in Hrestart by done. congruence.
  - eexists _, _. split; [done|]. simpl. split; [|by eauto].
    intros _. split; [done|]. split; [done|].
    eexists. by rewrite last_snoc.
Qed.

End SessionEnds.

(** Without the condition the statement fails: when the request for the key
    information fails with an upload error for a tag that is too long, in a
    sync that is not a background one and for which the caller has named
    no libraries, [end] runs the fixer without [options.libraries].  The
    call of [sync] then throws, and the runner is left with a session in
    progress and the error in the queue. *)
Example sync_stuck_without_libraries :
  let r := @sync nat (failingKeyInfo tagTooLong quietScript) 1 plainOptions
             (initialRunner 0%nat) in
  r.1 = Thrown 1%nat /\
  heap r.2 !!! 1%nat = librariesUndefined /\
  _syncInProgress r.2 = true /\
  _errors r.2 = [0%nat] /\
  trace r.2 =
    [EvPurgeDataObjects; EvUpdateIcons (Some TAnimate) []; EvLogError 0%nat;
     EvCheckError 0%nat].
Proof. vm_compute. done. Qed.

Lemma sync_ends_session_witness :
  _syncInProgress
    (@sync nat (scripted quietScript) 1 plainOptions (initialRunner 0%nat)).2
  = false.
Proof.
  destruct (@sync_ends_session nat (scripted quietScript) 1 plainOptions
              (initialRunner 0%nat) eq_refl) as (r & s' & Hrun & Hover & Hsome).
  - right. right. split_and!; intros; discriminate.
  - rewrite Hrun. simpl. apply Hover, Hsome; [|reflexivity|lia].
    intros o options w. reflexivity.
Defined.

(** ** What the ['finish'] notification carries *)

Section Finish.

Context {World : Type} `{Collaborators World}.

Implicit Types (s : Runner World) (options : EngineOptions) (st : LoopState).

Lemma syncPass_break options st s st' s' :
  syncPass options st s = (Normal (Break st'), s') -> librariesToSync st' = [].
Proof.
  rewrite syncPass_unfold.
  destruct (_doDataSync _ options s) as [[dataOut|e] s1]; [|discriminate].
  cbv zeta.
  destruct (_doFileSync dataOut options s1) as [[fileOut|e] s2]; [|discriminate].
  destruct (nonEmpty fileOut); [discriminate|].
  destruct (_doFullTextSync _ options s2) as [[ftOut|e] s3]; [|discriminate].
  destruct ftOut as [|l ftOut]; [|discriminate].
  by intros [= <- _].
Qed.

(** X11: When the retry loop of [sync] is left normally, the variable
    [librariesToSync] is empty, whatever was synced: the loop ends when a
    pass leaves nothing to sync again.  This variable is what [sync] hands
    to the ['finish'] notification, so the notification of a session that
    completed carries an empty list; it names libraries only when the loop
    was left by an exception. *)
Theorem retryLoop_finished (fuel : nat) options st s st' s' :
  retryLoop fuel options st s = (Normal (Finished st'), s') ->
  librariesToSync st' = [].
Proof.
  revert st s. induction fuel as [|fuel IH]; intros st s.
  - simpl. destruct (librariesToSync st) eqn:Hlibs; simpl; [|discriminate].
    by intros [= <- _].
  - rewrite retryLoop_unfold.
    destruct (librariesToSync st) as [|l libs] eqn:Hlibs; simpl.
    { by intros [= <- _]. }
    destruct (loopBody options st s) as [[[st1|st1]|e] s1] eqn:Hbody;
      [apply IH| |discriminate].
    intros [= <- _]. unfold loopBody in Hbody.
    destruct (attempt st >? 3); [discriminate|].
    by eapply syncPass_break.
Qed.

End Finish.

Lemma retryLoop_finished_witness :
  exists st',
    (@retryLoop nat (scripted quietScript) 4 plainEngineOptions
       (mkLoopState 1 [1; 2] [1; 2]) (initialRunner 0%nat)).1
    = Normal (Finished st') /\
    librariesToSync st' = [] /\ successfulLibraries st' = [1; 2].
Proof.
  destruct (@retryLoop nat (scripted quietScript) 4 plainEngineOptions
              (mkLoopState 1 [1; 2] [1; 2]) (initialRunner 0%nat))
    as [r s'] eqn:Hrun.
  pose proof Hrun as Hvalue. vm_compute in Hvalue.
  injection Hvalue as <- _. eexists. split; [reflexivity|].
  split; [|reflexivity].
  exact (@retryLoop_finished nat (scripted quietScript) _ _ _ _ _ _ Hrun).
Defined.

(** ** Errors of the session itself *)

Section SessionErrors.

Context {World : Type} `{Collaborators World}.

Implicit Types (s : Runner World) (options : Options) (e : loc).

(** The message that takes the place of a browser-offline exception. *)
Definition browserIsOffline : ErrObj :=
  newZoteroError "general.browserIsOffline" 0.

(** X12: When the [try] block of [sync] fails because the browser is offline,
    the exception itself is not reported.  A [Zotero.Error] with the
    offline message is made and logged, and the error queue is emptied
    before it is reported: with no sink of the caller, the queue then holds
    this one error and nothing of what the session had queued so far; with
    a sink, the sink gets it and the queue stays empty. *)
Theorem sessionCatch_offline options e s :
  class (heap s !!! e) = BrowserOfflineException ->
  let e' := length (heap s) in
  sessionCatch options e s =
    (Normal tt,
     mkRunner (_syncInProgress s) (_firstInSession s)
       (if onError options then [] else [e'])
       (_lastSyncStatus s) (_storageControllers s)
       (heap s ++
        [if onError options then browserIsOffline
         else markedObj None browserIsOffline])
       (trace s ++
        [EvLogError e';
         if onError options then EvSinkError e' else EvLogError e'])
       (world s)).
Proof.
  intros Hclass. cbv zeta. unfold sessionCatch, bind at 1, readObj at 1.
  rewrite Hclass. unfold bind at 1. unfold bind at 1, alloc at 1.
  unfold bind at 1, emit at 1, modify at 1.
  unfold bind at 1, modify at 1. unfold ret at 1.
  set (s1 := set_errors [] _).
  assert (Ho : heap s1 !!! length (heap s) = browserIsOffline).
  { unfold s1. simpl. by rewrite list_lookup_total_middle. }
  assert (Hlt : (length (heap s) < length (heap s1))%nat).
  { unfold s1. simpl. rewrite length_app. simpl. lia. }
  unfold bind, readObj. rewrite Ho. simpl.
  destruct (onError options).
  - unfold emit, modify. unfold s1. simpl. by rewrite <- app_assoc.
  - rewrite addError_unmarked by (by rewrite ?Ho).
    rewrite Ho. unfold s1. simpl.
    rewrite <- app_assoc. simpl.
    rewrite insert_app_r_alt by lia. by rewrite Nat.sub_diag.
Qed.

End SessionErrors.

Section NoAPIKey.

Context {World : Type} `{Collaborators World}.

Implicit Types (s : Runner World) (options : Options).

Definition apiKeyNotSet : ErrObj :=
  newZoteroError "API key not set" ERROR_API_KEY_NOT_SET.

(** The error of a sync without an API key, as the session leaves it:
    queued by [addError], then classified by [checkError]. *)
Definition apiKeyNotSetShown : ErrObj :=
  checkedObj (markedObj None apiKeyNotSet).

Lemma apiKeyNotSetShown_eq :
  apiKeyNotSetShown =
    mkErr (ZoteroError ERROR_API_KEY_NOT_SET) "sync.error.invalidLogin.text"
      false true true (Some TError) None
      (Some "sync.openSyncPreferences") (Some OpenSyncPreferences).
Proof.
  unfold apiKeyNotSetShown, checkedObj. simpl. by rewrite Z.eqb_refl.
Qed.

(** The state in which a sync without an API key ends. *)
Lemma sync_no_api_key_state (fuel : nat) options s :
  _syncInProgress s = false ->
  getAPIKey (world s) = false ->
  onError options = false ->
  restartSync options = false ->
  let e := length (heap s) in
  let o := apiKeyNotSetShown in
  sync (S fuel) options s =
    (Normal (Some (ReturnUndefined, options)),
     mkRunner false (_firstInSession s) [] None (_storageControllers s)
       (heap s ++ [o])
       (trace s ++
        [EvPurgeDataObjects; EvLogError e; EvCheckError e;
         EvUpdateIcons (Some TError) [o]; EvNotifyFinish []])
       (world s)).
Proof.
  intros Hidle Hkey Hsink Hrestart. cbv zeta.
  rewrite sync_unfold by done.
  assert (Hsession :
    session options (started s) =
      (Normal (Some (ReturnUndefined, options, None)),
       mkRunner true (_firstInSession s) [length (heap s)]
         (_lastSyncStatus s) (_storageControllers s)
         (heap s ++ [markedObj None apiKeyNotSet])
         (trace s ++ [EvPurgeDataObjects; EvLogError (length (heap s))])
         (world s))).
  { unfold session, bind at 1, ask. cbn [world started set_trace set_syncInProgress set_errors].
    rewrite Hkey. cbn [negb]. unfold bind at 1, alloc at 1.
    set (s1 := set_heap _ _).
    assert (Ho : heap s1 !!! length (heap s) = apiKeyNotSet).
    { unfold s1. simpl. by rewrite list_lookup_total_middle. }
    assert (Hlt : (length (heap s) < length (heap s1))%nat).
    { unfold s1. simpl. rewrite length_app. simpl. lia. }
    cbn [heap started set_trace set_syncInProgress set_errors].
    unfold bind at 1.
    assert (Hcatch :
      sessionCatch options (length (heap s)) s1 =
        addError (length (heap s)) None s1).
    { unfold sessionCatch, bind, readObj. rewrite Ho. simpl.
      rewrite list_lookup_total_middle by done. simpl. by rewrite Hsink. }
    rewrite Hcatch, addError_unmarked by (by rewrite ?Ho).
    rewrite Ho. unfold s1, ret. simpl.
    rewrite insert_app_r_alt by lia. rewrite Nat.sub_diag. simpl.
    by rewrite <- app_assoc. }
  rewrite Hsession.
  pose proof (end_spec options
    (mkRunner true (_firstInSession s) [length (heap s)]
       (_lastSyncStatus s) (_storageControllers s)
       (heap s ++ [markedObj None apiKeyNotSet])
       (trace s ++ [EvPurgeDataObjects; EvLogError (length (heap s))])
       (world s))) as Hend.
  cbv zeta in Hend. rewrite Hend; clear Hend Hsession.
  2: { apply fixerFails_unfixable. constructor; [|constructor]. simpl.
       by rewrite list_lookup_total_middle. }
  unfold shown, classifiedQueue, checkedHeap.
  cbn [_errors heap world checked foldl fmap list_fmap].
  rewrite !list_lookup_total_middle by done.
  fold apiKeyNotSetShown.
  assert (Hfix : fixable apiKeyNotSetShown = false).
  { by rewrite apiKeyNotSetShown_eq. }
  rewrite Hfix. cbn [andb fst snd].
  rewrite Hrestart. cbn [trace default].
  assert (Hprimary : getPrimaryErrorType [apiKeyNotSetShown] = Some TError).
  { by rewrite apiKeyNotSetShown_eq. }
  rewrite Hprimary.
  rewrite insert_app_r_alt by lia. rewrite Nat.sub_diag.
  unfold set_trace. simpl. by rewrite <- !app_assoc.
Qed.

(** X13: A sync without an API key asks nothing of the server and starts no
    engine.  It reports a [Zotero.Error] with the code
    [ERROR_API_KEY_NOT_SET]: the error is logged and queued, classified by
    [end], which replaces its message by the one for a login that is not
    valid and gives it the button that opens the sync preferences, and
    shown on the icons as an ['error']; the session then ends with a
    ['finish'] notification for no library.  The first-in-session flag is
    not used up.  (No sink of the caller, and no restart asked for.) *)
Theorem sync_no_api_key (fuel : nat) options s :
  _syncInProgress s = false ->
  getAPIKey (world s) = false ->
  onError options = false ->
  restartSync options = false ->
  let e := length (heap s) in
  exists s' shown,
    sync (S fuel) options s = (Normal (Some (ReturnUndefined, options)), s') /\
    _syncInProgress s' = false /\
    _errors s' = [] /\
    _firstInSession s' = _firstInSession s /\
    class (heap s' !!! e) = ZoteroError ERROR_API_KEY_NOT_SET /\
    class <$> shown = [ZoteroError ERROR_API_KEY_NOT_SET] /\
    shown = [heap s' !!! e] /\
    message <$> shown = ["sync.error.invalidLogin.text"] /\
    dialogButtonText <$> shown = [Some "sync.openSyncPreferences"] /\
    world s' = world s /\
    trace s' =
      trace s ++
      [EvPurgeDataObjects; EvLogError e; EvCheckError e;
       EvUpdateIcons (Some TError) shown; EvNotifyFinish []].
Proof.
  intros Hidle Hkey Hsink Hrestart. cbv zeta.
  eexists _, [apiKeyNotSetShown]. split.
  { by apply sync_no_api_key_state. }
  cbn [_syncInProgress _errors _firstInSession heap trace world].
  rewrite list_lookup_total_middle by done.
  rewrite apiKeyNotSetShown_eq. by split_and!.
Qed.

End NoAPIKey.

Lemma sessionCatch_offline_witness :
  _errors (@sessionCatch nat plainOptions 1%nat offlineRunner).2 = [2%nat].
Proof.
  rewrite (@sessionCatch_offline nat plainOptions 1%nat offlineRunner eq_refl).
  reflexivity.
Defined.

Lemma sync_no_api_key_witness :
  (@sync nat (answering noKey quietScript) 1 plainOptions
     (initialRunner 0%nat)).1
  = Normal (Some (ReturnUndefined, plainOptions)).
Proof.
  destruct (@sync_no_api_key nat (answering noKey quietScript) 0 plainOptions
              (initialRunner 0%nat) eq_refl eq_refl eq_refl eq_refl)
    as (s' & shown & Hrun & _).
  by rewrite Hrun.
Defined.

(** ** The list of libraries that [checkLibraries] returns *)

Lemma foldl_newSet_NoDup (l acc : list Z) :
  NoDup acc ->
  NoDup (foldl (fun acc x => if decide (x ∈ acc) then acc else acc ++ [x]) acc l).
Proof.
  revert acc. induction l as [|x l IH]; intros acc Hacc; simpl; [done|].
  apply IH. case_decide; [done|].
  apply NoDup_app. split; [done|]. split; [|apply NoDup_singleton].
  intros y Hy Hin. apply list_elem_of_singleton in Hin. by subst y.
Qed.

Lemma foldl_newSet_id (l acc : list Z) :
  NoDup (acc ++ l) ->
  foldl (fun acc x => if decide (x ∈ acc) then acc else acc ++ [x]) acc l
  = acc ++ l.
Proof.
  revert acc. induction l as [|x l IH]; intros acc Hnd; simpl.
  - by rewrite app_nil_r.
  - apply NoDup_app in Hnd as Hparts. destruct Hparts as (_ & Hdisj & _).
    rewrite decide_False by (intros Hin; apply (Hdisj x Hin); by left).
    rewrite IH by (by rewrite <- app_assoc). by rewrite <- app_assoc.
Qed.

Lemma NoDup_newSet (l : list Z) : NoDup (newSet l).
Proof. apply foldl_newSet_NoDup, NoDup_nil_2. Qed.

Lemma foldl_newSet_elem (l acc : list Z) (x : Z) :
  x ∈ foldl (fun acc x => if decide (x ∈ acc) then acc else acc ++ [x]) acc l ->
  x ∈ acc \/ x ∈ l.
Proof.
  revert acc. induction l as [|y l IH]; intros acc Hx; simpl in Hx; [by left|].
  apply IH in Hx as [Hacc|Hrest]; [|right; by right].
  case_decide; [by left|].
  apply elem_of_app in Hacc as [Hacc|Hy]; [by left|].
  apply list_elem_of_singleton in Hy. subst. right. by left.
Qed.

Lemma elem_of_newSet (l : list Z) (x : Z) : x ∈ newSet l -> x ∈ l.
Proof.
  intros Hx. apply foldl_newSet_elem in Hx as [Hnil|Hx]; [|done].
  by apply elem_of_nil in Hnil.
Qed.

Lemma newSet_id (l : list Z) : NoDup l -> newSet l = l.
Proof. intros Hnd. by apply (foldl_newSet_id l []). Qed.

Section LibraryList.

Context {World : Type} `{Collaborators World}.

Implicit Types (s : Runner World).

(** X14: The list that [checkLibraries] returns names no library twice,
    whatever was asked for and whichever groups were added on the way.  So
    the set of successful libraries that [sync] builds from it holds the
    same libraries in the same order, and no pass runs an engine twice for
    a library because of a repeated entry. *)
Theorem checkLibraries_NoDup (keyInfo : KeyInfo) (libs : list LibraryID) s
    (r : list LibraryID) s' :
  checkLibraries keyInfo libs s = (Normal r, s') ->
  NoDup r /\ newSet r = r.
Proof.
  intros Hrun.
  assert (Hnd : NoDup r); [|split; [done|by apply newSet_id]].
  unfold checkLibraries in Hrun.
  apply bind_Normal in Hrun as (libs1 & s1 & _ & Hrun).
  apply bind_Normal in Hrun as ([[libs2 groupsToDownload] missing] & s2 & _ & Hrun).
  apply bind_Normal in Hrun as (kept & s3 & _ & Hrun).
  destruct kept as [libs3|].
  - apply bind_Normal in Hrun as (libs4 & s4 & _ & Hrun).
    injection Hrun as <- _. apply NoDup_newSet.
  - injection Hrun as <- _. apply NoDup_nil_2.
Qed.

(** ** Requested libraries the key cannot reach *)

(** The check of the requested libraries stops at the first personal
    library when the key has no access to it. *)
Lemma checkLibraryAccess_first (a : Access) (pre post : list LibraryID)
    (lib : LibraryID) s :
  access_user_library a = false ->
  Forall (fun l => libraryType l (world s) = LTGroup \/
                   libraryType l (world s) = LTOther) pre ->
  libraryType lib (world s) = LTUser \/
  libraryType lib (world s) = LTPublications ->
  checkLibraryAccess a (pre ++ lib :: post) s =
    (Thrown (length (heap s)), set_heap (heap s ++ [noLibraryAccess lib]) s).
Proof.
  intros Hacc Hpre Hlib. induction Hpre as [|l pre Hl _ IH]; simpl.
  - unfold bind, ask. simpl. rewrite Hacc.
    by destruct Hlib as [-> | ->].
  - unfold bind at 1, ask at 1. unfold bind at 1.
    by destruct Hl as [-> | ->].
Qed.

(** X15: When particular libraries are asked for and the key has no access to
    the personal library, [checkLibraries] throws "Key does not have access
    to library N" for the first personal library (user or publications) of
    the request.  Nothing else has happened by then: the group access of
    the key is not looked at and the server is not asked anything. *)
Theorem checkLibraries_library_access (keyInfo : KeyInfo)
    (pre post : list LibraryID) (lib : LibraryID) s :
  access_user_library (access keyInfo) = false ->
  Forall (fun l => libraryType l (world s) = LTGroup \/
                   libraryType l (world s) = LTOther) pre ->
  libraryType lib (world s) = LTUser \/
  libraryType lib (world s) = LTPublications ->
  checkLibraries keyInfo (pre ++ lib :: post) s =
    (Thrown (length (heap s)), set_heap (heap s ++ [noLibraryAccess lib]) s).
Proof.
  intros Hacc Hpre Hlib. unfold checkLibraries.
  assert (Hne : nonEmpty (pre ++ lib :: post) = true) by (by destruct pre).
  rewrite Hne. cbn [negb]. unfold bind at 1. unfold bind at 1.
  by rewrite checkLibraryAccess_first.
Qed.

(** ** Cancelling at a missing group *)

(** If the user answers "Cancel Sync" for one of the groups, the loop of
    prompts ends with that answer, whatever was answered before; only the
    world has changed. *)
Lemma missingGroupsLoop_cancel (g : Group)
    (groups removed : list (option Group)) s :
  Some g ∈ groups ->
  (forall w, (confirmMissingGroup (Some g) w).1 = 1) ->
  exists w, missingGroupsLoop groups removed s = (Normal None, set_world w s).
Proof.
  intros Hin Hcancel. revert removed s.
  induction groups as [|group rest IH]; intros removed s.
  { by apply elem_of_nil in Hin. }
  simpl. unfold bind, call.
  destruct (confirmMissingGroup group (world s)) as [index w] eqn:Hanswer.
  assert (Hnext : forall removed',
    exists w', missingGroupsLoop rest removed' (set_world w s)
               = (Normal None, set_world w' s) \/ group = Some g).
  { intros removed'. apply elem_of_cons in Hin as [Hhead|Htail].
    - exists w. by right.
    - destruct (IH Htail removed' (set_world w s)) as [w' Hrest].
      exists w'. left. by rewrite Hrest. }
  assert (Hhere : group = Some g -> index = 1).
  { intros ->. specialize (Hcancel (world s)). by rewrite Hanswer in Hcancel. }
  destruct (index =? 0) eqn:H0.
  - destruct (Hnext (removed ++ [group])) as [w' [Hrest|Hg]]; [by eauto|].
    apply Hhere in Hg. subst index. discriminate.
  - destruct (index =? 1) eqn:H1; [by exists w|].
    destruct (Hnext removed) as [w' [Hrest|Hg]]; [by eauto|].
    apply Hhere in Hg. subst index. discriminate.
Qed.

(** X16: With a key that has no group access, every local group counts as
    missing remotely and the user is asked about each.  If "Cancel Sync"
    is the answer for one of them, [checkLibraries] returns the empty list
    and no group has been removed, not even one for which "Remove Group"
    was chosen before: the groups are erased only after all the prompts.
    Nothing is downloaded either.  (When particular libraries were asked
    for, the check of the personal libraries comes first and may throw.) *)
Theorem checkLibraries_cancel (keyInfo : KeyInfo) (libs : list LibraryID) s
    (g : Group) :
  isEmpty (access_groups (access keyInfo)) = true ->
  g ∈ groups_getAll (world s) ->
  (forall w, (confirmMissingGroup (Some g) w).1 = 1) ->
  let r := checkLibraries keyInfo libs s in
  (exists w, r = (Normal [], set_world w s)) \/
  (exists lib,
     lib ∈ libs /\ access_user_library (access keyInfo) = false /\
     r = (Thrown (length (heap s)),
          set_heap (heap s ++ [noLibraryAccess lib]) s)).
Proof.
  intros Hgroups Hin Hcancel. cbv zeta. unfold checkLibraries.
  rewrite Hgroups. cbn [negb].
  assert (Hmissing :
    exists w,
      missingGroupsLoop (Some <$> groups_getAll (world s)) [] s
        = (Normal None, set_world w s) /\
      nonEmpty (Some <$> groups_getAll (world s)) = true).
  { destruct (missingGroupsLoop_cancel g (Some <$> groups_getAll (world s)) [] s)
      as [w Hloop]; [|done|].
    { apply list_elem_of_fmap. by exists g. }
    exists w. split; [done|].
    destruct (groups_getAll (world s)); [by apply elem_of_nil in Hin|done]. }
  assert (Hrest : forall libs0 : list LibraryID,
    exists w,
      (r <- (all <- ask groups_getAll ;;
             ret (libs0, ([] : list GroupID), Some <$> all)) ;;
       let '(libs1, groupsToDownload, remotelyMissingGroups) := r in
       r <-
         (if nonEmpty remotelyMissingGroups then
            removedGroups <- missingGroupsLoop remotelyMissingGroups [] ;;
            match removedGroups with
            | None => ret None
            | Some removedGroups =>
                removedLibraryIDs <- eraseGroupsLoop removedGroups [] ;;
                ret (Some (arrayDiff libs1 removedLibraryIDs))
            end
          else ret (Some libs1)) ;;
       match r with
       | None => ret []
       | Some libs2 =>
           libs3 <- downloadGroupsLoop groupsToDownload libs2 ;;
           ret (newSet libs3)
       end) s = (Normal [], set_world w s)).
  { intros libs0. destruct Hmissing as (w & Hloop & Hne).
    exists w. unfold bind at 1. unfold bind at 1, ask at 1, ret at 1.
    rewrite Hne. unfold bind at 1. unfold bind at 1. by rewrite Hloop. }
  destruct (nonEmpty libs) eqn:Hask; cbn [negb].
  - destruct (checkLibraryAccess_spec (access keyInfo) libs s)
      as [Hok|(lib & Hlib & Hacc & _ & Hthrow)].
    + left. unfold bind at 1. unfold bind at 1. rewrite Hok. apply Hrest.
    + right. exists lib. split; [done|]. split; [done|].
      unfold bind at 1. unfold bind at 1. by rewrite Hthrow.
  - left. destruct (access_user_library (access keyInfo)).
    + unfold bind at 1. unfold bind at 1, ask at 1, ret at 1. apply Hrest.
    + unfold bind at 1. unfold ret at 1. apply Hrest.
Qed.

End LibraryList.

Lemma checkLibraries_NoDup_witness :
  exists r,
    (@checkLibraries nat (scripted quietScript) personalKeyInfo [2; 1; 2]
       (initialRunner 0%nat)).1 = Normal r /\
    r = [2; 1] /\ NoDup r.
Proof.
  destruct (@checkLibraries nat (scripted quietScript) personalKeyInfo
              [2; 1; 2] (initialRunner 0%nat)) as [r s'] eqn:Hrun.
  pose proof Hrun as Hvalue. vm_compute in Hvalue.
  injection Hvalue as <- <-. eexists. split; [reflexivity|].
  split; [reflexivity|].
  exact (proj1 (@checkLibraries_NoDup nat (scripted quietScript)
                  personalKeyInfo [2; 1; 2] (initialRunner 0%nat) _ _ Hrun)).
Defined.

Lemma checkLibraries_library_access_witness :
  @checkLibraries nat (scripted quietScript) groupsOnlyKeyInfo [5; 1; 2]
    (initialRunner 0%nat)
  = (Thrown 0%nat, set_heap [noLibraryAccess 1] (initialRunner 0%nat)).
Proof.
  apply (@checkLibraries_library_access nat (scripted quietScript)
           groupsOnlyKeyInfo [5] [2] 1 (initialRunner 0%nat)).
  - reflexivity.
  - apply Forall_cons_2; [by left|apply Forall_nil_2].
  - by left.
Defined.

Lemma checkLibraries_cancel_witness :
  (@checkLibraries nat (answering cancelling oneGroupScript) personalKeyInfo []
     (initialRunner 0%nat)).1 = Normal [].
Proof.
  destruct (@checkLibraries_cancel nat (answering cancelling oneGroupScript)
              personalKeyInfo [] (initialRunner 0%nat) (mkGroup 5 105 1 "Group"))
    as [[w Hr]|(lib & Hin & _)].
  - reflexivity.
  - by left.
  - intros w. reflexivity.
  - by rewrite Hr.
  - by apply elem_of_nil in Hin.
Defined.

(** ** The auto-sync timer *)

Section AutoSyncProperties.

Context {World : Type} `{Collaborators World} `{Scheduling World}.

Implicit Types (s : Runner World) (timer : option (option TimerArm)).

(** X17: With auto-sync switched on, an enabled runner and a timeout given,
    [setSyncTimeout] decides alone what the timer is afterwards: whatever
    was pending is cancelled.  A recurring request arms the timer whether
    or not a sync is running; a one-shot request arms it only when no sync
    is running, and during a sync it leaves the timer cancelled, so that a
    recurring timer that was pending is lost.  With auto-sync off or the
    runner not enabled the call does nothing at all: the timer stays as it
    is, and a missing timeout is not even an error. *)
Theorem setSyncTimeout_supersedes (timeout : option Z) (recurring : bool)
    (options : TimeoutOptions) timer s :
  let arm type :=
    mkTimerArm (default 0 timeout * 1000) type (mergedOpts options) in
  (autoSync (world s) && runner_enabled (world s) = false ->
   setSyncTimeout timeout recurring options timer s = (Normal timer, s)) /\
  (autoSync (world s) && runner_enabled (world s) = true ->
   truthy timeout = true ->
   setSyncTimeout timeout recurring options timer s =
     (Normal
        (Some (if recurring then Some (arm TYPE_REPEATING_SLACK)
               else if _syncInProgress s then None
               else Some (arm TYPE_ONE_SHOT))),
      s)).
Proof.
  cbv zeta. unfold setSyncTimeout, bind, ask, get. simpl.
  destruct (autoSync (world s)), (runner_enabled (world s)); simpl;
    (split; [done|]); try done.
  intros _ ->. simpl.
  by destruct recurring, timer, (_syncInProgress s).
Qed.

(** Setting the timer and clearing it again leaves no timer armed,
    whatever was set. *)
Lemma clearSyncTimeout_disarms timer :
  clearSyncTimeout timer = None \/ clearSyncTimeout timer = Some None.
Proof. destruct timer; [by right|by left]. Qed.

(** X18: The timer's callback does not touch a running session: when a sync is
    in progress (or the application is locked), [notify] returns at once
    and the runner is exactly as it was, its error queue included; [sync]
    is not called.  Otherwise it starts a sync with the options object of
    the timer. *)
Theorem notify_skips (fuel : nat) (arm : TimerArm) s :
  (zotero_locked (world s) || _syncInProgress s = true ->
   notify fuel arm s = (Normal None, s)) /\
  (zotero_locked (world s) || _syncInProgress s = false ->
   notify fuel arm s =
     (let (r, s') := sync fuel (arm_options arm) s in
      (match r with
       | Normal r => Normal (Some r)
       | Thrown e => Thrown e
       end, s'))).
Proof.
  unfold notify, bind, ask, get. simpl.
  destruct (zotero_locked (world s)), (_syncInProgress s); simpl;
    (split; [done|]); try done.
  intros _. by destruct (sync fuel (arm_options arm) s) as [[r|e] s'].
Qed.

End AutoSyncProperties.

Lemma setSyncTimeout_supersedes_witness :
  (@setSyncTimeout nat autoSyncOn (Some 60) false
     (mkTimeoutOptions None None false false false) (Some (Some hourlyArm)) busyRunner).1
  = Normal (Some None).
Proof.
  destruct (@setSyncTimeout_supersedes nat autoSyncOn (Some 60) false
              (mkTimeoutOptions None None false false false) (Some (Some hourlyArm))
              busyRunner) as [_ Hset].
  by rewrite Hset.
Defined.

Lemma notify_skips_witness :
  @notify nat (scripted quietScript) autoSyncOn 1 hourlyArm busyRunner
  = (Normal None, busyRunner).
Proof.
  destruct (@notify_skips nat (scripted quietScript) autoSyncOn 1 hourlyArm
              busyRunner) as [Hskip _].
  by apply Hskip.
Defined.

(** ** Skipped groups *)

Section SkippedGroups.

Context {World : Type} `{Collaborators World}.

Implicit Types (s : Runner World).

(** The loop over the remote groups only reads; the groups it marks for
    download are remote groups. *)
Lemma remoteGroupsLoop_spec (syncAllLibraries : bool)
    (versions : list (GroupID * Z)) (libs : list LibraryID)
    (groupsToDownload : list GroupID) s :
  exists libs' groupsToDownload',
    remoteGroupsLoop syncAllLibraries versions libs groupsToDownload s
      = (Normal (libs', groupsToDownload'), s) /\
    forall id, id ∈ groupsToDownload' ->
      id ∈ groupsToDownload \/ id ∈ versions.*1.
Proof.
  revert libs groupsToDownload.
  induction versions as [|[id version] rest IH]; intros libs gtd; simpl.
  { eexists _, _. split; [done|]. by left. }
  unfold bind, ask. simpl.
  assert (Hmore : forall libs0,
    exists libs' gtd',
      remoteGroupsLoop syncAllLibraries rest libs0 (gtd ++ [id]) s
        = (Normal (libs', gtd'), s) /\
      forall id0, id0 ∈ gtd' -> id0 ∈ gtd \/ id0 ∈ id :: rest.*1).
  { intros libs0. destruct (IH libs0 (gtd ++ [id])) as (l' & g' & Hrun & Hin).
    exists l', g'. split; [done|]. intros id0 Hid0.
    destruct (Hin id0 Hid0) as [Hold|Hnew]; [|right; by right].
    apply elem_of_app in Hold as [Hold|Hhere]; [by left|].
    apply list_elem_of_singleton in Hhere. subst id0. right. by left. }
  assert (Hsame : forall libs0,
    exists libs' gtd',
      remoteGroupsLoop syncAllLibraries rest libs0 gtd s
        = (Normal (libs', gtd'), s) /\
      forall id0, id0 ∈ gtd' -> id0 ∈ gtd \/ id0 ∈ id :: rest.*1).
  { intros libs0. destruct (IH libs0 gtd) as (l' & g' & Hrun & Hin).
    exists l', g'. split; [done|]. intros id0 Hid0.
    destruct (Hin id0 Hid0) as [Hold|Hnew]; [by left|right; by right]. }
  destruct syncAllLibraries, (groups_get id (world s)) as [grp|];
    repeat case_decide; repeat (destruct (_ <? _)); auto.
Qed.

(** The prompts change nothing but the world, and the groups picked for
    removal are among those asked about. *)
Lemma missingGroupsLoop_spec (groups removed : list (option Group)) s :
  exists r w,
    missingGroupsLoop groups removed s = (Normal r, set_world w s) /\
    forall removed' grp,
      r = Some removed' -> grp ∈ removed' -> grp ∈ removed \/ grp ∈ groups.
Proof.
  revert removed s. induction groups as [|group rest IH]; intros removed s;
    simpl.
  { exists (Some removed), (world s). split; [by destruct s|].
    intros removed' grp [= <-]. by left. }
  unfold bind, call.
  destruct (confirmMissingGroup group (world s)) as [index w].
  destruct (index =? 0).
  - destruct (IH (removed ++ [group]) (set_world w s)) as (r & w' & Hrun & Hin).
    exists r, w'. split; [by rewrite Hrun|].
    intros removed' grp Hr Hgrp.
    destruct (Hin removed' grp Hr Hgrp) as [Hold|Hnew]; [|right; by right].
    apply elem_of_app in Hold as [Hold|Hhere]; [by left|].
    apply list_elem_of_singleton in Hhere. subst grp. right. by left.
  - destruct (index =? 1); [by exists None, w|].
    destruct (IH removed (set_world w s)) as (r & w' & Hrun & Hin).
    exists r, w'. split; [by rewrite Hrun|].
    intros removed' grp Hr Hgrp.
    destruct (Hin removed' grp Hr Hgrp) as [Hold|Hnew]; [by left|right; by right].
Qed.

(** The events of the removals and of the downloads. *)
Definition erases (removedGroups : list (option Group)) (ev : Event) : Prop :=
  exists grp, Some grp ∈ removedGroups /\ ev = EvGroupErase (group_id grp).

Definition saves (groupsToDownload : list GroupID) (ev : Event) : Prop :=
  exists id, id ∈ groupsToDownload /\ ev = EvGroupSave id.

Lemma frames_eraseGroupsLoop removedGroups removedLibraryIDs :
  frames (erases removedGroups)
    (eraseGroupsLoop removedGroups removedLibraryIDs).
Proof.
  revert removedLibraryIDs.
  induction removedGroups as [|[grp|] rest IH]; intros acc; simpl.
  - apply frames_ret.
  - apply frames_bind.
    { apply frames_emit. exists grp. split; [by left|done]. }
    intros _. apply frames_bind; [apply frames_act|]. intros _.
    eapply frames_mono; [|apply IH].
    intros ev (grp' & Hin & ->). exists grp'. split; [by right|done].
  - unfold throwNew. apply frames_bind; [apply frames_alloc|].
    intros e. apply frames_throw.
Qed.

Lemma frames_downloadGroupsLoop groupsToDownload libs :
  frames (saves groupsToDownload) (downloadGroupsLoop groupsToDownload libs).
Proof.
  revert libs. induction groupsToDownload as [|id rest IH]; intros libs; simpl.
  - apply frames_ret.
  - assert (Hrest : forall libs0,
      frames (saves (id :: rest)) (downloadGroupsLoop rest libs0)).
    { intros libs0. eapply frames_mono; [|apply IH].
      intros ev (id' & Hin & ->). exists id'. split; [by right|done]. }
    apply frames_bind.
    { unfold await. frames_auto. }
    intros [info|]; [|unfold throwNew; frames_auto].
    apply frames_bind; [apply frames_ask|]. intros group.
    apply frames_bind; [destruct group; frames_auto|]. intros keepGoing.
    destruct keepGoing; simpl; [|apply Hrest].
    apply frames_bind.
    { apply frames_emit. exists id. split; [by left|done]. }
    intros _. apply frames_bind; [apply frames_call|]. intros saved.
    apply Hrest.
Qed.

End SkippedGroups.

Section SkippedGroupsTheorem.

Context {World : Type} `{Collaborators World}.

Implicit Types (s : Runner World).

(** The last part of [checkLibraries]: the prompts for the groups that are
    missing remotely, the removals, and the downloads. *)
Definition resolveGroups (libs : list LibraryID)
    (groupsToDownload : list GroupID)
    (remotelyMissingGroups : list (option Group))
  : M World (list LibraryID) :=
  r <-
    (if nonEmpty remotelyMissingGroups then
       removedGroups <- missingGroupsLoop remotelyMissingGroups [] ;;
       match removedGroups with
       | None => ret None
       | Some removedGroups =>
           removedLibraryIDs <- eraseGroupsLoop removedGroups [] ;;
           ret (Some (arrayDiff libs removedLibraryIDs))
       end
     else ret (Some libs)) ;;
  match r with
  | None => ret []
  | Some libs =>
      libs <- downloadGroupsLoop groupsToDownload libs ;;
      ret (newSet libs)
  end.

(** It erases only groups that are missing remotely and saves only groups
    that are marked for download. *)
Lemma resolveGroups_events libs groupsToDownload remotelyMissingGroups s :
  exists evs,
    trace (resolveGroups libs groupsToDownload remotelyMissingGroups s).2
      = trace s ++ evs /\
    Forall (fun ev => erases remotelyMissingGroups ev \/
                      saves groupsToDownload ev) evs.
Proof.
  assert (Hdownload : forall libs0 s0,
    exists evs,
      trace ((libs1 <- downloadGroupsLoop groupsToDownload libs0 ;;
              ret (newSet libs1)) s0).2 = trace s0 ++ evs /\
      Forall (fun ev => erases remotelyMissingGroups ev \/
                        saves groupsToDownload ev) evs).
  { intros libs0 s0. unfold bind.
    destruct (frames_downloadGroupsLoop groupsToDownload libs0 s0)
      as [(evs & Ht & HQ) _].
    exists evs. split.
    - by destruct (downloadGroupsLoop groupsToDownload libs0 s0) as [[l|e] s1].
    - eapply Forall_impl; [exact HQ|]. by right. }
  unfold resolveGroups. unfold bind at 1.
  destruct (nonEmpty remotelyMissingGroups); [|apply Hdownload].
  unfold bind at 1.
  destruct (missingGroupsLoop_spec remotelyMissingGroups [] s)
    as (r & w & Hprompts & Hpicked).
  rewrite Hprompts. destruct r as [removed|].
  2: { exists []. split; [simpl; by rewrite app_nil_r|constructor]. }
  unfold bind at 1.
  destruct (frames_eraseGroupsLoop removed [] (set_world w s))
    as [(evs1 & Ht1 & HQ1) _].
  assert (HQ1' : Forall (fun ev => erases remotelyMissingGroups ev \/
                                   saves groupsToDownload ev) evs1).
  { eapply Forall_impl; [exact HQ1|]. intros ev (grp & Hin & ->). left.
    exists grp. split; [|done].
    destruct (Hpicked removed (Some grp) eq_refl Hin) as [Hnil|Hmissing];
      [by apply elem_of_nil in Hnil|done]. }
  destruct (eraseGroupsLoop removed [] (set_world w s)) as [[ids|e] s1];
    simpl in Ht1.
  - destruct (Hdownload (arrayDiff libs ids) s1) as (evs2 & Ht2 & HQ2).
    exists (evs1 ++ evs2). split; [|by apply Forall_app].
    unfold ret at 1. rewrite Ht2, Ht1. by rewrite app_assoc.
  - by exists evs1.
Qed.

(** X19: When all libraries are synced with a key that has access to all
    groups, a group on the list of skipped groups is left alone: whatever
    the server says about it and whether or not it exists locally,
    [checkLibraries] neither downloads and saves it nor removes it (nor
    asks about it).  Group records are taken to carry the ID they are
    looked up with. *)
Theorem checkLibraries_skipped_groups (keyInfo : KeyInfo) s
    (versions : list (GroupID * Z)) (w1 : World) (g : GroupID) :
  isEmpty (access_groups (access keyInfo)) = false ->
  groups_all (access keyInfo) = true ->
  getGroupVersions (userID keyInfo) (world s) = (Resolved versions, w1) ->
  g ∈ getSkippedGroups w1 ->
  (forall id grp, groups_get id w1 = Some grp -> group_id grp = id) ->
  let r := checkLibraries keyInfo [] s in
  exists evs,
    trace r.2 = trace s ++ evs /\
    (EvGroupSave g ∉ evs) /\ (EvGroupErase g ∉ evs).
Proof.
  intros Hgroups Hall Hversions Hskipped Hids. cbv zeta.
  set (skipped := getSkippedGroups w1) in *.
  set (newGroups := arrayDiff versions.*1 skipped).
  set (kept := filter (fun p : GroupID * Z =>
                         p.1 ∉ arrayDiff versions.*1 newGroups) versions).
  set (localGroups := filter (fun id => id ∉ skipped)
                        (group_id <$> groups_getAll w1)).
  set (missing := (fun id => groups_get id w1) <$>
                    arrayDiff localGroups newGroups).
  assert (Hkept : forall id, id ∈ kept.*1 -> id ∉ skipped).
  { intros id Hin. apply list_elem_of_fmap in Hin as ([id' v] & -> & Hin).
    apply list_elem_of_filter in Hin as [Hnot Hin]. simpl in *.
    unfold arrayDiff in Hnot. intros Hsk. apply Hnot.
    apply list_elem_of_filter. split.
    - unfold newGroups, arrayDiff. rewrite list_elem_of_filter. tauto.
    - apply list_elem_of_fmap. by exists (id', v). }
  assert (Hmissing : forall grp, Some grp ∈ missing -> group_id grp ∉ skipped).
  { intros grp Hin. apply list_elem_of_fmap in Hin as (id & Hgrp & Hin).
    symmetry in Hgrp. rewrite (Hids id grp Hgrp).
    unfold arrayDiff in Hin. apply list_elem_of_filter in Hin as [_ Hin].
    unfold localGroups in Hin. by apply list_elem_of_filter in Hin as [Hnot _]. }
  assert (Hrest : forall libs0 : list LibraryID,
    exists evs,
      trace ((r <- ((if groups_all (access keyInfo) then ret tt
                     else throwNew
                            (newError "Full group access is currently required")) ;;;
                    remoteGroupVersions <- await (getGroupVersions (userID keyInfo)) ;;
                    let remoteGroupIDs := remoteGroupVersions.*1 in
                    skippedGroups <- ask getSkippedGroups ;;
                    let newGroups := arrayDiff remoteGroupIDs skippedGroups in
                    let remoteGroupVersions :=
                      if true then
                        filter (fun p => p.1 ∉ arrayDiff remoteGroupIDs newGroups)
                          remoteGroupVersions
                      else remoteGroupVersions in
                    let remoteGroupIDs :=
                      if true then newGroups else remoteGroupIDs in
                    r <- remoteGroupsLoop true remoteGroupVersions libs0 [] ;;
                    w <- ask id ;;
                    let localGroups :=
                      if true then
                        filter (fun g => g ∉ skippedGroups)
                          (group_id <$> groups_getAll w)
                      else
                        (fun l => getGroupIDFromLibraryID l w) <$>
                          filter (fun l => libraryType l w = LTGroup) r.1 in
                    ret (r.1, r.2,
                         (fun g => groups_get g w) <$>
                           arrayDiff localGroups remoteGroupIDs)) ;;
              let '(libs1, groupsToDownload, remotelyMissingGroups) := r in
              resolveGroups libs1 groupsToDownload remotelyMissingGroups) s).2
        = trace s ++ evs /\
      (EvGroupSave g ∉ evs) /\ (EvGroupErase g ∉ evs)).
  { intros libs0. rewrite Hall.
    unfold bind at 1. unfold bind at 1. unfold ret at 1.
    unfold bind at 1. unfold await, bind at 1, call. rewrite Hversions.
    unfold ret at 1. unfold bind at 1, ask at 1.
    cbn [world set_world]. fold skipped. fold newGroups. fold kept.
    unfold bind at 1.
    destruct (remoteGroupsLoop_spec true kept libs0 [] (set_world w1 s))
      as (libs1 & gtd & Hloop & Hgtd).
    rewrite Hloop. unfold bind at 1, ask at 1, ret at 1.
    cbn [world set_world fst snd]. fold localGroups. fold missing.
    destruct (resolveGroups_events libs1 gtd missing (set_world w1 s))
      as (evs & Ht & HQ).
    exists evs. split; [exact Ht|].
    split; intros Hin; apply (proj1 (Forall_forall _ _) HQ) in Hin;
      destruct Hin as [(grp & Hgrp & Hev)|(id & Hid & Hev)];
      try discriminate.
    - injection Hev as ->.
      destruct (Hgtd id Hid) as [Hnil|Hremote];
        [by apply elem_of_nil in Hnil|].
      by apply (Hkept id).
    - injection Hev as ->. by apply (Hmissing grp). }
  unfold checkLibraries. rewrite Hgroups. cbn [negb nonEmpty].
  destruct (access_user_library (access keyInfo)).
  - unfold bind at 1. unfold bind at 1, ask at 1, ret at 1. apply Hrest.
  - unfold bind at 1. unfold ret at 1. apply Hrest.
Qed.

End SkippedGroupsTheorem.

Lemma checkLibraries_skipped_groups_witness :
  EvGroupSave 5 ∉
    trace (@checkLibraries nat (answering skippingGroup5 outdatedGroupScript)
             allGroupsKeyInfo [] (initialRunner 0%nat)).2.
Proof.
  destruct (@checkLibraries_skipped_groups nat
              (answering skippingGroup5 outdatedGroupScript) allGroupsKeyInfo
              (initialRunner 0%nat) [(5, 2)] 0%nat 5)
    as (evs & Ht & Hsave & _).
  - reflexivity.
  - reflexivity.
  - reflexivity.
  - by left.
  - intros id grp. simpl. case_decide; [|discriminate].
    intros [= <-]. by subst id.
  - rewrite Ht. simpl. exact Hsave.
Defined.

(** ** Before the libraries are known *)

Section Bootstrap.

Context {World : Type} `{Collaborators World}.

Implicit Types (s : Runner World) (options : Options).

(** X20: Key information that has passed [checkAccess] is complete: it is what
    the server answered, with a user ID that is not 0, a user name that is
    not empty and an access object.  Asking for it has changed nothing but
    the world. *)
Theorem checkAccess_sound s (keyInfo : KeyInfo) s' :
  checkAccess s = (Normal keyInfo, s') ->
  userID keyInfo <> 0 /\
  username keyInfo <> "" /\
  exists w,
    getKeyInfo (world s) =
      (Resolved (Some (mkKeyInfoJSON (Some (userID keyInfo))
                         (Some (username keyInfo)) (Some (access keyInfo)))),
       w) /\
    s' = set_world w s.
Proof.
  unfold checkAccess, bind, await, bind, call.
  destruct (getKeyInfo (world s)) as [[[[uid name a]|]|o] w]; simpl;
    try discriminate.
  destruct uid as [uid|]; simpl; [|discriminate].
  destruct (Z.eqb_spec uid 0) as [->|Hne]; simpl; [discriminate|].
  destruct name as [[|c name]|]; try discriminate.
  destruct a as [a|]; [|discriminate].
  intros [= <- <-]. simpl. split; [done|]. split; [done|]. by exists w.
Qed.

Lemma checkAccess_world s (keyInfo : KeyInfo) s' :
  checkAccess s = (Normal keyInfo, s') -> exists w, s' = set_world w s.
Proof.
  unfold checkAccess, bind, await, bind, call.
  destruct (getKeyInfo (world s)) as [[[[uid name a]|]|o] w]; simpl;
    try discriminate.
  destruct (negb (truthy uid)); [discriminate|].
  destruct name as [[|c name]|]; try discriminate.
  destruct a as [a|]; [|discriminate].
  intros [= _ <-]. by exists w.
Qed.

Lemma checkEmptyLibrary_world (keyInfo : KeyInfo) s :
  exists b w, checkEmptyLibrary keyInfo s = (Normal b, set_world w s).
Proof.
  unfold checkEmptyLibrary, bind, ask, call.
  assert (Hid : set_world (world s) s = s) by (by destruct s).
  destruct (hasCurrentUserID (world s)); simpl.
  { exists true, (world s). by rewrite Hid. }
  destruct (userLibrary_hasItems (world s)) as [hasItems w]. simpl.
  destruct (negb hasItems && (feeds_length w <=? 0) && negb (resetDataDir w));
    [|by exists true, w].
  simpl. destruct (confirmEmptyLibrary keyInfo w) as [index w']. simpl.
  destruct (index =? 1); [by exists false, w'|].
  destruct (index =? 2); by eexists _, w'.
Qed.

(** X21: When the user declines, at the warning about the empty library or at
    the question about the user of the local data, nothing has been done
    yet: [checkLibraries] has not run, so no group was removed or saved,
    and no error object was made; only the world has moved on, through the
    request for the key information and the prompts. *)
Theorem bootstrap_declined options s s' :
  bootstrap options s = (Normal Declined, s') ->
  exists w, s' = set_world w s.
Proof.
  unfold bootstrap, tryCatch. 
  destruct (bind checkAccess _ s) as [[b|e] s0] eqn:Hbody; [|discriminate].
  intros [= -> ->].
  apply bind_Normal in Hbody as (keyInfo & s1 & Haccess & Hbody).
  apply checkAccess_world in Haccess as (w1 & ->).
  apply bind_Normal in Hbody as (go & s2 & Hempty & Hbody).
  destruct (checkEmptyLibrary_world keyInfo (set_world w1 s))
    as (go' & w2 & Hempty').
  rewrite Hempty' in Hempty. injection Hempty as -> <-.
  destruct go; simpl in Hbody; [|injection Hbody as <-; by exists w2].
  apply bind_Normal in Hbody as (sameUser & s3 & Huser & Hbody).
  unfold call in Huser. simpl in Huser.
  destruct (checkUser (userID keyInfo) (username keyInfo) w2) as [same w3].
  injection Huser as -> <-.
  destruct sameUser; simpl in Hbody; [|injection Hbody as <-; by exists w3].
  apply bind_Normal in Hbody as (libs & s4 & _ & Hbody). discriminate.
Qed.

End Bootstrap.

Lemma checkAccess_sound_witness :
  userID (mkKeyInfo 7 "user" (mkAccess true None)) <> 0.
Proof.
  apply (@checkAccess_sound nat (scripted quietScript)
           (initialRunner 0%nat) (mkKeyInfo 7 "user" (mkAccess true None))
           (initialRunner 0%nat) eq_refl).
Defined.

Lemma bootstrap_declined_witness :
  exists w : nat,
    (@bootstrap nat (answering otherUser quietScript) plainOptions
       (initialRunner 0%nat)).2 = set_world w (initialRunner 0%nat).
Proof.
  exact (@bootstrap_declined nat (answering otherUser quietScript)
           plainOptions (initialRunner 0%nat) (initialRunner 0%nat) eq_refl).
Defined.

(** ** Which libraries the engines run for *)

(** The engine runs of a trace are all for libraries of [L]. *)
Definition withinLibs (L : list LibraryID) (ev : Event) : Prop :=
  match ev with
  | EvEngineStart _ l | EvEngineEnd _ l _ => l ∈ L
  | _ => True
  end.

Lemma isReport_withinLibs L ev : isReport ev -> withinLibs L ev.
Proof. by destruct ev. Qed.

Section EnginesWithin.

Context {World : Type} `{Collaborators World}.

Implicit Types (s : Runner World) (options : EngineOptions) (st : LoopState)
  (L : list LibraryID).

Lemma frames_startEngine_within {A} L p lib
    (run : World -> EngineOutcome A * World) :
  lib ∈ L -> frames (withinLibs L) (startEngine p lib run).
Proof. intros Hin. unfold startEngine. frames_auto; by simpl. Qed.

Lemma frames_report_within {A} L options e (acc : A) :
  frames (withinLibs L) (reportAndDecide options e acc).
Proof.
  eapply frames_mono; [|apply frames_reportAndDecide].
  apply isReport_withinLibs.
Qed.

Lemma frames_dataSyncLoop_within L options libs acc :
  (forall l, l ∈ libs -> l ∈ L) ->
  frames (withinLibs L) (dataSyncLoop options libs acc).
Proof.
  revert acc. induction libs as [|lib rest IH]; intros acc Hlibs; simpl.
  - apply frames_ret.
  - apply frames_bind.
    + unfold dataSyncStep, dataSyncCatch, startDataEngine.
      apply frames_tryCatch.
      * apply frames_bind; [|intros _; apply frames_ret].
        apply frames_startEngine_within, Hlibs. by left.
      * intros e. apply frames_bind; [apply frames_readObj|]. intros o.
        destruct (class o) as [| |[]| | |];
          first [apply frames_report_within | apply frames_ret
                | apply frames_throw].
    + intros [[] successful]; [|apply frames_ret].
      apply IH. intros l Hl. apply Hlibs. by right.
Qed.

Lemma frames_storageAttempts_within L tries lib acc :
  lib ∈ L -> frames (withinLibs L) (storageAttempts tries lib acc).
Proof.
  intros Hin. induction tries as [|tries IH]; simpl; [frames_auto|].
  apply frames_bind; [by apply frames_startEngine_within|].
  intros results. frames_auto. exact IH.
Qed.

Lemma frames_fileSyncLoop_within L options libs acc :
  (forall l, l ∈ libs -> l ∈ L) ->
  frames (withinLibs L) (fileSyncLoop options libs acc).
Proof.
  revert acc. induction libs as [|lib rest IH]; intros acc Hlibs; simpl.
  - apply frames_ret.
  - apply frames_bind.
    + unfold fileSyncStep, getStorageController.
      apply frames_tryCatch; [|intros e; apply frames_report_within].
      apply frames_bind; [apply frames_ask|]. intros mode.
      apply frames_bind.
      * apply frames_bind; [apply frames_get|]. intros s0.
        destruct (_ !! _); [apply frames_ret|].
        apply frames_bind; [by apply frames_quiet|]. intros _.
        apply frames_ret.
      * intros _. apply frames_bind; [|intros resync; apply frames_ret].
        apply frames_storageAttempts_within, Hlibs. by left.
    + intros [[] resync]; [|apply frames_ret].
      apply IH. intros l Hl. apply Hlibs. by right.
Qed.

Lemma frames_fullTextLoop_within L options libs acc :
  (forall l, l ∈ libs -> l ∈ L) ->
  frames (withinLibs L) (fullTextLoop options libs acc).
Proof.
  revert acc. induction libs as [|lib rest IH]; intros acc Hlibs; simpl.
  - apply frames_ret.
  - apply frames_bind.
    + unfold fullTextStep, fullTextCatch, startFullTextEngine.
      apply frames_tryCatch.
      * apply frames_bind; [|intros _; apply frames_ret].
        apply frames_startEngine_within, Hlibs. by left.
      * intros e. apply frames_bind; [apply frames_readObj|]. intros o.
        destruct (class o); try apply frames_report_within.
        destruct (_ =? _); [apply frames_ret|apply frames_report_within].
    + intros [[] resync]; [|apply frames_ret].
      apply IH. intros l Hl. apply Hlibs. by right.
Qed.

(** The events of a phase and the list it returns stay within [L]. *)
Definition phaseWithin {A} (L : list LibraryID) (m : M World A)
    (out : A -> list LibraryID) : Prop :=
  forall s,
    exists evs,
      trace (m s).2 = trace s ++ evs /\
      Forall (withinLibs L) evs /\
      forall a, (m s).1 = Normal a -> forall l, l ∈ out a -> l ∈ L.

Lemma doDataSync_within L options libs :
  (forall l, l ∈ libs -> l ∈ L) ->
  phaseWithin L (_doDataSync libs options) id.
Proof.
  intros Hlibs s. rewrite doDataSync_unfold.
  destruct (frames_dataSyncLoop_within L options libs [] Hlibs s)
    as [(evs & Ht & HQ) _].
  destruct (dataSyncLoop_summary options libs [] s)
    as (evs' & Ht' & _ & _ & Hout).
  rewrite Ht in Ht'. apply app_inv_head in Ht'. subst evs'.
  destruct (dataSyncLoop options libs [] s) as [[successful|e] s1];
    simpl in *.
  - eexists. split; [by rewrite Ht, <- app_assoc|]. split.
    + apply Forall_app. split; [done|].
      destruct (negb (nonEmpty libs) || nonEmpty successful);
        by repeat constructor.
    + intros out [= <-] l Hl. rewrite Hout in Hl.
      apply resolvedIn_elem in Hl.
      by apply (proj1 (Forall_forall _ _) HQ) in Hl.
  - exists evs. by split_and!.
Qed.

Lemma doFileSync_within L options libs :
  (forall l, l ∈ libs -> l ∈ L) ->
  phaseWithin L (_doFileSync libs options) id.
Proof.
  intros Hlibs s. unfold _doFileSync, bind, setSyncStatus, modify. simpl.
  set (s0 := set_lastSyncStatus _ s).
  destruct (frames_fileSyncLoop_within L options libs [] Hlibs s0)
    as [(evs & Ht & HQ) _].
  destruct (fileSyncLoop_result options libs [] s0) as (added & Hr & Hsub).
  destruct (fileSyncLoop options libs [] s0) as [r s1]. simpl in *. subst r.
  eexists. unfold emit, modify, ret. simpl.
  split; [by rewrite Ht, <- app_assoc|]. split.
  - apply Forall_app. split; [done|]. by repeat constructor.
  - intros out [= <-] l Hl. apply Hlibs.
    by eapply elem_of_sublist.
Qed.

Lemma doFullTextSync_within L options libs :
  (forall l, l ∈ libs -> l ∈ L) ->
  phaseWithin L (_doFullTextSync libs options) id.
Proof.
  intros Hlibs s. rewrite doFullTextSync_unfold.
  destruct (fulltext_enabled (world s)).
  - set (s0 := set_lastSyncStatus _ s).
    destruct (frames_fullTextLoop_within L options libs [] Hlibs s0)
      as [(evs & Ht & HQ) _].
    destruct (fullTextLoop_log options libs [] s0)
      as (evs' & queued & Hout & Ht' & _).
    rewrite Ht in Ht'. apply app_inv_head in Ht'. subst evs'.
    destruct (fullTextLoop options libs [] s0) as [[resync|e] s1];
      simpl in *; [|discriminate].
    injection Hout as ->.
    eexists. split; [by rewrite Ht, <- app_assoc|]. split.
    + apply Forall_app. split; [done|]. by repeat constructor.
    + intros out [= <-] l Hl.
      apply preconditionFailures_elem in Hl as (e & o & Hin & _).
      by apply (proj1 (Forall_forall _ _) HQ) in Hin.
  - eexists. split; [reflexivity|]. split; [by repeat constructor|].
    intros out [= <-] l Hl. by apply elem_of_nil in Hl.
Qed.

Definition stateWithin L st : Prop :=
  (forall l, l ∈ librariesToSync st -> l ∈ L) /\
  (forall l, l ∈ successfulLibraries st -> l ∈ L).

Lemma syncPass_within L options st s :
  stateWithin L st ->
  let r := syncPass options st s in
  exists evs,
    trace r.2 = trace s ++ evs /\
    Forall (withinLibs L) evs /\
    forall res, r.1 = Normal res ->
      match res with Continue st' | Break st' => stateWithin L st' end.
Proof.
  intros [Hlibs Hsucc]. cbv zeta. rewrite syncPass_unfold.
  destruct (doDataSync_within L options (librariesToSync st) Hlibs s)
    as (evs1 & Ht1 & HQ1 & Hout1).
  destruct (_doDataSync (librariesToSync st) options s) as [[dataOut|e] s1];
    simpl in *; [|by exists evs1].
  specialize (Hout1 dataOut eq_refl).
  set (successful := keepSuccessful _ _ _).
  assert (Hkept : forall l, l ∈ successful -> l ∈ L).
  { intros l Hl. apply elem_of_keepSuccessful in Hl as [Hl _]. by apply Hsucc. }
  destruct (doFileSync_within L options dataOut Hout1 s1)
    as (evs2 & Ht2 & HQ2 & Hout2).
  destruct (_doFileSync dataOut options s1) as [[fileOut|e] s2];
    simpl in *.
  2: { exists (evs1 ++ evs2). rewrite Ht2, Ht1, app_assoc.
       split; [done|]. split; [by apply Forall_app|done]. }
  specialize (Hout2 fileOut eq_refl).
  destruct (nonEmpty fileOut).
  { exists (evs1 ++ evs2). simpl. rewrite Ht2, Ht1, app_assoc.
    split; [done|]. split; [by apply Forall_app|].
    intros res [= <-]. by split. }
  destruct (doFullTextSync_within L options successful Hkept s2)
    as (evs3 & Ht3 & HQ3 & Hout3).
  destruct (_doFullTextSync successful options s2) as [[ftOut|e] s3];
    simpl in *.
  2: { exists (evs1 ++ evs2 ++ evs3). rewrite Ht3, Ht2, Ht1, <- !app_assoc.
       split; [done|]. split; [by rewrite !Forall_app|done]. }
  specialize (Hout3 ftOut eq_refl).
  exists (evs1 ++ evs2 ++ evs3). rewrite Ht3, Ht2, Ht1, <- !app_assoc.
  split; [done|]. split; [by rewrite !Forall_app|].
  intros res [= <-]. by destruct (nonEmpty ftOut).
Qed.

Lemma retryLoop_within (fuel : nat) L options st s :
  stateWithin L st ->
  exists evs,
    trace (retryLoop fuel options st s).2 = trace s ++ evs /\
    Forall (withinLibs L) evs.
Proof.
  revert st s. induction fuel as [|fuel IH]; intros st s Hst.
  - exists []. simpl. destruct (nonEmpty _); simpl;
      (split; [by rewrite app_nil_r|constructor]).
  - rewrite retryLoop_unfold.
    destruct (nonEmpty (librariesToSync st)).
    2: { exists []. simpl. split; [by rewrite app_nil_r|constructor]. }
    destruct (Z_le_gt_dec (attempt st) 3) as [Hle|Hgt].
    2: { rewrite loopBody_too_many by done. exists []. simpl.
         split; [by rewrite app_nil_r|constructor]. }
    rewrite loopBody_within by done.
    destruct (syncPass_within L options st s Hst) as (evs1 & Ht1 & HQ1 & Hnext).
    destruct (syncPass options st s) as [[[st1|st1]|e] s1]; simpl in *;
      [|by exists evs1..].
    destruct (IH st1 s1 (Hnext _ eq_refl)) as (evs2 & Ht2 & HQ2).
    exists (evs1 ++ evs2). rewrite Ht2, Ht1, app_assoc.
    split; [done|]. by apply Forall_app.
Qed.

(** X22: The retry loop starts engines, of whichever phase and in whichever
    pass, only for libraries of the list it starts with or of the set of
    successful libraries it starts with.  In [sync] both are made from what
    [checkLibraries] returned; so no data, file or full-text sync ever runs
    for a library that [checkLibraries] did not return, and a resync that a
    phase asks for can only be for one of these libraries. *)
Theorem retryLoop_engines_within (fuel : nat) options st s
    (L : list LibraryID) :
  (forall l, l ∈ librariesToSync st -> l ∈ L) ->
  (forall l, l ∈ successfulLibraries st -> l ∈ L) ->
  let r := retryLoop fuel options st s in
  exists evs,
    trace r.2 = trace s ++ evs /\
    forall p l, EvEngineStart p l ∈ evs -> l ∈ L.
Proof.
  intros Hlibs Hsucc. cbv zeta.
  destruct (retryLoop_within fuel L options st s) as (evs & Ht & HQ); [done|].
  exists evs. split; [done|].
  intros p l Hin. by apply (proj1 (Forall_forall _ _) HQ) in Hin.
Qed.

End EnginesWithin.

Lemma retryLoop_engines_within_witness :
  EvEngineStart DataPhase 3 ∉
    trace (@retryLoop nat (scripted resyncOnceScript) 4 plainEngineOptions
             (mkLoopState 1 [1; 2] [1; 2]) (initialRunner 0%nat)).2.
Proof.
  destruct (@retryLoop_engines_within nat (scripted resyncOnceScript) 4
              plainEngineOptions (mkLoopState 1 [1; 2] [1; 2])
              (initialRunner 0%nat) [1; 2]) as (evs & Ht & Hin).
  - done.
  - done.
  - rewrite Ht. simpl. intros Hstart. apply Hin in Hstart.
    apply elem_of_cons in Hstart as [?|Hstart]; [done|].
    apply elem_of_cons in Hstart as [?|Hstart]; [done|].
    by apply elem_of_nil in Hstart.
Defined.

(** ** Nothing is synced that [checkLibraries] did not return *)

Section SessionEngines.

Context {World : Type} `{Collaborators World}.

Implicit Types (s : Runner World) (options : Options).

Lemma withinLibs_nil L ev : withinLibs [] ev -> withinLibs L ev.
Proof.
  destruct ev; simpl; try done; intros Hin; by apply elem_of_nil in Hin.
Qed.

Lemma frames_sessionCatch_quiet options e :
  frames (withinLibs []) (@sessionCatch World options e).
Proof.
  unfold sessionCatch. frames_auto;
    (eapply frames_mono; [apply isReport_withinLibs|apply frames_addError]).
Qed.

Lemma frames_updateIcons_quiet arg :
  frames (withinLibs []) (@updateIcons World arg).
Proof. unfold updateIcons. frames_auto. Qed.

Lemma frames_checkErrors_quiet errors options :
  frames (withinLibs []) (checkErrors errors options).
Proof.
  revert options. induction errors as [|e rest IH]; intros options; simpl.
  - apply frames_ret.
  - apply frames_bind; [unfold checkError; frames_auto|].
    intros r. apply IH.
Qed.

Lemma frames_end_quiet options : frames (withinLibs []) (end_ options).
Proof.
  unfold end_. apply frames_bind; [apply frames_get|]. intros s0.
  apply frames_bind; [apply frames_checkErrors_quiet|]. intros options'.
  apply frames_bind.
  { destruct (negb _); [|apply frames_ret].
    apply frames_bind; [apply frames_get|]. intros s1.
    apply frames_updateIcons_quiet. }
  intros _. frames_auto.
Qed.

Lemma frames_loadLibraries_quiet libs :
  frames (withinLibs []) (loadLibraries libs).
Proof. induction libs as [|lib rest IH]; simpl; frames_auto; exact IH. Qed.

Lemma frames_checkLibraryAccess_quiet a libs :
  frames (withinLibs []) (checkLibraryAccess a libs).
Proof. induction libs as [|lib rest IH]; simpl; frames_auto; exact IH. Qed.

Lemma frames_remoteGroupsLoop_quiet syncAll versions libs groupsToDownload :
  frames (withinLibs [])
    (remoteGroupsLoop syncAll versions libs groupsToDownload).
Proof.
  revert libs groupsToDownload.
  induction versions as [|[id version] rest IH]; intros libs gtd; simpl.
  - apply frames_ret.
  - apply frames_bind; [apply frames_ask|]. intros group.
    destruct syncAll, group; repeat case_decide;
      repeat (destruct (_ <? _)); apply IH.
Qed.

Lemma frames_missingGroupsLoop_quiet groups removed :
  frames (withinLibs []) (missingGroupsLoop groups removed).
Proof.
  revert removed. induction groups as [|group rest IH]; intros removed; simpl.
  - apply frames_ret.
  - apply frames_bind; [apply frames_call|]. intros index.
    destruct (index =? 0); [apply IH|].
    destruct (index =? 1); [apply frames_ret|apply IH].
Qed.

Lemma frames_checkLibraries_quiet keyInfo libs :
  frames (withinLibs []) (checkLibraries keyInfo libs).
Proof.
  assert (Herase : forall removed acc,
    frames (withinLibs []) (eraseGroupsLoop removed acc)).
  { intros removed acc. eapply frames_mono; [|apply frames_eraseGroupsLoop].
    by intros ev (grp & _ & ->). }
  assert (Hdownload : forall gtd libs0,
    frames (withinLibs []) (downloadGroupsLoop gtd libs0)).
  { intros gtd libs0. eapply frames_mono; [|apply frames_downloadGroupsLoop].
    by intros ev (id & _ & ->). }
  unfold checkLibraries. cbv zeta.
  apply frames_bind.
  { destruct (negb (nonEmpty libs)).
    - frames_auto.
    - apply frames_bind; [apply frames_checkLibraryAccess_quiet|].
      intros _. apply frames_ret. }
  intros libs1. apply frames_bind.
  { destruct (negb (isEmpty _)); [|frames_auto].
    apply frames_bind; [frames_auto|]. intros _.
    apply frames_bind; [unfold await; frames_auto|]. intros versions.
    apply frames_bind; [apply frames_ask|]. intros skipped.
    apply frames_bind; [apply frames_remoteGroupsLoop_quiet|]. intros r.
    frames_auto. }
  intros [[libs2 gtd] missing].
  apply frames_bind.
  { destruct (nonEmpty missing); [|apply frames_ret].
    apply frames_bind; [apply frames_missingGroupsLoop_quiet|].
    intros [removed|]; [|apply frames_ret].
    apply frames_bind; [apply Herase|]. intros ids. apply frames_ret. }
  intros [libs3|]; [|apply frames_ret].
  apply frames_bind; [apply Hdownload|]. intros libs4. apply frames_ret.
Qed.

Lemma frames_bootstrap_quiet options :
  frames (withinLibs []) (bootstrap options).
Proof.
  unfold bootstrap. apply frames_tryCatch; [|intros e; apply frames_ret].
  apply frames_bind; [unfold checkAccess, await; frames_auto|].
  intros keyInfo.
  apply frames_bind; [unfold checkEmptyLibrary; frames_auto|].
  intros go. destruct (negb go); [apply frames_ret|].
  apply frames_bind; [apply frames_call|]. intros sameUser.
  destruct (negb sameUser); [apply frames_ret|].
  apply frames_bind; [apply frames_checkLibraries_quiet|].
  intros libs. apply frames_ret.
Qed.

(** A list of libraries that [bootstrap] is ready with is the one that
    [checkLibraries] returned for the libraries asked for, after the key
    information was fetched and the user went on at both prompts. *)
Lemma bootstrap_ready options s libs s' :
  bootstrap options s = (Normal (Ready libs), s') ->
  exists keyInfo sA sE sU,
    checkAccess s = (Normal keyInfo, sA) /\
    checkEmptyLibrary keyInfo sA = (Normal true, sE) /\
    call (checkUser (userID keyInfo) (username keyInfo)) sE
      = (Normal true, sU) /\
    checkLibraries keyInfo (default [] (libraries options)) sU
      = (Normal libs, s').
Proof.
  unfold bootstrap, tryCatch.
  destruct (bind checkAccess _ s) as [[b|e] s0] eqn:Hbody; [|discriminate].
  intros [= -> ->].
  apply bind_Normal in Hbody as (keyInfo & s1 & Haccess & Hbody).
  apply bind_Normal in Hbody as (go & s2 & Hempty & Hbody).
  destruct go; simpl in Hbody; [|discriminate].
  apply bind_Normal in Hbody as (sameUser & s3 & Huser & Hbody).
  destruct sameUser; simpl in Hbody; [|discriminate].
  apply bind_Normal in Hbody as (libs' & s4 & Hcheck & Hbody).
  injection Hbody as -> ->. by exists keyInfo, s1, s2, s3.
Qed.

End SessionEngines.

Section SessionEnginesTheorem.

Context {World : Type} `{Collaborators World}.

Implicit Types (s : Runner World) (options : Options).

(** From [s] to [s'], events that satisfy [Q] were added. *)
Definition adds (Q : Event -> Prop) s s' : Prop :=
  exists evs, trace s' = trace s ++ evs /\ Forall Q evs.

Lemma adds_refl Q s : adds Q s s.
Proof. exists []. by rewrite app_nil_r. Qed.

Lemma adds_trans Q s1 s2 s3 : adds Q s1 s2 -> adds Q s2 s3 -> adds Q s1 s3.
Proof.
  intros (evs1 & Ht1 & HQ1) (evs2 & Ht2 & HQ2). exists (evs1 ++ evs2).
  rewrite Ht2, Ht1, app_assoc. split; [done|]. by apply Forall_app.
Qed.

Lemma adds_mono (Q Q' : Event -> Prop) s s' :
  (forall ev, Q ev -> Q' ev) -> adds Q s s' -> adds Q' s s'.
Proof.
  intros HQ (evs & Ht & Hall). exists evs. split; [done|].
  by eapply Forall_impl.
Qed.

Lemma frames_adds {A} Q (m : M World A) s r s' :
  frames Q m -> m s = (r, s') -> adds Q s s'.
Proof. intros Hm Hrun. destruct (Hm s) as [Hadds _]. by rewrite Hrun in Hadds. Qed.

(** The state in which the [try] block of [sync] asks for the key
    information: the first-in-session flag is used up and the icons
    spin. *)
Definition spinning s : Runner World :=
  (updateIcons (inl TAnimate)
     (if _firstInSession s then set_firstInSessionFlag false s else s)).2.

(** In the session that starts in [s], [checkLibraries] is called and
    returns [libs]: a key is set, the key information is fetched, the user
    goes on at the warning about the empty library and at the question
    about the user of the local data, and [checkLibraries], called with
    that key information and the libraries asked for, returns [libs]. *)
Definition returnsLibraries options s (libs : list LibraryID) : Prop :=
  getAPIKey (world s) = true /\
  exists keyInfo sA sE sU sL,
    checkAccess (spinning s) = (Normal keyInfo, sA) /\
    checkEmptyLibrary keyInfo sA = (Normal true, sE) /\
    call (checkUser (userID keyInfo) (username keyInfo)) sE
      = (Normal true, sU) /\
    checkLibraries keyInfo (default [] (libraries options)) sU
      = (Normal libs, sL).

(** X23: In a session, an engine is started only for a library of the list
    that [checkLibraries] returned in this session for the libraries asked
    for, which is then the list the session leaves in [options.libraries].
    In a session in which [checkLibraries] returns no list (no key, an
    error on the way, the user declining) no engine is started at all. *)
Theorem session_engines options s :
  let r := session options s in
  exists evs,
    trace r.2 = trace s ++ evs /\
    (forall p l, EvEngineStart p l ∈ evs ->
       exists libs result options' ll,
         returnsLibraries options s libs /\
         l ∈ libs /\
         r.1 = Normal (Some (result, options', ll)) /\
         libraries options' = Some libs) /\
    ((forall libs, ~ returnsLibraries options s libs) ->
     forall p l, EvEngineStart p l ∉ evs).
Proof.
  cbv zeta.
  assert (Hsecond : forall evs : list Event,
    (forall p l, EvEngineStart p l ∈ evs ->
       exists libs result options' ll,
         returnsLibraries options s libs /\
         l ∈ libs /\
         (session options s).1 = Normal (Some (result, options', ll)) /\
         libraries options' = Some libs) ->
    (forall libs, ~ returnsLibraries options s libs) ->
    forall p l, EvEngineStart p l ∉ evs).
  { intros evs Hfirst Hnone p l Hin.
    destruct (Hfirst p l Hin) as (libs & _ & _ & _ & Hlibs & _).
    by apply (Hnone libs). }
  cut (exists evs,
    trace (session options s).2 = trace s ++ evs /\
    forall p l, EvEngineStart p l ∈ evs ->
       exists libs result options' ll,
         returnsLibraries options s libs /\
         l ∈ libs /\
         (session options s).1 = Normal (Some (result, options', ll)) /\
         libraries options' = Some libs).
  { intros (evs & Ht & Hfirst). exists evs. split; [done|].
    split; [done|]. by apply Hsecond. }
  clear Hsecond.
  destruct (session_returns options s)
    as (r & s' & Hrun & result & options' & ll & ->).
  rewrite Hrun. cbn [fst snd].
  assert (Hquiet : adds (withinLibs []) s s' ->
    exists evs,
      trace s' = trace s ++ evs /\
      forall p l, EvEngineStart p l ∈ evs ->
        exists libs result0 options0 ll0,
          returnsLibraries options s libs /\ l ∈ libs /\
          Normal (Some (result, options', ll)) =
            Normal (Some (result0, options0, ll0)) /\
          libraries options0 = Some libs).
  { intros (evs & Ht & HQ). exists evs. split; [done|].
    intros p l Hin. apply (proj1 (Forall_forall _ _) HQ) in Hin.
    by apply elem_of_nil in Hin. }
  unfold session in Hrun.
  apply bind_Normal in Hrun as (apiKey & s0 & Hkey & Hrun).
  injection Hkey as <- <-.
  destruct (getAPIKey (world s)) eqn:HapiKey; cbn [negb] in Hrun.
  2: { apply Hquiet.
       apply bind_Normal in Hrun as (e & s1 & Halloc & Hrun).
       apply bind_Normal in Hrun as (u & s2 & Hcatch & Hrun).
       injection Hrun as _ _ _ <-.
       eapply adds_trans; [eapply frames_adds; [apply frames_alloc|done]|].
       by eapply frames_adds; [apply frames_sessionCatch_quiet|]. }
  apply bind_Normal in Hrun as (s0 & s1 & Hget & Hrun).
  injection Hget as <- <-.
  apply bind_Normal in Hrun as (options1 & s2 & Hoptions & Hrun).
  assert (Hfirst : libraries options1 = libraries options /\
                   adds (withinLibs []) s s2 /\
                   s2 = (if _firstInSession s
                         then set_firstInSessionFlag false s else s)).
  { destruct (_firstInSession s).
    - apply bind_Normal in Hoptions as (u & s1 & Hflag & Hoptions).
      injection Hoptions as <- <-. split; [done|]. split.
      + eapply frames_adds; [|exact Hflag].
        apply frames_set_firstInSessionFlag.
      + by injection Hflag as <-.
    - injection Hoptions as <- <-. split; [done|]. split; [apply adds_refl|done]. }
  destruct Hfirst as (Hlibraries & Hadds2 & Hs2).
  apply bind_Normal in Hrun as (u & s3 & Hicons & Hrun).
  assert (Hs3 : s3 = spinning s).
  { unfold spinning. by rewrite <- Hs2, Hicons. }
  apply bind_Normal in Hrun as (b & s4 & Hboot & Hrun).
  assert (Hadds4 : adds (withinLibs []) s s4).
  { eapply adds_trans; [exact Hadds2|].
    eapply adds_trans; [eapply frames_adds;
                        [apply frames_updateIcons_quiet|exact Hicons]|].
    by eapply frames_adds; [apply frames_bootstrap_quiet|]. }
  destruct b as [libs| |e].
  - apply bootstrap_ready in Hboot
      as (keyInfo & sA & sE & sU & Haccess & Hempty & Huser & Hcheck).
    rewrite Hlibraries in Hcheck. rewrite Hs3 in Haccess.
    assert (Hreturns : returnsLibraries options s libs).
    { split; [done|]. by exists keyInfo, sA, sE, sU, s4. }
    apply bind_Normal in Hrun as (s5' & s5 & Hget & Hrun).
    injection Hget as <- <-.
    apply bind_Normal in Hrun as (u' & s6 & Hload & Hrun).
    apply bind_Normal in Hrun as (r & s7 & Hloop & Hrun).
    assert (Hadds7 : adds (withinLibs libs) s s7).
    { eapply adds_trans; [eapply adds_mono; [apply withinLibs_nil|exact Hadds4]|].
      eapply adds_trans.
      - eapply adds_mono; [apply withinLibs_nil|].
        by eapply frames_adds; [apply frames_loadLibraries_quiet|].
      - destruct (retryLoop_within 4 libs
                    (mkEngineOptions (background options1) (_firstInSession s4)
                       (onError options1))
                    (mkLoopState 1 libs (newSet libs)) s6) as (evs & Ht & HQ).
        { split; [done|]. simpl. intros l Hl. by apply elem_of_newSet. }
        rewrite Hloop in Ht. by exists evs. }
    assert (Hdone : adds (withinLibs libs) s s' /\
                    options' = set_libraries (Some libs) options1).
    { destruct r as [st|e st|].
      - injection Hrun as _ <- _ <-. by split.
      - apply bind_Normal in Hrun as (u'' & s8 & Hcatch & Hrun).
        injection Hrun as _ <- _ <-. split; [|done].
        eapply adds_trans; [exact Hadds7|].
        eapply adds_mono; [apply withinLibs_nil|].
        by eapply frames_adds; [apply frames_sessionCatch_quiet|].
      - discriminate. }
    destruct Hdone as [(evs & Ht & HQ) ->].
    exists evs. split; [done|]. intros p l Hin.
    apply (proj1 (Forall_forall _ _) HQ) in Hin. simpl in Hin.
    by exists libs, result, (set_libraries (Some libs) options1), ll.
  - apply Hquiet.
    eapply adds_trans; [exact Hadds4|].
    eapply frames_adds; [|exact Hrun].
    apply frames_bind.
    + apply frames_tryCatch; [|intros e; apply frames_ret].
      apply frames_bind; [apply frames_end_quiet|]. intros options2.
      apply frames_ret.
    + intros [options2|e]; [apply frames_ret|].
      apply frames_bind; [apply frames_sessionCatch_quiet|]. intros _.
      apply frames_ret.
  - apply Hquiet.
    apply bind_Normal in Hrun as (u' & s5 & Hcatch & Hrun).
    injection Hrun as _ _ _ <-.
    eapply adds_trans; [exact Hadds4|].
    by eapply frames_adds; [apply frames_sessionCatch_quiet|].
Qed.

End SessionEnginesTheorem.

(** ** Groups outside the request *)

Section RequestedGroups.

Context {World : Type} `{Collaborators World}.

Implicit Types (s : Runner World).

(** When particular libraries are asked for, the loop over the remote
    groups leaves the list as it is and marks for download only groups
    that exist locally with a library of the list. *)
Lemma remoteGroupsLoop_requested (versions : list (GroupID * Z))
    (libs : list LibraryID) (groupsToDownload : list GroupID) s :
  exists groupsToDownload',
    remoteGroupsLoop false versions libs groupsToDownload s
      = (Normal (libs, groupsToDownload'), s) /\
    forall id, id ∈ groupsToDownload' ->
      id ∈ groupsToDownload \/
      exists grp,
        groups_get id (world s) = Some grp /\ group_libraryID grp ∈ libs.
Proof.
  revert groupsToDownload.
  induction versions as [|[id version] rest IH]; intros gtd; simpl.
  { eexists. split; [done|]. by left. }
  unfold bind, ask. simpl.
  destruct (groups_get id (world s)) as [grp|] eqn:Hgrp; [|apply IH].
  case_decide as Hlib; [|apply IH].
  destruct (group_version grp <? version); [|apply IH].
  destruct (IH (gtd ++ [id])) as (gtd' & Hrun & Hin).
  exists gtd'. split; [done|]. intros id0 Hid0.
  destruct (Hin id0 Hid0) as [Hold|Hnew]; [|by right].
  apply elem_of_app in Hold as [Hold|Hhere]; [by left|].
  apply list_elem_of_singleton in Hhere. subst id0. right. by exists grp.
Qed.

(** X24: A sync that is limited to particular libraries, with a key that has
    access to all groups, does not touch the groups outside of them: it
    downloads and saves only groups that exist locally with a library of
    the request, and it removes only groups that belong to a group library
    of the request.  Group records are taken to carry the ID they are
    looked up with. *)
Theorem checkLibraries_requested_groups (keyInfo : KeyInfo)
    (libs : list LibraryID) s (versions : list (GroupID * Z)) (w1 : World) :
  libs <> [] ->
  isEmpty (access_groups (access keyInfo)) = false ->
  groups_all (access keyInfo) = true ->
  getGroupVersions (userID keyInfo) (world s) = (Resolved versions, w1) ->
  (forall id grp, groups_get id w1 = Some grp -> group_id grp = id) ->
  let r := checkLibraries keyInfo libs s in
  exists evs,
    trace r.2 = trace s ++ evs /\
    (forall g, EvGroupSave g ∈ evs ->
       exists grp, groups_get g w1 = Some grp /\ group_libraryID grp ∈ libs) /\
    (forall g, EvGroupErase g ∈ evs ->
       exists l,
         l ∈ libs /\ libraryType l w1 = LTGroup /\
         g = getGroupIDFromLibraryID l w1).
Proof.
  intros Hlibs Hgroups Hall Hversions Hids. cbv zeta.
  set (localGroups := (fun l => getGroupIDFromLibraryID l w1) <$>
                        filter (fun l => libraryType l w1 = LTGroup) libs).
  set (missing := (fun id => groups_get id w1) <$>
                    arrayDiff localGroups versions.*1).
  assert (Hmissing : forall grp, Some grp ∈ missing ->
    exists l, l ∈ libs /\ libraryType l w1 = LTGroup /\
              group_id grp = getGroupIDFromLibraryID l w1).
  { intros grp Hin. apply list_elem_of_fmap in Hin as (id & Hgrp & Hin).
    symmetry in Hgrp. rewrite (Hids id grp Hgrp).
    unfold arrayDiff in Hin. apply list_elem_of_filter in Hin as [_ Hin].
    unfold localGroups in Hin.
    apply list_elem_of_fmap in Hin as (l & -> & Hl).
    apply list_elem_of_filter in Hl as [Htype Hl]. by exists l. }
  assert (Hne : nonEmpty libs = true) by (by destruct libs).
  unfold checkLibraries. rewrite Hgroups, Hall, Hne. cbn [negb].
  unfold bind at 1. unfold bind at 1.
  destruct (checkLibraryAccess_spec (access keyInfo) libs s)
    as [Hok|(lib & _ & _ & _ & Hthrow)].
  2: { rewrite Hthrow. exists []. simpl. rewrite app_nil_r.
       split; [done|]. split; intros g Hin; by apply elem_of_nil in Hin. }
  rewrite Hok. unfold ret at 1.
  unfold bind at 1. unfold bind at 1. unfold bind at 1. unfold ret at 1.
  unfold bind at 1. unfold await, bind at 1, call. rewrite Hversions.
  unfold ret at 1. unfold bind at 1, ask at 1.
  cbn [world set_world]. unfold bind at 1.
  destruct (remoteGroupsLoop_requested versions libs [] (set_world w1 s))
    as (gtd & Hloop & Hgtd).
  rewrite Hloop. unfold bind at 1, ask at 1, ret at 1.
  cbn [world set_world fst snd]. fold localGroups. fold missing.
  destruct (resolveGroups_events libs gtd missing (set_world w1 s))
    as (evs & Ht & HQ).
  exists evs. split; [exact Ht|].
  split; intros g Hin; apply (proj1 (Forall_forall _ _) HQ) in Hin;
    destruct Hin as [(grp & Hgrp & Hev)|(id & Hid & Hev)];
    try discriminate.
  - injection Hev as ->.
    destruct (Hgtd id Hid) as [Hnil|Hlocal];
      [by apply elem_of_nil in Hnil|done].
  - injection Hev as ->. by apply Hmissing.
Qed.

End RequestedGroups.

Lemma checkLibraries_requested_groups_witness :
  EvGroupSave 5 ∉
    trace (@checkLibraries nat (scripted outdatedGroupScript)
             allGroupsKeyInfo [1] (initialRunner 0%nat)).2.
Proof.
  destruct (@checkLibraries_requested_groups nat (scripted outdatedGroupScript)
              allGroupsKeyInfo [1] (initialRunner 0%nat) [(5, 2)] 0%nat)
    as (evs & Ht & Hsave & _).
  - done.
  - reflexivity.
  - reflexivity.
  - reflexivity.
  - intros id grp. simpl. case_decide; [|discriminate].
    intros [= <-]. by subst id.
  - rewrite Ht. simpl. intros Hin.
    destruct (Hsave 5 Hin) as (grp & Hgrp & Hlib).
    vm_compute in Hgrp. injection Hgrp as <-. simpl in Hlib.
    apply elem_of_cons in Hlib as [?|Hlib]; [done|].
    by apply elem_of_nil in Hlib.
Defined.

(** ** The file phase goes on after a failure *)

Section FilePhaseGoesOn.

Context {World : Type} `{Collaborators World}.

Implicit Types (s : Runner World) (options : EngineOptions).

(** The runs of the storage engine of one library. *)
Definition runsOf (lib : LibraryID) (ev : Event) : Prop :=
  ev = EvEngineStart FilePhase lib \/
  exists rejection, ev = EvEngineEnd FilePhase lib rejection.

Lemma withController_trace lib s : trace (withController lib s) = trace s.
Proof. unfold withController. by destruct (_ !! _). Qed.

Lemma storageAttempts_events tries lib acc s :
  let r := storageAttempts tries lib acc s in
  exists evs,
    trace r.2 = trace s ++ evs /\
    Forall (runsOf lib) evs /\
    (tries <> 0%nat -> EvEngineStart FilePhase lib ∈ evs) /\
    forall e, r.1 = Thrown e ->
      (e < length (heap r.2))%nat /\
      (fatal (heap r.2 !!! e) = true ->
       EvEngineEnd FilePhase lib (Some (e, heap r.2 !!! e)) ∈ evs).
Proof.
  cbv zeta. revert s. induction tries as [|tries IH]; intros s.
  - rewrite storageAttempts_exhausted. exists []. simpl.
    rewrite !app_nil_r. split_and!; try done.
    intros e [= <-]. rewrite length_app. simpl. split; [lia|].
    by rewrite list_lookup_total_middle.
  - rewrite storageAttempts_step.
    destruct (storageEngine_start lib (world s)) as [[results|o] w].
    + set (run := [EvEngineStart FilePhase lib; EvEngineEnd FilePhase lib None]).
      assert (Hrun : Forall (runsOf lib) run).
      { apply Forall_cons_2; [by left|].
        apply Forall_cons_2; [right; by eexists|apply Forall_nil_2]. }
      assert (Hstart : EvEngineStart FilePhase lib ∈ run) by (by left).
      cbv zeta. destruct (syncRequired results).
      { exists run. by split_and!. }
      destruct (fileSyncRequired results).
      2: { exists run. by split_and!. }
      destruct (IH (afterRun s w [] run)) as (evs & Ht & HQ & _ & Hthrown).
      exists (run ++ evs).
      split; [rewrite Ht; unfold afterRun; cbn [trace];
              by rewrite <- app_assoc|].
      split; [by apply Forall_app|].
      split; [intros _; apply elem_of_app; by left|].
      intros e He. destruct (Hthrown e He) as [Hlt Hfatal].
      split; [done|]. intros Hf. apply elem_of_app. right. by apply Hfatal.
    + eexists. split; [reflexivity|]. split.
      { apply Forall_cons_2; [by left|].
        apply Forall_cons_2; [right; by eexists|apply Forall_nil_2]. }
      split; [intros _; by left|].
      intros e [= <-]. simpl. rewrite length_app. simpl. split; [lia|].
      rewrite list_lookup_total_middle by done. intros _. right. by left.
Qed.

Lemma runsOf_start lib evs l :
  Forall (runsOf lib) evs -> EvEngineStart FilePhase l ∈ evs -> l = lib.
Proof.
  intros HQ Hin. apply (proj1 (Forall_forall _ _) HQ) in Hin.
  destruct Hin as [[= ->]|[rej [=]]]. done.
Qed.

Lemma runsOf_stop lib evs : Forall (runsOf lib) evs -> EvCallerStop ∉ evs.
Proof.
  intros HQ Hin. apply (proj1 (Forall_forall _ _) HQ) in Hin.
  by destruct Hin as [[=]|[rej [=]]].
Qed.

(** One turn of the loop, as the trace shows it. *)
Lemma fileSyncStep_events options lib acc s :
  let r := fileSyncStep options lib acc s in
  exists evs c resync,
    r.1 = Normal (c, resync) /\
    trace r.2 = trace s ++ evs /\
    EvEngineStart FilePhase lib ∈ evs /\
    (forall l, EvEngineStart FilePhase l ∈ evs -> l = lib) /\
    (EvCallerStop ∈ evs ->
       exists e o,
         EvEngineEnd FilePhase lib (Some (e, o)) ∈ evs /\ fatal o = true) /\
    (c = Next -> EvCallerStop ∉ evs) /\
    (c = Stop -> EvCallerStop ∈ evs).
Proof.
  cbv zeta. rewrite fileSyncStep_unfold.
  destruct (storageAttempts_events 3 lib acc (withController lib s))
    as (evs & Ht & HQ & Hstart & Hthrown).
  rewrite withController_trace in Ht. specialize (Hstart ltac:(done)).
  destruct (storageAttempts 3 lib acc (withController lib s))
    as [[resync|e] s1]; simpl in *.
  - exists evs, Next, resync. split_and!; try done.
    + intros l. by apply runsOf_start.
    + intros Hin. by apply (runsOf_stop lib) in Hin.
    + intros _. by apply (runsOf_stop lib).
  - destruct (Hthrown e eq_refl) as [Hlt Hfatal].
    rewrite reportAndDecide_spec by done.
    set (o := heap s1 !!! e) in *.
    pose proof (reportEvents_isReport options o e) as Hrep.
    pose proof (reportEvents_stop options o e) as Hstop.
    exists (evs ++ reportEvents options o e),
      (if stopOnError || fatal o then Stop else Next), acc.
    split; [done|]. split; [simpl; by rewrite Ht, <- app_assoc|].
    split; [apply elem_of_app; by left|]. split_and!.
    + intros l Hin. apply elem_of_app in Hin as [Hin|Hin].
      * by eapply runsOf_start.
      * by apply (proj1 (Forall_forall _ _) Hrep) in Hin.
    + intros Hin. apply elem_of_app in Hin as [Hin|Hin].
      { by apply (runsOf_stop lib) in Hin. }
      apply Hstop in Hin. exists e, o. split; [|done].
      apply elem_of_app. left. by apply Hfatal.
    + intros Hnext Hin. apply elem_of_app in Hin as [Hin|Hin].
      { by apply (runsOf_stop lib) in Hin. }
      apply Hstop in Hin. by rewrite Hin in Hnext.
    + intros Hc. apply elem_of_app. right. apply Hstop.
      by destruct (stopOnError || fatal o).
Qed.

Lemma fileSyncLoop_events options libs acc s :
  let r := fileSyncLoop options libs acc s in
  exists evs,
    trace r.2 = trace s ++ evs /\
    (forall l, EvEngineStart FilePhase l ∈ evs -> l ∈ libs) /\
    (EvCallerStop ∉ evs ->
       forall l, l ∈ libs -> EvEngineStart FilePhase l ∈ evs) /\
    (EvCallerStop ∈ evs ->
       exists l e o,
         l ∈ libs /\ EvEngineEnd FilePhase l (Some (e, o)) ∈ evs /\
         fatal o = true).
Proof.
  cbv zeta. revert acc s. induction libs as [|lib rest IH]; intros acc s; simpl.
  - exists []. rewrite app_nil_r. split_and!; try done.
    + intros l Hin. by apply elem_of_nil in Hin.
    + intros _ l Hin. by apply elem_of_nil in Hin.
    + intros Hin. by apply elem_of_nil in Hin.
  - unfold bind.
    destruct (fileSyncStep_events options lib acc s)
      as (evs1 & c & resync & Hr & Ht1 & Hstart & Honly & Hfatal & Hnext & Hstop).
    destruct (fileSyncStep options lib acc s) as [r s1]. simpl in *. subst r.
    destruct c.
    + specialize (Hnext eq_refl).
      destruct (IH resync s1) as (evs2 & Ht2 & Hin2 & Hall2 & Hfatal2).
      exists (evs1 ++ evs2). rewrite Ht2, Ht1, app_assoc.
      split; [done|]. split_and!.
      * intros l Hin. apply elem_of_cons.
        apply elem_of_app in Hin as [Hin|Hin].
        -- left. by apply Honly.
        -- right. by apply Hin2.
      * intros Hno l Hl. apply elem_of_app.
        apply elem_of_cons in Hl as [->|Hl]; [by left|].
        right. apply Hall2; [|done].
        intros Hin. apply Hno. apply elem_of_app. by right.
      * intros Hin. apply elem_of_app in Hin as [Hin|Hin]; [done|].
        destruct (Hfatal2 Hin) as (l & e & o & Hl & Hend & Hf).
        exists l, e, o. split; [by right|]. split; [|done].
        apply elem_of_app. by right.
    + specialize (Hstop eq_refl). exists evs1. split; [done|]. split_and!.
      * intros l Hin. apply elem_of_cons. left. by apply Honly.
      * done.
      * intros _. destruct (Hfatal Hstop) as (e & o & Hend & Hf).
        exists lib, e, o. split; [by left|done].
Qed.

(** X25: In the file phase a failure for one library does not keep the
    libraries after it from syncing their files: unless the caller has
    been stopped, the storage engine of every library of the list is
    started, whatever the engines of the others answered and even if one
    of them used up its attempts.  The caller is stopped only for a fatal
    rejection of an engine; and no storage engine is started for a library
    that is not in the list. *)
Theorem doFileSync_goes_on options (libs : list LibraryID) s :
  let r := _doFileSync libs options s in
  exists evs,
    trace r.2 = trace s ++ evs /\
    (forall l, EvEngineStart FilePhase l ∈ evs -> l ∈ libs) /\
    (EvCallerStop ∉ evs ->
       forall l, l ∈ libs -> EvEngineStart FilePhase l ∈ evs) /\
    (EvCallerStop ∈ evs ->
       exists l e o,
         l ∈ libs /\ EvEngineEnd FilePhase l (Some (e, o)) ∈ evs /\
         fatal o = true).
Proof.
  cbv zeta. unfold _doFileSync, bind, setSyncStatus, modify. simpl.
  set (s0 := set_lastSyncStatus _ s).
  destruct (fileSyncLoop_events options libs [] s0)
    as (evs & Ht & Hin & Hall & Hfatal).
  destruct (fileSyncLoop_returns options libs [] s0) as (resync & Hr).
  destruct (fileSyncLoop options libs [] s0) as [r s1]. simpl in *. subst r.
  exists (evs ++ [EvPhaseDone FilePhase libs resync]).
  unfold emit, modify, ret. simpl.
  split; [by rewrite Ht, <- app_assoc|]. split_and!.
  - intros l Hl. apply elem_of_app in Hl as [Hl|Hl]; [by apply Hin|].
    elem_inv Hl.
  - intros Hno l Hl. apply elem_of_app. left. apply Hall; [|done].
    intros Hstop. apply Hno. apply elem_of_app. by left.
  - intros Hstop. apply elem_of_app in Hstop as [Hstop|Hstop];
      [|elem_inv Hstop].
    destruct (Hfatal Hstop) as (l & e & o & Hl & Hend & Hf).
    exists l, e, o. split; [done|]. split; [|done].
    apply elem_of_app. by left.
Qed.

End FilePhaseGoesOn.

